(** * Going to Quasar (p5.js sketch): a shallow embedding of [dist/script.js]

    The sketch has two entry points, [init] (the scene generator) and [draw]
    (the frame renderer).  Both are embedded in one small state-and-output
    monad over a [World] that holds the p5 host variables, the
    [Math.random] source, and the sketch's globals.

    Numbers.  A JavaScript number is modelled by [num]: an exact rational,
    or one of [+Infinity], [-Infinity], [NaN].  Arithmetic on the finite
    part of [num] is exact and results are kept in lowest terms, so that
    structural equality of [num] is numeric equality.  Binary rounding is
    modelled apart, by [round64] and [rounds_to_nearest], and the palette
    has a second embedding [colorMapR] in which every sum and product is
    rounded; the exact one is its instance at [Qred].  Statements about the
    exact model are kept to what rounding leaves true: single operations of
    the code, closed bounds, and structure.  Negative zero is not modelled;
    no divisor of the sketch can be [-0].

    Library functions of p5.js and of the JavaScript engine ([random],
    [floor], [min], [max], [constrain], [Array.prototype.sort]) are given
    by their documented behaviour; [cos], [sin], [atan2], [Math.hypot] and
    the value p5's [noise] computes from its table are parameters of
    the development; that [noise] fills its table from [Math.random] on
    its first call is modelled. *)

From Stdlib Require Import QArith Qround Qabs Qpower ZArith Lia Lqa Bool.
From stdpp Require Import base list sorting.

Open Scope Q_scope.

(** ** JavaScript numbers *)

Inductive num : Type :=
| Fin (q : Q)
| PInf
| NInf
| NaN.

Definition fin (q : Q) : num := Fin (Qred q).

Definition Qltb (a b : Q) : bool := negb (Qle_bool b a).
Definition Qtrunc (q : Q) : Z := if Qle_bool 0 q then Qfloor q else Qceiling q.

Definition inf_of_sign (c : comparison) : num :=
  match c with Gt => PInf | Lt => NInf | Eq => NaN end.

Definition jneg (a : num) : num :=
  match a with
  | Fin q => fin (- q)
  | PInf => NInf
  | NInf => PInf
  | NaN => NaN
  end.

Definition jadd (a b : num) : num :=
  match a, b with
  | NaN, _ | _, NaN => NaN
  | Fin p, Fin q => fin (p + q)
  | PInf, NInf | NInf, PInf => NaN
  | PInf, _ | _, PInf => PInf
  | NInf, _ | _, NInf => NInf
  end.

Definition jsub (a b : num) : num :=
  match a, b with
  | NaN, _ | _, NaN => NaN
  | Fin p, Fin q => fin (p - q)
  | PInf, PInf | NInf, NInf => NaN
  | PInf, _ | _, NInf => PInf
  | NInf, _ | _, PInf => NInf
  end.

Definition jmul (a b : num) : num :=
  match a, b with
  | NaN, _ | _, NaN => NaN
  | Fin p, Fin q => fin (p * q)
  | PInf, Fin q | Fin q, PInf => inf_of_sign (q ?= 0)
  | NInf, Fin q | Fin q, NInf => inf_of_sign (0 ?= q)
  | PInf, PInf | NInf, NInf => PInf
  | PInf, NInf | NInf, PInf => NInf
  end.

Definition jdiv (a b : num) : num :=
  match a, b with
  | NaN, _ | _, NaN => NaN
  | Fin p, Fin q => if Qeq_bool q 0 then inf_of_sign (p ?= 0) else fin (p / q)
  | Fin _, _ => Fin 0
  | PInf, Fin q => if Qltb q 0 then NInf else PInf
  | NInf, Fin q => if Qltb q 0 then PInf else NInf
  | _, _ => NaN
  end.

(** The [%] operator: the remainder takes the sign of the dividend. *)
Definition jrem (a b : num) : num :=
  match a, b with
  | Fin p, Fin q =>
      if Qeq_bool q 0 then NaN else fin (p - q * inject_Z (Qtrunc (p / q)))
  | Fin p, (PInf | NInf) => Fin p
  | _, _ => NaN
  end.

Definition jpow5 (a : num) : num :=
  match a with
  | Fin q => fin (q * q * q * q * q)
  | other => other
  end.

Definition jlt (a b : num) : bool :=
  match a, b with
  | NaN, _ | _, NaN => false
  | Fin p, Fin q => Qltb p q
  | _, NInf | PInf, _ => false
  | _, _ => true
  end.

Definition jgt (a b : num) : bool := jlt b a.

Definition jle (a b : num) : bool :=
  match a, b with
  | NaN, _ | _, NaN => false
  | Fin p, Fin q => Qle_bool p q
  | NInf, _ | _, PInf => true
  | _, _ => false
  end.

Definition jge (a b : num) : bool := jle b a.

Definition jfloor (a : num) : num :=
  match a with
  | Fin q => Fin (inject_Z (Qfloor q))
  | other => other
  end.

Definition jmin (a b : num) : num :=
  match a, b with
  | NaN, _ | _, NaN => NaN
  | _, _ => if jle a b then a else b
  end.

Definition jmax (a b : num) : num :=
  match a, b with
  | NaN, _ | _, NaN => NaN
  | _, _ => if jle a b then b else a
  end.

(** [Math.PI] is the double nearest to pi; p5's [TAU] is twice that. *)
Definition PI : num := Fin (884279719003555 # 281474976710656).
Definition TAU : num := Fin (884279719003555 # 140737488355328).

(** p5's [constrain(n, low, high)] is [max(min(n, high), low)]. *)
Definition constrain (n low high : num) : num := jmax (jmin n high) low.

(** A whole number, such as a loop counter or [arr.length]. *)
Definition of_nat (n : nat) : num := Fin (inject_Z (Z.of_nat n)).

(** A finite loop bound read back as a count: the least [n] with
    [not (n < a)], which is how often [for (i = 0; i < a; i++)] runs. *)
Definition to_nat (a : num) : nat :=
  match a with
  | Fin q => Z.to_nat (Qceiling q)
  | _ => O
  end.

(** ** Data model *)

(** What a [target] field refers to: the [center] object, or the planet
    object stored at an index of the [planets] array.  The array is only
    appended to, and its objects are mutated in place, so the index is the
    object's identity. *)
Inductive Target : Type :=
| TCenter
| TPlanet (idx : nat).

(** The object built by [spaceObject]; a field the caller leaves out is
    [undefined] ([None]).  [o_x] and [o_y] are added by [draw]. *)
Record SpaceObject : Type := mkSpaceObject {
  o_col : option (num * num * num);
  o_hue : option num;
  o_len : num;
  o_angle : num;
  o_radius : num;
  o_speed : num;
  o_target : option Target;
  o_isPlanet : bool;
  o_x : option num;
  o_y : option num
}.

Record Star : Type := mkStar {
  s_x : num;
  s_y : num;
  s_size : num;
  s_hue : num;
  s_sat : num;
  s_idx : num;
  s_speed : num
}.

Record Center : Type := mkCenter {
  c_x : num;
  c_y : num;
  c_radius : num;
  c_len : num
}.

(** The calls made on the p5 drawing surface. *)
Inductive Op : Type :=
| Background (v : num)
| Translate (dx dy : num)
| Scale (s : num)
| Rotate (a : num)
| Push
| Pop
| NoStroke
| NoFill
| BlendModeAdd
| StrokeWeight (w : num)
| Fill (c : num * num * num)
| Stroke3 (h s b : num)
| Stroke4 (h s b a : num)
| Ellipse (cx cy w : num) (h : option num)
| Line (x1 y1 x2 y2 : num)
| Arc (cx cy w h start stop : num).

(** The sketch's globals together with what the host provides: the canvas
    size, the frame counter, the pointer, [Math.random], read as the
    [rpos]-th value of the sequence [rng], and the table [perlin] that
    p5 keeps for [noise] ([None] until [noise] is first called). *)
Record World : Type := mkWorld {
  width : num;
  height : num;
  frameCount : num;
  mouseX : num;
  mouseY : num;
  rng : nat -> Q;
  rpos : nat;
  mouseDown : bool;
  arcs : list SpaceObject;
  planets : list SpaceObject;
  stars : list Star;
  numCircles : num;
  radius : num;
  arcSize : num;
  center : Center;
  baseHue : num;
  hueRange : num;
  perlin : option (list num)
}.

(** The size of p5's table for [noise]. *)
Definition perlin_size : nat := 4096.

Definition numArcs : num := Fin 2000.
Definition zoomScale : num := Fin 3.

Definition spaceObject (col : option (num * num * num)) (hue : option num)
    (len angle radius speed : num) (target : option Target)
    (isPlanet : bool) : SpaceObject :=
  mkSpaceObject col hue len angle radius speed target isPlanet None None.

(** *** Assignments *)

Definition set_rpos (v : nat) (w : World) : World :=
  mkWorld (width w) (height w) (frameCount w) (mouseX w) (mouseY w) (rng w) v
    (mouseDown w) (arcs w) (planets w) (stars w) (numCircles w) (radius w)
    (arcSize w) (center w) (baseHue w) (hueRange w) (perlin w).
Definition set_arcs (v : list SpaceObject) (w : World) : World :=
  mkWorld (width w) (height w) (frameCount w) (mouseX w) (mouseY w) (rng w)
    (rpos w) (mouseDown w) v (planets w) (stars w) (numCircles w) (radius w)
    (arcSize w) (center w) (baseHue w) (hueRange w) (perlin w).
Definition set_planets (v : list SpaceObject) (w : World) : World :=
  mkWorld (width w) (height w) (frameCount w) (mouseX w) (mouseY w) (rng w)
    (rpos w) (mouseDown w) (arcs w) v (stars w) (numCircles w) (radius w)
    (arcSize w) (center w) (baseHue w) (hueRange w) (perlin w).
Definition set_stars (v : list Star) (w : World) : World :=
  mkWorld (width w) (height w) (frameCount w) (mouseX w) (mouseY w) (rng w)
    (rpos w) (mouseDown w) (arcs w) (planets w) v (numCircles w) (radius w)
    (arcSize w) (center w) (baseHue w) (hueRange w) (perlin w).
Definition set_numCircles (v : num) (w : World) : World :=
  mkWorld (width w) (height w) (frameCount w) (mouseX w) (mouseY w) (rng w)
    (rpos w) (mouseDown w) (arcs w) (planets w) (stars w) v (radius w)
    (arcSize w) (center w) (baseHue w) (hueRange w) (perlin w).
Definition set_radius (v : num) (w : World) : World :=
  mkWorld (width w) (height w) (frameCount w) (mouseX w) (mouseY w) (rng w)
    (rpos w) (mouseDown w) (arcs w) (planets w) (stars w) (numCircles w) v
    (arcSize w) (center w) (baseHue w) (hueRange w) (perlin w).
Definition set_arcSize (v : num) (w : World) : World :=
  mkWorld (width w) (height w) (frameCount w) (mouseX w) (mouseY w) (rng w)
    (rpos w) (mouseDown w) (arcs w) (planets w) (stars w) (numCircles w)
    (radius w) v (center w) (baseHue w) (hueRange w) (perlin w).
Definition set_center (v : Center) (w : World) : World :=
  mkWorld (width w) (height w) (frameCount w) (mouseX w) (mouseY w) (rng w)
    (rpos w) (mouseDown w) (arcs w) (planets w) (stars w) (numCircles w)
    (radius w) (arcSize w) v (baseHue w) (hueRange w) (perlin w).
Definition set_baseHue (v : num) (w : World) : World :=
  mkWorld (width w) (height w) (frameCount w) (mouseX w) (mouseY w) (rng w)
    (rpos w) (mouseDown w) (arcs w) (planets w) (stars w) (numCircles w)
    (radius w) (arcSize w) (center w) v (hueRange w) (perlin w).
Definition set_hueRange (v : num) (w : World) : World :=
  mkWorld (width w) (height w) (frameCount w) (mouseX w) (mouseY w) (rng w)
    (rpos w) (mouseDown w) (arcs w) (planets w) (stars w) (numCircles w)
    (radius w) (arcSize w) (center w) (baseHue w) v (perlin w).
Definition set_perlin (v : option (list num)) (w : World) : World :=
  mkWorld (width w) (height w) (frameCount w) (mouseX w) (mouseY w) (rng w)
    (rpos w) (mouseDown w) (arcs w) (planets w) (stars w) (numCircles w)
    (radius w) (arcSize w) (center w) (baseHue w) (hueRange w) v.

Definition with_angle (v : num) (o : SpaceObject) : SpaceObject :=
  mkSpaceObject (o_col o) (o_hue o) (o_len o) v (o_radius o) (o_speed o)
    (o_target o) (o_isPlanet o) (o_x o) (o_y o).
Definition with_x (v : num) (o : SpaceObject) : SpaceObject :=
  mkSpaceObject (o_col o) (o_hue o) (o_len o) (o_angle o) (o_radius o)
    (o_speed o) (o_target o) (o_isPlanet o) (Some v) (o_y o).
Definition with_y (v : num) (o : SpaceObject) : SpaceObject :=
  mkSpaceObject (o_col o) (o_hue o) (o_len o) (o_angle o) (o_radius o)
    (o_speed o) (o_target o) (o_isPlanet o) (o_x o) (Some v).

(** ** The monad of the sketch

    A computation reads and writes the [World] and issues drawing calls;
    [None] is a call that does not complete (a [TypeError] on [undefined],
    or a loop that never ends). *)

Definition M (A : Type) : Type := World -> option (A * World * list Op).

Definition ret {A} (a : A) : M A := fun w => Some (a, w, []).

Definition bind {A B} (m : M A) (f : A -> M B) : M B :=
  fun w =>
    match m w with
    | None => None
    | Some (a, w1, o1) =>
        match f a w1 with
        | None => None
        | Some (b, w2, o2) => Some (b, w2, o1 ++ o2)
        end
    end.

Declare Scope quasar_scope.
Delimit Scope quasar_scope with quasar.
Notation "x <- m ;; k" := (bind m (fun x => k))
  (at level 100, m at next level, k at level 200, right associativity)
  : quasar_scope.
Notation "m ;; k" := (bind m (fun _ => k))
  (at level 100, k at level 200, right associativity) : quasar_scope.
Open Scope quasar_scope.

Definition abort {A} : M A := fun _ => None.
Definition gets {A} (f : World -> A) : M A := fun w => Some (f w, w, []).
Definition modify (f : World -> World) : M unit := fun w => Some (tt, f w, []).
Definition emit (o : Op) : M unit := fun w => Some (tt, w, [o]).
Definition of_option {A} (o : option A) : M A :=
  match o with Some a => ret a | None => abort end.

(** [for (let i = lo; i < lo + n; i++) body(i)] *)
Fixpoint for_from (i n : nat) (body : nat -> M unit) : M unit :=
  match n with
  | O => ret tt
  | S n' => body i ;; for_from (S i) n' body
  end.
Definition for_range (n : nat) (body : nat -> M unit) : M unit :=
  for_from 0 n body.

(** [for (let i = start; i >= 0; i -= step) body(i)].  The recursion is
    on [fuel]; running out of it is reported as [None].  The decrement is
    exact here; in binary64 it is exact for the steps 1 and 2 as long as
    the counter is not negative and at most [2^52], and rounded for the
    step [2/3], so the number of turns is stated for the first two only. *)
Fixpoint for_down (fuel : nat) (i step : num) (body : num -> M unit) : M unit :=
  if jge i (Fin 0) then
    match fuel with
    | O => abort
    | S fuel' => body i ;; for_down fuel' (jsub i step) step body
    end
  else ret tt.

(** How often the body of the loop above runs, when the start is finite
    and not negative, and the step is finite and positive. *)
Definition down_fuel (start step : num) : nat :=
  match start, step with
  | Fin a, Fin s => if Qltb 0 s then S (Z.to_nat (Qfloor (a / s))) else O
  | _, _ => O
  end.

Definition for_down_to_zero (start step : num) (body : num -> M unit) : M unit :=
  for_down (down_fuel start step) start step body.

(** [pushPop = f => {push(); f(); pop();}] *)
Definition pushPop (f : M unit) : M unit := emit Push ;; f ;; emit Pop.

(** [for (let o of arr) body(o)]: the elements are read from the array as
    it is when their turn comes. *)
Definition for_of {A} (arr : World -> list A) (body : nat -> A -> M unit)
    : M unit :=
  l <- gets arr ;;
  for_range (length l) (fun i =>
    l' <- gets arr ;;
    o <- of_option (l' !! i) ;;
    body i o).

(** ** p5 and engine functions *)

(** [random()], [random(hi)] and [random(lo, hi)]; the last one swaps its
    bounds when [lo > hi].  In exact arithmetic [random(lo, hi)] stays
    below [hi]; the rounded sum of binary64 can reach it ([random(70, 120)]
    can be [120]), which is why statements about generated values give
    closed upper bounds where a sum is involved. *)
Definition random0 : M num :=
  fun w => Some (fin (rng w (rpos w)), set_rpos (S (rpos w)) w, []).

Definition random1 (hi : num) : M num :=
  r <- random0 ;; ret (jmul r hi).

Definition random2 (lo hi : num) : M num :=
  r <- random0 ;;
  if jgt lo hi then ret (jadd (jmul r (jsub lo hi)) hi)
  else ret (jadd (jmul r (jsub hi lo)) lo).

(** [arr[k]]: the index of the element, when [k] is an index of [arr]. *)
Definition array_ref {A} (arr : list A) (k : num) : option nat :=
  match k with
  | Fin q =>
      if Qeq_bool q (inject_Z (Qfloor q)) && Qle_bool 0 q
         && bool_decide (Z.to_nat (Qfloor q) < length arr)%nat
      then Some (Z.to_nat (Qfloor q)) else None
  | _ => None
  end.

(** [Array.prototype.sort(cmp)]: a comparator result of [NaN] counts as
    [0]; the sort is stable, and a stable sort is determined by its
    comparator, so insertion of each element in front of the sorted rest
    gives the array the engine returns. *)
Definition sortCompare {A} (cmp : A -> A -> num) (a b : A) : num :=
  match cmp a b with
  | NaN => Fin 0
  | v => v
  end.

Fixpoint sort_insert {A} (cmp : A -> A -> num) (a : A) (l : list A) : list A :=
  match l with
  | [] => [a]
  | b :: l' =>
      if jgt (sortCompare cmp a b) (Fin 0) then b :: sort_insert cmp a l'
      else a :: b :: l'
  end.

Definition sort {A} (cmp : A -> A -> num) (l : list A) : list A :=
  foldr (sort_insert cmp) [] l.

(** ** The sketch *)

(** [let rInt = (b, a=0) => floor(random(min(a, b), max(a, b)))] *)
Definition rInt (b a : num) : M num :=
  r <- random2 (jmin a b) (jmax a b) ;; ret (jfloor r).

(** [(amt, hueShift=0) => [(baseHue+amt*hueRange+hueShift)%1, amt, 1-amt]],
    as a function of the two globals it reads. *)
Definition colorMapAt (baseHue hueRange amt : num) (hueShift : option num)
    : num * num * num :=
  let hueShift := default (Fin 0) hueShift in
  (jrem (jadd (jadd baseHue (jmul amt hueRange)) hueShift) (Fin 1),
   amt,
   jsub (Fin 1) amt).

Definition colorMap (amt : num) (hueShift : option num) : M (num * num * num) :=
  gets (fun w => colorMapAt (baseHue w) (hueRange w) amt hueShift).

(** [target.len], [target.x], [target.y] *)
Definition target_len (t : Target) : M num :=
  match t with
  | TCenter => gets (fun w => c_len (center w))
  | TPlanet j => ps <- gets planets ;; p <- of_option (ps !! j) ;; ret (o_len p)
  end.

(** A number read from a field that may be [undefined]. *)
Definition to_num (v : option num) : num := default NaN v.

Definition target_x (t : Target) : M num :=
  match t with
  | TCenter => gets (fun w => c_x (center w))
  | TPlanet j =>
      ps <- gets planets ;; p <- of_option (ps !! j) ;; ret (to_num (o_x p))
  end.

Definition target_y (t : Target) : M num :=
  match t with
  | TCenter => gets (fun w => c_y (center w))
  | TPlanet j =>
      ps <- gets planets ;; p <- of_option (ps !! j) ;; ret (to_num (o_y p))
  end.

Definition push_arc (o : SpaceObject) : M unit :=
  modify (fun w => set_arcs (arcs w ++ [o]) w).
Definition push_planet (o : SpaceObject) : M unit :=
  modify (fun w => set_planets (planets w ++ [o]) w).
Definition push_star (s : Star) : M unit :=
  modify (fun w => set_stars (stars w ++ [s]) w).

(** One turn of the loop that fills [arcs]. *)
Definition init_arc (variance : num) : M unit :=
  numCircles <- gets numCircles ;;
  radius <- rInt numCircles (Fin 0) ;;
  v <- random2 (jneg variance) variance ;;
  let amt := jadd (jdiv radius numCircles) v in
  let amt := constrain amt (Fin 0) (Fin 1) in
  col <- colorMap amt None ;;
  sliver <- random0 ;;
  len <- (if jlt sliver (Fin (1#5)) then ret (jdiv (Fin 1) (jmul TAU radius))
          else random1 (jdiv PI (Fin 2))) ;;
  angle <- random1 TAU ;;
  arcSize <- gets arcSize ;;
  magnitude <- random2 (Fin 0) (Fin (3#10)) ;;
  sign <- random0 ;;
  let speed :=
    jmul (jmul magnitude (if jlt sign (Fin (1#2)) then Fin 1 else Fin (-1)))
         (Fin (1#50)) in
  push_arc (spaceObject (Some col) None len angle (jmul radius arcSize) speed
              None false).

(** One turn of the loop that fills [planets]. *)
Definition init_planet (numPlanets : num) (i : nat) : M unit :=
  ps <- gets planets ;;
  targetCenter <- (if jgt (of_nat (length ps)) (Fin 0)
                   then r <- random0 ;; ret (jlt r (Fin (1#2)))
                   else ret false) ;;
  target <- (if targetCenter : bool
             then k <- rInt (Fin 0) (of_nat (length ps)) ;;
                  j <- of_option (array_ref ps k) ;; ret (TPlanet j)
             else ret TCenter) ;;
  tlen <- target_len target ;;
  r <- random2 (Fin (1#2)) (Fin (7#10)) ;;
  let len := jmul r tlen in
  hue <- random2 (Fin (-3#20)) (Fin (3#20)) ;;
  angle <- random1 TAU ;;
  orbit <- (if targetCenter : bool
            then r <- random1 (jdiv tlen (Fin 4)) ;;
                 ret (jadd r (jdiv (jadd len tlen) (Fin 2)))
            else radius <- gets radius ;;
                 r <- random1 (jdiv radius numPlanets) ;;
                 ret (jadd r
                        (jmul radius
                           (jadd (jmul (jdiv (of_nat i) numPlanets) (Fin (7#10)))
                                 (Fin (3#10)))))) ;;
  s <- random2 (Fin (1#5)) (Fin (1#2)) ;;
  push_planet (spaceObject None (Some hue) len angle orbit
                 (jmul s (Fin (1#200))) (Some target) true).

Definition init_star : M unit :=
  width <- gets width ;;
  x <- random1 width ;;
  height <- gets height ;;
  y <- random1 height ;;
  size <- random2 (Fin 2) (Fin 5) ;;
  h <- random2 (Fin (-1#5)) (Fin (1#5)) ;;
  baseHue <- gets baseHue ;;
  sat <- random1 (Fin (7#10)) ;;
  idx <- random1 (Fin 10000000) ;;
  speed <- random2 (Fin (1#10)) (Fin (1#100)) ;;
  push_star (mkStar x y size (jadd h baseHue) sat idx speed).

(** [(a, b) => b.len-a.len] *)
Definition by_len_desc (a b : SpaceObject) : num := jsub (o_len b) (o_len a).

Definition init : M unit :=
  modify (set_arcs []) ;;
  modify (set_planets []) ;;
  modify (set_stars []) ;;
  n <- rInt (Fin 70) (Fin 120) ;;
  modify (set_numCircles n) ;;
  modify (fun w => set_radius (jmul (jmin (width w) (height w)) (Fin (9#20))) w) ;;
  modify (fun w => set_arcSize (jdiv (radius w) (numCircles w)) w) ;;
  modify (fun w =>
    set_center (mkCenter (Fin 0) (Fin 0) (radius w) (jdiv (radius w) (Fin 2))) w) ;;
  b <- random0 ;;
  modify (set_baseHue b) ;;
  m <- random2 (Fin (1#5)) (Fin (7#10)) ;;
  s <- random0 ;;
  modify (set_hueRange (jmul m (if jlt s (Fin (1#2)) then Fin (-1) else Fin 1))) ;;
  variance <- random2 (Fin (1#20)) (Fin (2#5)) ;;
  for_range (to_nat numArcs) (fun _ => init_arc variance) ;;
  modify (fun w => set_arcs (sort by_len_desc (arcs w)) w) ;;
  numPlanets <- rInt (Fin 2) (Fin 7) ;;
  for_range (to_nat numPlanets) (init_planet numPlanets) ;;
  for_range 1000 (fun _ => init_star).

(** ** The frame renderer *)

Section Renderer.

(** The trigonometric functions and [Math.hypot]. *)
Variables cos sin : num -> num.
Variables atan2 hypot : num -> num -> num.

(** What p5's [noise(x, y)] computes from its table [perlin] and the
    coordinates. *)
Variable noise_value : list num -> num -> num -> num.

(** The first call of [noise] finds no table and fills one from
    [Math.random()]:
    [perlin = new Array(4096); for (i = 0; i < 4096; i++) perlin[i] = Math.random();] *)
Definition fill_perlin : M unit :=
  modify (set_perlin (Some [])) ;;
  for_range perlin_size (fun _ =>
    r <- random0 ;;
    modify (fun w => set_perlin (Some (default [] (perlin w) ++ [r])) w)).

(** p5's [noise(x, y)]. *)
Definition noise (x y : num) : M num :=
  p <- gets perlin ;;
  (match p with
   | None => fill_perlin
   | Some _ => ret tt
   end) ;;
  t <- gets perlin ;;
  ret (noise_value (default [] t) x y).

(** The background discs:
    [for (let i = numCircles; i >= 0; i--) { fill(..); ellipse(..); }] *)
Definition draw_rings : M unit :=
  n <- gets numCircles ;;
  for_down_to_zero n (Fin 1) (fun i =>
    numCircles <- gets numCircles ;;
    c <- colorMap (jmul (jdiv i numCircles) (Fin (9#10))) None ;;
    emit (Fill c) ;;
    arcSize <- gets arcSize ;;
    emit (Ellipse (Fin 0) (Fin 0) (jmul (jmul i arcSize) (Fin 2)) None)).

Definition draw_star (s : Star) : M unit :=
  frameCount <- gets frameCount ;;
  lum <- noise (s_idx s) (jadd (s_idx s) (jmul frameCount (s_speed s))) ;;
  emit (Stroke3 (s_hue s) (s_sat s) (jmul lum (Fin (7#10)))) ;;
  emit (Line (jsub (s_x s) (jdiv (s_size s) (Fin 2))) (s_y s)
             (jadd (s_x s) (jdiv (s_size s) (Fin 2))) (s_y s)) ;;
  emit (Line (s_x s) (jsub (s_y s) (jdiv (s_size s) (Fin 2)))
             (s_x s) (jadd (s_y s) (jdiv (s_size s) (Fin 2)))).

Definition draw_stars : M unit :=
  pushPop (
    width <- gets width ;;
    height <- gets height ;;
    emit (Translate (jdiv (jneg width) (Fin 2)) (jdiv (jneg height) (Fin 2))) ;;
    emit BlendModeAdd ;;
    for_of stars (fun _ s => draw_star s)).

(** [o.angle += o.speed], on the object stored at index [i]. *)
Definition advance (o : SpaceObject) : SpaceObject :=
  with_angle (jadd (o_angle o) (o_speed o)) o.

Definition draw_arc (i : nat) (o : SpaceObject) : M unit :=
  let o := advance o in
  modify (fun w => set_arcs (<[i := o]> (arcs w)) w) ;;
  c <- of_option (o_col o) ;;
  let '(h, s, b) := c in
  emit (Stroke4 h s b (Fin (1#2))) ;;
  emit (Arc (Fin 0) (Fin 0) (jmul (o_radius o) (Fin 2)) (jmul (o_radius o) (Fin 2))
            (o_angle o) (jadd (o_angle o) (o_len o))).

(** The stack of ellipses that shades one planet. *)
Definition draw_planet_disc (o : SpaceObject) (percent : num) (i : num) : M unit :=
  let amt := jdiv i (o_len o) in
  let amt2 :=
    jadd (jmul (jsub (Fin 1) (jpow5 amt)) percent) (jsub (Fin 1) percent) in
  c <- colorMap amt2 (o_hue o) ;;
  emit (Fill c) ;;
  emit (Ellipse
          (jsub (jadd (jdiv (jmul (jneg (o_len o)) amt) (Fin 2))
                      (jdiv (o_len o) (Fin 2)))
                (Fin 1))
          (Fin 0)
          (jmul (o_len o) amt)
          (Some (jmul (sin (jdiv (jmul amt PI) (Fin 2))) (o_len o)))).

Definition draw_planet (i : nat) (o : SpaceObject) : M unit :=
  let o := advance o in
  modify (fun w => set_planets (<[i := o]> (planets w)) w) ;;
  target <- of_option (o_target o) ;;
  tx <- target_x target ;;
  let x := jadd (jmul (cos (o_angle o)) (o_radius o)) tx in
  let o := with_x x o in
  modify (fun w => set_planets (<[i := o]> (planets w)) w) ;;
  ty <- target_y target ;;
  let y := jadd (jmul (sin (o_angle o)) (o_radius o)) ty in
  let o := with_y y o in
  modify (fun w => set_planets (<[i := o]> (planets w)) w) ;;
  pushPop (
    emit (Translate x y) ;;
    let a := atan2 y x in
    emit (Rotate a) ;;
    emit NoStroke ;;
    radius <- gets radius ;;
    let percent := jsub (Fin 1) (jmul (jdiv (hypot x y) radius) (Fin (2#5))) in
    mouseDown <- gets mouseDown ;;
    for_down_to_zero (o_len o)
      (if mouseDown : bool then jdiv (Fin 2) zoomScale else Fin 2)
      (draw_planet_disc o percent)).

Definition draw : M unit :=
  emit (Background (Fin 0)) ;;
  mouseDown <- gets mouseDown ;;
  (if mouseDown : bool then
     width <- gets width ;;
     height <- gets height ;;
     emit (Translate (jdiv width (Fin 2)) (jdiv height (Fin 2))) ;;
     emit (Scale zoomScale) ;;
     mouseX <- gets mouseX ;;
     mouseY <- gets mouseY ;;
     emit (Translate (jneg mouseX) (jneg mouseY))
   else ret tt) ;;
  pushPop (
    width <- gets width ;;
    height <- gets height ;;
    emit (Translate (jdiv width (Fin 2)) (jdiv height (Fin 2))) ;;
    emit NoStroke ;;
    draw_rings ;;
    draw_stars ;;
    emit NoFill ;;
    arcSize <- gets arcSize ;;
    emit (StrokeWeight arcSize) ;;
    for_of arcs draw_arc ;;
    for_of planets draw_planet).

End Renderer.


(** ** The event handlers *)

Definition set_mouseDown (v : bool) (w : World) : World :=
  mkWorld (width w) (height w) (frameCount w) (mouseX w) (mouseY w) (rng w)
    (rpos w) v (arcs w) (planets w) (stars w) (numCircles w) (radius w)
    (arcSize w) (center w) (baseHue w) (hueRange w) (perlin w).
Definition set_size (wd ht : num) (w : World) : World :=
  mkWorld wd ht (frameCount w) (mouseX w) (mouseY w) (rng w)
    (rpos w) (mouseDown w) (arcs w) (planets w) (stars w) (numCircles w)
    (radius w) (arcSize w) (center w) (baseHue w) (hueRange w) (perlin w).

(** [a == b] on two numbers. *)
Definition jeq (a b : num) : bool :=
  match a, b with
  | Fin p, Fin q => Qeq_bool p q
  | PInf, PInf | NInf, NInf => true
  | _, _ => false
  end.

(** [function mousePressed(evt)], as a function of [evt.button]. *)
Definition mousePressed (button : num) : M bool :=
  (if jeq button (Fin 2) then init else modify (set_mouseDown true)) ;;
  ret false.

(** [function mouseReleased()] *)
Definition mouseReleased : M unit := modify (set_mouseDown false).

Section Resize.

(** p5's [resizeCanvas], which the sketch calls and does not define. *)
Variable resizeCanvas : num -> num -> M unit.

(** [function windowResized()], as a function of the host's
    [windowWidth] and [windowHeight]. *)
Definition windowResized (windowWidth windowHeight : num) : M unit :=
  resizeCanvas windowWidth windowHeight ;; init.

(** The calls [createCanvas()] and [colorMode(HSB, 1, 1, 1)] of p5. *)
Variables createCanvas colorMode : M unit.


End Resize.

(** ** Binary rounding

    [round64] rounds a rational to the nearest number with a 53-bit
    significand, a tie going to the even significand: the rounding of
    binary64 arithmetic between its smallest normal number and its
    largest number.  The exponent range is not modelled. *)

(** [floor (log2 q)], for a positive [q]. *)
Definition ilog2 (q : Q) : Z :=
  let e := (Z.log2 (Qnum q) - Z.log2 (Zpos (Qden q)))%Z in
  if Qle_bool (2 ^ e) q then e else (e - 1)%Z.

(** The nearest whole number; a tie goes to the even one. *)
Definition round_half_even (x : Q) : Z :=
  let f := Qfloor x in
  match Qcompare (x - inject_Z f) (1 # 2) with
  | Lt => f
  | Gt => (f + 1)%Z
  | Eq => if Z.even f then f else (f + 1)%Z
  end.

Definition round64_pos (q : Q) : Q :=
  let e := ilog2 q in
  Qred (inject_Z (round_half_even (q * 2 ^ (52 - e))) * 2 ^ (e - 52)).

Definition round64 (q : Q) : Q :=
  match Qcompare q 0 with
  | Eq => 0
  | Gt => round64_pos q
  | Lt => - round64_pos (- q)
  end.

(** Half the gap between [1] and the next binary64 number; half the
    smallest positive binary64 number; the largest power of two in
    binary64. *)
Definition unit_roundoff : Q := 1 # 2 ^ 53.
Definition half_least : Q := 1 # 2 ^ 1075.
Definition largest_power : Q := inject_Z (2 ^ 1023).

(** What binary64 guarantees of a rounded result: up to [largest_power]
    in magnitude, the result is within half a unit in the last place of
    the exact value, or, below the normal range, within [half_least]. *)
Definition rounds_to_nearest (rnd : Q -> Q) : Prop :=
  forall x : Q,
    Qabs x <= largest_power ->
    Qabs (rnd x - x) <= unit_roundoff * Qabs x + half_least.

(** [(amt, hueShift) => [(baseHue+amt*hueRange+hueShift)%1, amt, 1-amt]]
    on finite numbers, the product, the two sums and the difference
    rounded by [rnd]; the remainder [% 1] of a binary64 number is a
    binary64 number, so it is not rounded. *)
Definition colorMapR (rnd : Q -> Q) (baseHue hueRange amt hueShift : Q)
    : Q * Q * Q :=
  let s := rnd (rnd (baseHue + rnd (amt * hueRange)) + hueShift) in
  (s - 1 * inject_Z (Qtrunc (s / 1)), amt, rnd (1 - amt)).

(** ** Vocabulary of the statements

    Predicates and auxiliary functions in which the properties of [init]
    and [draw] are stated; none of them is part of the sketch. *)

(** [wp m Q w]: run from [w], the computation [m] completes, and its
    result, final world and drawing calls satisfy [Q]. *)
Definition wp {A} (m : M A) (Q : A -> World -> list Op -> Prop) (w : World)
    : Prop :=
  match m w with
  | Some (a, w', ops) => Q a w' ops
  | None => False
  end.

(** The random source stays within [[0, 1)], as [Math.random] does. *)
Definition rng_ok (w : World) : Prop := forall n, 0 <= rng w n /\ rng w n < 1.

(** The order the comparator [by_len_desc] asks for. *)
Definition len_ge (a b : SpaceObject) : Prop := jge (o_len a) (o_len b) = true.

(** The length of an arc is in [[0, PI/2)]. *)
Definition in_quarter_turn (v : num) : Prop :=
  jle (Fin 0) v = true /\ jlt v (jdiv PI (Fin 2)) = true.

(** What [init_arc] stores, for [numCircles = n] and the ring thickness
    [asz]: a bucket [k] in [[0, n)], the radius [k * arcSize], a color, and
    a length that is [1/(TAU*k)] or lies in [[0, PI/2)]. *)
Definition arc_ok (n : Z) (asz : num) (o : SpaceObject) : Prop :=
  exists k : Z,
    (0 <= k < n)%Z /\
    o_radius o = jmul (Fin (inject_Z k)) asz /\
    is_Some (o_col o) /\
    (o_len o = jdiv (Fin 1) (jmul TAU (Fin (inject_Z k)))
     \/ in_quarter_turn (o_len o)).

(** The arc [o] comes from a turn of the first loop of [init] that began
    at the place [p] of the random sequence [r]: the first draw of the
    turn gives its bucket [k = floor(random() * n)], which is in [[0, n)],
    and it has the radius [k * arcSize]; the third draw of the turn
    chooses its length, the sliver [1/(TAU*k)] when that draw is below
    [0.2], and otherwise the fourth draw times [PI/2], which lies in
    [[0, PI/2)]. *)
Definition arc_drawn (r : nat -> Q) (n : Z) (asz : num) (o : SpaceObject)
    : Prop :=
  exists (p : nat) (k : Z),
    (0 <= k < n)%Z /\
    Fin (inject_Z k) = jfloor (jmul (fin (r p)) (Fin (inject_Z n))) /\
    o_radius o = jmul (Fin (inject_Z k)) asz /\
    (r (p + 2)%nat < 1 # 5 ->
       o_len o = jdiv (Fin 1) (jmul TAU (Fin (inject_Z k)))) /\
    (1 # 5 <= r (p + 2)%nat ->
       o_len o = jmul (fin (r (p + 3)%nat)) (jdiv PI (Fin 2)) /\
       in_quarter_turn (o_len o)).

(** [target.len], read off the world. *)
Definition target_len_of (w : World) (t : Target) : option num :=
  match t with
  | TCenter => Some (c_len (center w))
  | TPlanet j => o_len <$> planets w !! j
  end.

(** What [init_planet] stores when run from [w]: a target that is the
    center or a planet already in the array, and a length that is a
    share in [[1/2, 7/10]] of the target's. *)
Definition planet_ok (w : World) (p : SpaceObject) : Prop :=
  exists t tl r,
    o_target p = Some t /\
    (t = TCenter \/ exists j, t = TPlanet j /\ (j < length (planets w))%nat) /\
    target_len_of w t = Some tl /\
    (1 # 2) <= r /\ r <= (7 # 10) /\
    o_len p = jmul (Fin r) tl.

(** A finite number. *)
Definition is_fin (v : num) : Prop := exists q, v = Fin q.

(** The scalar globals [init] sets before its loops, for a run started
    from [w0] that drew [numCircles = n]. *)
Definition layout_ok (w0 : World) (n : Z) (w : World) : Prop :=
  rng w = rng w0 /\ width w = width w0 /\ height w = height w0 /\
  numCircles w = Fin (inject_Z n) /\
  radius w = jmul (jmin (width w0) (height w0)) (Fin (9 # 20)) /\
  arcSize w = jdiv (radius w) (numCircles w) /\
  center w = mkCenter (Fin 0) (Fin 0) (radius w) (jdiv (radius w) (Fin 2)).

(** Every planet orbits the center or a planet stored before it. *)
Definition targets_ok (ps : list SpaceObject) : Prop :=
  forall i p, ps !! i = Some p ->
    o_target p = Some TCenter
    \/ exists j, (j < i)%nat /\ o_target p = Some (TPlanet j).

(** What holds of the world [w] that [init] leaves when started from [w0]. *)
Definition scene_inv (w0 w : World) : Prop :=
  exists n : Z,
    (70 <= n < 120)%Z /\
    layout_ok w0 n w /\
    length (arcs w) = to_nat numArcs /\
    Forall (arc_ok n (arcSize w)) (arcs w) /\
    StronglySorted len_ge (arcs w) /\
    targets_ok (planets w) /\
    (is_fin (c_len (center w)) -> Forall (fun p => is_fin (o_len p)) (planets w)) /\
    length (stars w) = 1000%nat.

(** The body of a loop run on each value of a list in turn. *)
Fixpoint for_list {A} (l : list A) (body : A -> M unit) : M unit :=
  match l with
  | [] => ret tt
  | i :: l' => body i ;; for_list l' body
  end.

(** The first [n] values of the counter of a descending loop. *)
Fixpoint down_values (n : nat) (a s : Q) : list num :=
  match n with
  | O => []
  | S n' => Fin a :: down_values n' (Qred (a - s)) s
  end.

(** [v === Infinity] *)
Definition is_PInf (v : num) : bool :=
  match v with PInf => true | _ => false end.

(** A planet that [draw] can process: its shading loop ends, and its
    target is the center or an object of the [planets] array. *)
Definition planet_drawable (n : nat) (p : SpaceObject) : bool :=
  negb (is_PInf (o_len p)) &&
  match o_target p with
  | Some TCenter => true
  | Some (TPlanet j) => bool_decide (j < n)%nat
  | None => false
  end.

(** An arc that [draw] can process: [...o.col] has a color to spread. *)
Definition arc_drawable (o : SpaceObject) : bool :=
  match o_col o with Some _ => true | None => false end.

(** A world on which [draw] completes. *)
Definition drawable (w : World) : bool :=
  negb (is_PInf (numCircles w)) &&
  forallb arc_drawable (arcs w) &&
  forallb (planet_drawable (length (planets w))) (planets w).

(** The object [o'] is [o] one tick later: the angle has grown by the
    speed and the other fields that [init] sets are the same. *)
Definition ticked (o o' : SpaceObject) : Prop :=
  o_angle o' = jadd (o_angle o) (o_speed o) /\
  o_col o' = o_col o /\ o_hue o' = o_hue o /\ o_len o' = o_len o /\
  o_radius o' = o_radius o /\ o_speed o' = o_speed o /\
  o_target o' = o_target o /\ o_isPlanet o' = o_isPlanet o.

(** The table [noise] fills when it finds none: the next 4096 values of
    [Math.random]. *)
Definition fresh_table (w : World) : list num :=
  (fun i => fin (rng w (rpos w + i))) <$> seq 0 perlin_size.

(** The world after a call of [noise]: the table is there, drawn from
    the random source if it was not. *)
Definition noise_ready (w : World) : World :=
  match perlin w with
  | Some _ => w
  | None =>
      set_perlin (Some (fresh_table w)) (set_rpos (rpos w + perlin_size) w)
  end.

(** The world after the stars are drawn: [noise] is called once per star. *)
Definition after_stars (w : World) : World :=
  match stars w with
  | [] => w
  | _ :: _ => noise_ready w
  end.

(** The world [w'] is [w] one tick later: besides the arcs and the
    planets, the tick changes nothing but what the first call of [noise]
    changes. *)
Definition tick_effect (w w' : World) : Prop :=
  Forall2 ticked (arcs w) (arcs w') /\
  Forall2 ticked (planets w) (planets w') /\
  stars w' = stars w /\
  w' = set_planets (planets w') (set_arcs (arcs w') (after_stars w)).

(** The world [w] with another random source. *)
Definition set_rng (r : nat -> Q) (p : nat) (w : World) : World :=
  mkWorld (width w) (height w) (frameCount w) (mouseX w) (mouseY w) r p
    (mouseDown w) (arcs w) (planets w) (stars w) (numCircles w) (radius w)
    (arcSize w) (center w) (baseHue w) (hueRange w) (perlin w).

(** Two worlds with the same scene, frame counter, pointer and canvas,
    whatever their random sources are. *)
Definition same_inputs (w1 w2 : World) : Prop :=
  arcs w1 = arcs w2 /\ planets w1 = planets w2 /\ stars w1 = stars w2 /\
  numCircles w1 = numCircles w2 /\ radius w1 = radius w2 /\
  arcSize w1 = arcSize w2 /\ center w1 = center w2 /\
  baseHue w1 = baseHue w2 /\ hueRange w1 = hueRange w2 /\
  frameCount w1 = frameCount w2 /\
  mouseDown w1 = mouseDown w2 /\ mouseX w1 = mouseX w2 /\ mouseY w1 = mouseY w2 /\
  width w1 = width w2 /\ height w1 = height w2.

(** A computation that, once the table of [noise] is there, runs the
    same way whatever the random source is, hands the source on as it
    found it, and leaves a table in place. *)
Definition rng_blind {A} (m : M A) : Prop :=
  forall r p w,
    is_Some (perlin w) ->
    m (set_rng r p w)
    = match m w with
      | Some (a, w', ops) => Some (a, set_rng r p w', ops)
      | None => None
      end
    /\ forall a w' ops, m w = Some (a, w', ops) -> is_Some (perlin w').

(** The world before the first [init], on a canvas of the given size and
    with the given random source. *)
Definition blank (w h : num) (r : nat -> Q) : World :=
  mkWorld w h (Fin 0) (Fin 0) (Fin 0) r 0 false [] [] []
    (Fin 0) (Fin 0) (Fin 0) (mkCenter (Fin 0) (Fin 0) (Fin 0) (Fin 0))
    (Fin 0) (Fin 0) None.

(** The scene [init] generates from a world. *)
Definition scene_of (w : World) : World :=
  match init w with
  | Some (_, w', _) => w'
  | None => w
  end.

(** The worlds before [init] on a canvas of 800 by 600 in which every
    draw of [Math.random] is [1/100], and in which every draw is [1/10]. *)
Definition blank_hundredth : World :=
  blank (Fin 800) (Fin 600) (fun _ => 1 # 100).
Definition blank_tenth : World := blank (Fin 800) (Fin 600) (fun _ => 1 # 10).

(** Stand-ins for the host's functions, to run [draw] on a scene. *)
Definition flat1 (_ : num) : num := Fin (1 # 2).
Definition flat2 (_ _ : num) : num := Fin (1 # 2).

(** A stand-in for the value of [noise]: the first entry of the table. *)
Definition table_head (t : list num) (_ _ : num) : num :=
  default (Fin 0) (head t).

(** The first component of the triple [colorMap] returns. *)
Definition hue_of (c : num * num * num) : num := c.1.1.

(** Following [target] links for at most [fuel] hops ends at the center. *)
Fixpoint reaches_center (ps : list SpaceObject) (fuel : nat)
    (t : option Target) : bool :=
  match t with
  | Some TCenter => true
  | Some (TPlanet j) =>
      match fuel with
      | O => false
      | S fuel' =>
          match ps !! j with
          | Some p => reaches_center ps fuel' (o_target p)
          | None => false
          end
      end
  | None => false
  end.

(** The calls of one turn of the background loop of [draw]. *)
Definition ring_ops (w : World) (i : num) : list Op :=
  [Fill (colorMapAt (baseHue w) (hueRange w)
           (jmul (jdiv i (numCircles w)) (Fin (9 # 10))) None);
   Ellipse (Fin 0) (Fin 0) (jmul (jmul i (arcSize w)) (Fin 2)) None].

(** [n, n-1, ..., 0] *)
Fixpoint countdown (n : nat) : list nat :=
  match n with
  | O => [O]
  | S m => S m :: countdown m
  end.

(** The call is an [ellipse]. *)
Definition is_ellipse (o : Op) : bool :=
  match o with Ellipse _ _ _ _ => true | _ => false end.

(** How many ellipses the background loop draws. *)
Definition rings_drawn (w : World) : option nat :=
  match draw_rings w with
  | Some (_, _, ops) => Some (length (List.filter is_ellipse ops))
  | None => None
  end.

(** [d == 0] *)
Definition is_zero (d : num) : bool :=
  match d with
  | Fin q => Qeq_bool q 0
  | _ => false
  end.

(** The discs that a list of calls paints, each with its color and its
    diameter: one for every [fill(c)] followed by an [ellipse(x, y, d)]
    whose diameter is not 0. *)
Fixpoint discs_painted (ops : list Op) : list ((num * num * num) * num) :=
  match ops with
  | [] => []
  | Fill c :: rest =>
      match rest with
      | Ellipse _ _ d None :: _ =>
          if is_zero d then discs_painted rest else (c, d) :: discs_painted rest
      | _ => discs_painted rest
      end
  | _ :: rest => discs_painted rest
  end.

(** The ring that the background loop paints at index [i]: the palette
    color at progress [(i/numCircles) * 0.9], on a disc of diameter
    [i * arcSize * 2]. *)
Definition ring_disc (w : World) (i : nat) : (num * num * num) * num :=
  (colorMapAt (baseHue w) (hueRange w)
     (jmul (jdiv (of_nat i) (numCircles w)) (Fin (9 # 10))) None,
   jmul (jmul (of_nat i) (arcSize w)) (Fin 2)).

(** The second half of claim C1, as a statement about [init] run from
    [w0]: every arc of the scene has a finite length that is not
    negative. *)
Definition arc_lengths_finite (w0 : World) : Prop :=
  forall w ops o,
    init w0 = Some (tt, w, ops) -> o ∈ arcs w ->
    exists q, o_len o = Fin q /\ 0 <= q.

(** A small hand-made world, and the same world with another random source. *)
Definition small_world : World :=
  mkWorld (Fin 800) (Fin 600) (Fin 7) (Fin 10) (Fin 20) (fun _ => 1 # 10) 0 true
    [spaceObject (Some (Fin (1 # 2), Fin (1 # 4), Fin (3 # 4))) None (Fin 1)
       (Fin 0) (Fin 30) (Fin (1 # 100)) None false]
    [spaceObject None (Some (Fin (1 # 10))) (Fin 5) (Fin 0) (Fin 100)
       (Fin (1 # 500)) (Some TCenter) true;
     spaceObject None (Some (Fin (-1 # 10))) (Fin 3) (Fin 1) (Fin 8)
       (Fin (1 # 400)) (Some (TPlanet 0)) true]
    [mkStar (Fin 5) (Fin 6) (Fin 2) (Fin (1 # 5)) (Fin (1 # 2)) (Fin 1000)
       (Fin (1 # 50))]
    (Fin 4) (Fin 270) (Fin (135 # 2))
    (mkCenter (Fin 0) (Fin 0) (Fin 270) (Fin 135)) (Fin (1 # 10)) (Fin (-1 # 4))
    None.

(** [small_world] on a page where [noise] has been called before. *)
Definition warm_world : World := noise_ready small_world.

(** The arguments of the [stroke(h, s, b)] calls of a run. *)
Definition stroke3_calls (r : option (unit * World * list Op))
    : option (list (num * num * num)) :=
  match r with
  | Some (_, _, ops) =>
      Some (omap (fun o => match o with
                           | Stroke3 h s b => Some (h, s, b)
                           | _ => None
                           end) ops)
  | None => None
  end.

(** The place in the random sequence that a run leaves. *)
Definition rpos_after (r : option (unit * World * list Op)) : option nat :=
  match r with
  | Some (_, w, _) => Some (rpos w)
  | None => None
  end.

(** Claim C10 of two runs of [draw], started from [w1] and [w2]: the
    same calls, worlds that agree again, and no use of a random source. *)
Definition same_frame (w1 w2 : World)
    (r1 r2 : option (unit * World * list Op)) : Prop :=
  match r1, r2 with
  | Some (_, w1', ops1), Some (_, w2', ops2) =>
      ops1 = ops2 /\ same_inputs w1' w2' /\
      rpos w1' = rpos w1 /\ rpos w2' = rpos w2
  | None, None => True
  | _, _ => False
  end.

(** The number [v] is finite and has the value [q]. *)
Definition num_is (v : num) (q : Q) : Prop := exists q', v = Fin q' /\ q' == q.

(** The palette globals [init] draws: a base hue in [[0, 1)] and a hue
    range of magnitude in [[1/5, 7/10)], of either sign. *)
Definition palette_ok (w : World) : Prop :=
  (exists b, baseHue w = Fin b /\ 0 <= b /\ b < 1) /\
  (exists h, hueRange w = Fin h /\
     ((1 # 5) <= h /\ h < (7 # 10) \/ - (7 # 10) < h /\ h <= - (1 # 5))).

(** An angle drawn by [random(TAU)]. *)
Definition in_turn (v : num) : Prop :=
  exists a, v = Fin a /\ 0 <= a /\ jlt (Fin a) TAU = true.

(** The fields of an arc as [init] stores them, for the palette globals
    [bh] and [hr]. *)
Definition arc_fields (bh hr : num) (o : SpaceObject) : Prop :=
  o_isPlanet o = false /\ o_hue o = None /\ o_target o = None /\
  o_x o = None /\ o_y o = None /\
  (exists s, 0 <= s /\ s <= 1 /\
     o_col o = Some (colorMapAt bh hr (Fin s) None)) /\
  in_turn (o_angle o) /\
  (exists v, o_speed o = Fin v /\ - (3 # 500) < v /\ v < (3 # 500)).

(** The fields of a planet that do not depend on its target. *)
Definition planet_fields (p : SpaceObject) : Prop :=
  o_isPlanet p = true /\ o_col p = None /\ o_x p = None /\ o_y p = None /\
  (exists h, o_hue p = Some (Fin h) /\ - (3 # 20) <= h /\ h < (3 # 20)) /\
  in_turn (o_angle p) /\
  (exists v, o_speed p = Fin v /\ (1 # 1000) <= v /\ v < (1 # 400)).

(** The orbit radius [init] gives to planet number [i] of [numPlanets],
    for the share [r0] drawn by [random]. *)
Definition orbit_of (w : World) (numPlanets : num) (i : nat) (t : Target)
    (len tlen r0 : num) : num :=
  match t with
  | TCenter =>
      jadd (jmul r0 (jdiv (radius w) numPlanets))
           (jmul (radius w)
              (jadd (jmul (jdiv (of_nat i) numPlanets) (Fin (7 # 10)))
                    (Fin (3 # 10))))
  | TPlanet _ =>
      jadd (jmul r0 (jdiv tlen (Fin 4))) (jdiv (jadd len tlen) (Fin 2))
  end.

(** What [init_planet numPlanets i] stores when run from [w]. *)
Definition planet_made (numPlanets : num) (i : nat) (w : World)
    (p : SpaceObject) : Prop :=
  planet_fields p /\
  exists t tl r r0,
    o_target p = Some t /\
    (t = TCenter \/ exists j, t = TPlanet j /\ (j < length (planets w))%nat) /\
    target_len_of w t = Some tl /\
    (1 # 2) <= r /\ r < (7 # 10) /\
    o_len p = jmul (Fin r) tl /\
    0 <= r0 /\ r0 < 1 /\
    o_radius p = orbit_of w numPlanets i t (o_len p) tl (Fin r0).

(** Sizes of a planet on a scene of radius [R]: a length between half
    and seven tenths of its target's, and an orbit radius that is
    positive, and at least [3/10] of [R] around the center. *)
Definition planet_sized (w : World) (R : Q) (p : SpaceObject) : Prop :=
  exists t tl l rho,
    o_target p = Some t /\
    target_len_of w t = Some (Fin tl) /\ 0 < tl /\
    o_len p = Fin l /\ tl * (1 # 2) <= l /\ l < tl * (7 # 10) /\
    o_radius p = Fin rho /\ 0 < rho /\
    (t = TCenter -> R * (3 # 10) <= rho).

(** The fields of a star that do not depend on the canvas. *)
Definition star_fields (b : Q) (s : Star) : Prop :=
  (exists v, s_size s = Fin v /\ 2 <= v /\ v < 5) /\
  (exists v, s_hue s = Fin v /\ b - (1 # 5) <= v /\ v < b + (1 # 5)) /\
  (exists v, s_sat s = Fin v /\ 0 <= v /\ v < (7 # 10)) /\
  (exists v, s_idx s = Fin v /\ 0 <= v /\ v < 10000000) /\
  (exists v, s_speed s = Fin v /\ (1 # 100) <= v /\ v < (1 # 10)).

(** A star lies on a canvas of [W] by [H]. *)
Definition star_on_canvas (W H : Q) (s : Star) : Prop :=
  (exists v, s_x s = Fin v /\ 0 <= v /\ v < W) /\
  (exists v, s_y s = Fin v /\ 0 <= v /\ v < H).

(** What the host provides, and [mouseDown], are the same in two worlds. *)
Definition host_same (w0 w : World) : Prop :=
  width w = width w0 /\ height w = height w0 /\
  frameCount w = frameCount w0 /\ mouseX w = mouseX w0 /\
  mouseY w = mouseY w0 /\ rng w = rng w0 /\ mouseDown w = mouseDown w0 /\
  perlin w = perlin w0.

(** A canvas with finite, positive sides [W] and [H]. *)
Definition canvas_is (w : World) (W H : Q) : Prop :=
  width w = Fin W /\ 0 < W /\ height w = Fin H /\ 0 < H.

(** More of what holds of the world [w] that [init] leaves when started
    from [w0]. *)
Definition scene_fields (w0 w : World) : Prop :=
  host_same w0 w /\
  palette_ok w /\
  Forall (arc_fields (baseHue w) (hueRange w)) (arcs w) /\
  (2 <= length (planets w) < 7)%nat /\
  Forall planet_fields (planets w) /\
  (forall b, baseHue w = Fin b -> Forall (star_fields b) (stars w)) /\
  (forall W H, canvas_is w0 W H ->
     exists R, radius w = Fin R /\
       (W <= H /\ R == W * (9 # 20) \/ H <= W /\ R == H * (9 # 20)) /\
       Forall (planet_sized w R) (planets w) /\
       Forall (star_on_canvas W H) (stars w)).

(** The start of [init], up to the draw of [variance], which it returns. *)
Definition init_globals : M num :=
  modify (set_arcs []) ;;
  modify (set_planets []) ;;
  modify (set_stars []) ;;
  n <- rInt (Fin 70) (Fin 120) ;;
  modify (set_numCircles n) ;;
  modify (fun w => set_radius (jmul (jmin (width w) (height w)) (Fin (9#20))) w) ;;
  modify (fun w => set_arcSize (jdiv (radius w) (numCircles w)) w) ;;
  modify (fun w =>
    set_center (mkCenter (Fin 0) (Fin 0) (radius w) (jdiv (radius w) (Fin 2))) w) ;;
  b <- random0 ;;
  modify (set_baseHue b) ;;
  m <- random2 (Fin (1#5)) (Fin (7#10)) ;;
  s <- random0 ;;
  modify (set_hueRange (jmul m (if jlt s (Fin (1#2)) then Fin (-1) else Fin 1))) ;;
  random2 (Fin (1#20)) (Fin (2#5)).

(** The rest of [init]: its three loops and the sort. *)
Definition init_loops (variance : num) : M unit :=
  for_range (to_nat numArcs) (fun _ => init_arc variance) ;;
  modify (fun w => set_arcs (sort by_len_desc (arcs w)) w) ;;
  numPlanets <- rInt (Fin 2) (Fin 7) ;;
  for_range (to_nat numPlanets) (init_planet numPlanets) ;;
  for_range 1000 (fun _ => init_star).

(** [init] up to the end of the loop that fills [arcs], and from the
    sort on. *)
Definition init_arcs : M unit :=
  variance <- init_globals ;;
  for_range (to_nat numArcs) (fun _ => init_arc variance).

Definition init_rest : M unit :=
  modify (fun w => set_arcs (sort by_len_desc (arcs w)) w) ;;
  numPlanets <- rInt (Fin 2) (Fin 7) ;;
  for_range (to_nat numPlanets) (init_planet numPlanets) ;;
  for_range 1000 (fun _ => init_star).

(** The arcs as the loop of [init] pushed them, before the sort. *)
Definition arcs_before_sort (w0 : World) : list SpaceObject :=
  match init_arcs w0 with
  | Some (_, w, _) => arcs w
  | None => []
  end.

(** A random source that cycles through [0, 1/5, 2/5, 3/5, 4/5], and the
    world before [init] on a canvas of 800 by 600 with that source. *)
Definition cycling (n : nat) : Q := (Z.of_nat n mod 5)%Z # 5.
Definition blank_cycling : World := blank (Fin 800) (Fin 600) cycling.

(** A [resizeCanvas] that only sets the canvas size. *)
Definition resize_only (wd ht : num) : M unit := modify (set_size wd ht).

(** The planets from index [i] on have targets stored before them. *)
Fixpoint targets_before (i : nat) (ps : list SpaceObject) : bool :=
  match ps with
  | [] => true
  | p :: rest =>
      match o_target p with
      | Some TCenter => true
      | Some (TPlanet j) => bool_decide (j < i)%nat
      | None => false
      end && targets_before (S i) rest
  end.

(** Every planet orbits the center or a planet stored before it (the
    order in which [init] stores them), as a test. *)
Definition targets_earlier (w : World) : bool := targets_before 0 (planets w).

(** The values the counter of [for (i = start; i >= 0; i -= step)] takes. *)
Definition loop_values (start step : num) : list num :=
  match start, step with
  | Fin a, Fin s =>
      if Qle_bool 0 a then down_values (S (Z.to_nat (Qfloor (a / s)))) a s
      else []
  | _, _ => []
  end.

(** The step of the shading loop: [mouseDown ? 2/zoomScale : 2]. *)
Definition disc_step (w : World) : num :=
  if mouseDown w then jdiv (Fin 2) zoomScale else Fin 2.

(** Where a target is: [(target.x, target.y)]. *)
Definition target_pos (w : World) (t : Target) : option (num * num) :=
  match t with
  | TCenter => Some (c_x (center w), c_y (center w))
  | TPlanet j =>
      match planets w !! j with
      | Some q => Some (to_num (o_x q), to_num (o_y q))
      | None => None
      end
  end.

(** The calls that stroke one arc. *)
Definition arc_calls (o : SpaceObject) : list Op :=
  match o_col o with
  | Some (h, s, b) =>
      [Stroke4 h s b (Fin (1 # 2));
       Arc (Fin 0) (Fin 0) (jmul (o_radius o) (Fin 2)) (jmul (o_radius o) (Fin 2))
           (o_angle o) (jadd (o_angle o) (o_len o))]
  | None => []
  end.

(** The transform [draw] starts with while the pointer is pressed. *)
Definition zoom_calls (w : World) : list Op :=
  if mouseDown w
  then [Translate (jdiv (width w) (Fin 2)) (jdiv (height w) (Fin 2));
        Scale zoomScale;
        Translate (jneg (mouseX w)) (jneg (mouseY w))]
  else [].

(** The depth of the transform stack after the calls [ops], started at
    depth [d]; [None] when a [pop] finds the stack at depth 0. *)
Fixpoint stack_depth (d : nat) (ops : list Op) : option nat :=
  match ops with
  | [] => Some d
  | Push :: rest => stack_depth (S d) rest
  | Pop :: rest =>
      match d with
      | O => None
      | S d' => stack_depth d' rest
      end
  | _ :: rest => stack_depth d rest
  end.

(** [n] calls of a step that may not complete. *)
Fixpoint repeat_step (step : World -> option World) (n : nat) (w : World)
    : option World :=
  match n with
  | O => Some w
  | S n' =>
      match step w with
      | Some w' => repeat_step step n' w'
      | None => None
      end
  end.

(** How often the body of [for (i = start; i >= 0; i -= step)] runs:
    [floor(start/step) + 1] times from a start that is not negative, and
    not at all from a negative start, [NaN] or [-Infinity]. *)
Definition turns (start step : num) : nat :=
  match start, step with
  | Fin a, Fin s => if Qle_bool 0 a then S (Z.to_nat (Qfloor (a / s))) else O
  | _, _ => O
  end.

(** How many of the calls are [ellipse] calls. *)
Definition count_ellipses (ops : list Op) : nat :=
  length (List.filter is_ellipse ops).

(** The object [o'] is [o] after [n] ticks: the speed is the same, and
    it has been added to the angle [n] times, one addition after the
    other. *)
Definition angles_after (n : nat) (o o' : SpaceObject) : Prop :=
  o_speed o' = o_speed o /\
  o_angle o' = Nat.iter n (fun a => jadd a (o_speed o)) (o_angle o).

(** The values the counter of [for (i = start; i >= 0; i -= step)]
    takes, told by the test and the decrement of the loop itself. *)
Inductive counts_down (step : num) : num -> list num -> Prop :=
| counts_done i : jge i (Fin 0) = false -> counts_down step i []
| counts_turn i vs :
    jge i (Fin 0) = true -> counts_down step (jsub i step) vs ->
    counts_down step i (i :: vs).

(** The starts of the descending loops of [draw] are at most [2^52]:
    up to there a binary64 counter moves at every decrement of the
    sketch. *)
Definition loops_modest (w : World) : bool :=
  jle (numCircles w) (Fin (inject_Z (2 ^ 52))) &&
  forallb (fun p => jle (o_len p) (Fin (inject_Z (2 ^ 52)))) (planets w).

Section FrameCalls.

Variables cos sin : num -> num.
Variables atan2 hypot : num -> num -> num.
Variable noise_value : list num -> num -> num -> num.

(** The two calls of one turn of the shading loop of a planet. *)
Definition disc_calls (w : World) (o : SpaceObject) (percent i : num)
    : list Op :=
  let amt := jdiv i (o_len o) in
  let amt2 :=
    jadd (jmul (jsub (Fin 1) (jpow5 amt)) percent) (jsub (Fin 1) percent) in
  [Fill (colorMapAt (baseHue w) (hueRange w) amt2 (o_hue o));
   Ellipse
     (jsub (jadd (jdiv (jmul (jneg (o_len o)) amt) (Fin 2))
                 (jdiv (o_len o) (Fin 2)))
           (Fin 1))
     (Fin 0)
     (jmul (o_len o) amt)
     (Some (jmul (sin (jdiv (jmul amt PI) (Fin 2))) (o_len o)))].

(** The calls that draw a planet at the position stored in it. *)
Definition planet_calls (w : World) (p : SpaceObject) : list Op :=
  let x := to_num (o_x p) in
  let y := to_num (o_y p) in
  let percent :=
    jsub (Fin 1) (jmul (jdiv (hypot x y) (radius w)) (Fin (2 # 5))) in
  [Push; Translate x y; Rotate (atan2 y x); NoStroke]
  ++ concat (map (disc_calls w p percent) (loop_values (o_len p) (disc_step w)))
  ++ [Pop].

(** The three calls that draw a star. *)
Definition star_calls (w : World) (s : Star) : list Op :=
  [Stroke3 (s_hue s) (s_sat s)
     (jmul (noise_value (default [] (perlin w)) (s_idx s)
              (jadd (s_idx s) (jmul (frameCount w) (s_speed s))))
           (Fin (7 # 10)));
   Line (jsub (s_x s) (jdiv (s_size s) (Fin 2))) (s_y s)
        (jadd (s_x s) (jdiv (s_size s) (Fin 2))) (s_y s);
   Line (s_x s) (jsub (s_y s) (jdiv (s_size s) (Fin 2)))
        (s_x s) (jadd (s_y s) (jdiv (s_size s) (Fin 2)))].

(** All the calls of a tick, read off the world the tick leaves. *)
Definition frame_calls (w : World) : list Op :=
  Background (Fin 0) :: zoom_calls w
  ++ [Push; Translate (jdiv (width w) (Fin 2)) (jdiv (height w) (Fin 2)); NoStroke]
  ++ concat (map (ring_ops w) (loop_values (numCircles w) (Fin 1)))
  ++ [Push;
      Translate (jdiv (jneg (width w)) (Fin 2)) (jdiv (jneg (height w)) (Fin 2));
      BlendModeAdd]
  ++ concat (map (star_calls w) (stars w))
  ++ [Pop; NoFill; StrokeWeight (arcSize w)]
  ++ concat (map arc_calls (arcs w))
  ++ concat (map (planet_calls w) (planets w))
  ++ [Pop].

(** The calls that draw a planet, for the counter values [ds] of its
    shading loop. *)
Definition planet_calls_at (w : World) (p : SpaceObject) (ds : list num)
    : list Op :=
  let x := to_num (o_x p) in
  let y := to_num (o_y p) in
  let percent :=
    jsub (Fin 1) (jmul (jdiv (hypot x y) (radius w)) (Fin (2 # 5))) in
  [Push; Translate x y; Rotate (atan2 y x); NoStroke]
  ++ concat (map (disc_calls w p percent) ds)
  ++ [Pop].

(** All the calls of a tick, for the counter values [rs] of the
    background loop and [dss] of the shading loops of the planets. *)
Definition frame_calls_at (w : World) (rs : list num) (dss : list (list num))
    : list Op :=
  Background (Fin 0) :: zoom_calls w
  ++ [Push; Translate (jdiv (width w) (Fin 2)) (jdiv (height w) (Fin 2)); NoStroke]
  ++ concat (map (ring_ops w) rs)
  ++ [Push;
      Translate (jdiv (jneg (width w)) (Fin 2)) (jdiv (jneg (height w)) (Fin 2));
      BlendModeAdd]
  ++ concat (map (star_calls w) (stars w))
  ++ [Pop; NoFill; StrokeWeight (arcSize w)]
  ++ concat (map arc_calls (arcs w))
  ++ concat (zip_with (planet_calls_at w) (planets w) dss)
  ++ [Pop].

(** The planet [o] one tick later, on its orbit around a target that is
    at [(tx, ty)]. *)
Definition put_on_orbit (tx ty : num) (o : SpaceObject) : SpaceObject :=
  let o := advance o in
  with_y (jadd (jmul (sin (o_angle o)) (o_radius o)) ty)
    (with_x (jadd (jmul (cos (o_angle o)) (o_radius o)) tx) o).

(** A planet is where its angle puts it on its orbit around the place
    its target has in [w]. *)
Definition placed (w : World) (p : SpaceObject) : Prop :=
  exists t tx ty,
    o_target p = Some t /\ target_pos w t = Some (tx, ty) /\
    o_x p = Some (jadd (jmul (cos (o_angle p)) (o_radius p)) tx) /\
    o_y p = Some (jadd (jmul (sin (o_angle p)) (o_radius p)) ty).

(** One tick, as a step from world to world. *)
Definition tick (w : World) : option World :=
  match draw cos sin atan2 hypot noise_value w with
  | Some (_, w', _) => Some w'
  | None => None
  end.

End FrameCalls.

(** ** Reasoning about computations *)

Lemma wp_run {A} (m : M A) Q w :
  wp m Q w <-> exists a w' ops, m w = Some (a, w', ops) /\ Q a w' ops.
Proof.
  unfold wp. split.
  - destruct (m w) as [[[a w'] ops]|]; [eauto 6 | tauto].
  - intros (a & w' & ops & -> & HQ). exact HQ.
Qed.

Lemma wp_mono {A} (m : M A) (Q Q' : A -> World -> list Op -> Prop) w :
  wp m Q w -> (forall a w' ops, Q a w' ops -> Q' a w' ops) -> wp m Q' w.
Proof.
  unfold wp. destruct (m w) as [[[a w'] ops]|]; [eauto | tauto].
Qed.

Lemma wp_ret {A} (a : A) Q w : wp (ret a) Q w <-> Q a w [].
Proof. reflexivity. Qed.

Lemma wp_bind {A B} (m : M A) (f : A -> M B) Q w :
  wp (bind m f) Q w <->
  wp m (fun a w1 o1 => wp (f a) (fun b w2 o2 => Q b w2 (o1 ++ o2)) w1) w.
Proof.
  unfold wp, bind. destruct (m w) as [[[a w1] o1]|]; [|tauto].
  destruct (f a w1) as [[[b w2] o2]|]; tauto.
Qed.

Lemma wp_gets {A} (f : World -> A) Q w : wp (gets f) Q w <-> Q (f w) w [].
Proof. reflexivity. Qed.

Lemma wp_modify (f : World -> World) Q w : wp (modify f) Q w <-> Q tt (f w) [].
Proof. reflexivity. Qed.

Lemma wp_emit (o : Op) Q w : wp (emit o) Q w <-> Q tt w [o].
Proof. reflexivity. Qed.

Lemma wp_of_option {A} (o : option A) Q w :
  wp (of_option o) Q w <-> exists a, o = Some a /\ Q a w [].
Proof.
  destruct o as [a|]; unfold wp; simpl.
  - split; [eauto | intros (a' & [= <-] & H); exact H].
  - split; [tauto | intros (a' & [=] & _)].
Qed.

Lemma wp_eq {A} (m : M A) w (r : A * World * list Op) :
  wp m (fun a w' ops => (a, w', ops) = r) w -> m w = Some r.
Proof.
  unfold wp. destruct (m w) as [[[a w'] ops]|]; [intros ->; reflexivity | tauto].
Qed.

Lemma wp_of_eq {A} (m : M A) w a w' ops (Q : A -> World -> list Op -> Prop) :
  m w = Some (a, w', ops) -> Q a w' ops -> wp m Q w.
Proof. intros E HQ. unfold wp. rewrite E. exact HQ. Qed.

Lemma wp_random0 Q w :
  wp random0 Q w <-> Q (fin (rng w (rpos w))) (set_rpos (S (rpos w)) w) [].
Proof. reflexivity. Qed.

(** Loops with an invariant that may mention the calls issued so far. *)
Lemma wp_for_from (I : nat -> World -> list Op -> Prop) body n :
  forall i w ops0,
    I i w ops0 ->
    (forall j w' ops, (i <= j < i + n)%nat -> I j w' ops ->
       wp (body j) (fun _ w'' o => I (S j) w'' (ops ++ o)) w') ->
    wp (for_from i n body) (fun _ w' o => I (i + n)%nat w' (ops0 ++ o)) w.
Proof.
  induction n as [|n IH]; intros i w ops0 HI Hbody; simpl.
  - apply wp_ret. rewrite Nat.add_0_r, app_nil_r. exact HI.
  - apply wp_bind. eapply wp_mono; [apply (Hbody i w ops0); [lia | exact HI] |].
    intros [] w1 o1 H1. simpl in H1.
    eapply wp_mono; [apply (IH (S i) w1 (ops0 ++ o1) H1) |].
    + intros j w' ops Hj. apply Hbody. lia.
    + intros [] w2 o2. simpl. rewrite <- app_assoc, Nat.add_succ_r. auto.
Qed.

Lemma wp_for_range (I : nat -> World -> list Op -> Prop) body n w :
  I O w [] ->
  (forall j w' ops, (j < n)%nat -> I j w' ops ->
     wp (body j) (fun _ w'' o => I (S j) w'' (ops ++ o)) w') ->
  wp (for_range n body) (fun _ w' o => I n w' o) w.
Proof.
  intros HI Hbody. unfold for_range.
  eapply wp_mono; [apply (wp_for_from I body n 0%nat w [] HI) |].
  - intros j w' ops Hj. apply Hbody. lia.
  - intros [] w' ops. simpl. auto.
Qed.

(** ** Facts about numbers *)

Lemma Qltb_lt (a b : Q) : Qltb a b = true <-> a < b.
Proof.
  unfold Qltb. rewrite negb_true_iff, <- not_true_iff_false, Qle_bool_iff.
  split; [apply Qnot_le_lt | apply Qlt_not_le].
Qed.

Lemma Qltb_ge (a b : Q) : Qltb a b = false <-> b <= a.
Proof.
  unfold Qltb. rewrite negb_false_iff. apply Qle_bool_iff.
Qed.

Lemma jle_fin (a b : Q) : jle (Fin a) (Fin b) = true <-> a <= b.
Proof. apply Qle_bool_iff. Qed.

Lemma jlt_fin (a b : Q) : jlt (Fin a) (Fin b) = true <-> a < b.
Proof. apply Qltb_lt. Qed.

Lemma Qeq_bool_false (a b : Q) : ~ a == b -> Qeq_bool a b = false.
Proof.
  intros H. apply not_true_iff_false. intros E. apply H, Qeq_bool_iff, E.
Qed.

Lemma Qeq_bool_true (a b : Q) : a == b -> Qeq_bool a b = true.
Proof. apply Qeq_bool_iff. Qed.

Lemma wp_random0_ok Q w :
  rng_ok w ->
  (forall q, 0 <= q -> q < 1 -> Q (Fin q) (set_rpos (S (rpos w)) w) []) ->
  wp random0 Q w.
Proof.
  intros Hr HQ. apply wp_random0. unfold fin.
  destruct (Hr (rpos w)). apply HQ; rewrite Qred_correct; assumption.
Qed.

Lemma wp_random1_any hi (Q : num -> World -> list Op -> Prop) w :
  (forall v, Q v (set_rpos (S (rpos w)) w) []) -> wp (random1 hi) Q w.
Proof. intros HQ. unfold random1. apply wp_bind, wp_random0, wp_ret, HQ. Qed.

Lemma wp_random2_any lo hi (Q : num -> World -> list Op -> Prop) w :
  (forall v, Q v (set_rpos (S (rpos w)) w) []) -> wp (random2 lo hi) Q w.
Proof.
  intros HQ. unfold random2. apply wp_bind, wp_random0.
  destruct (jgt lo hi); apply wp_ret, HQ.
Qed.

Lemma wp_random1_fin (h : Q) Q w :
  rng_ok w -> 0 <= h ->
  (forall r, 0 <= r -> r <= h -> (0 < h -> r < h) ->
     Q (Fin r) (set_rpos (S (rpos w)) w) []) ->
  wp (random1 (Fin h)) Q w.
Proof.
  intros Hr Hh HQ. unfold random1. apply wp_bind, wp_random0_ok; [exact Hr|].
  intros q Hq0 Hq1. apply wp_ret. simpl. unfold fin.
  apply HQ; rewrite Qred_correct; [nra | nra |].
  intros Hpos. nra.
Qed.

Lemma wp_random2_fin (lo hi : Q) Q w :
  rng_ok w -> lo <= hi ->
  (forall r, lo <= r -> r <= hi -> (lo < hi -> r < hi) ->
     Q (Fin r) (set_rpos (S (rpos w)) w) []) ->
  wp (random2 (Fin lo) (Fin hi)) Q w.
Proof.
  intros Hr Hle HQ. unfold random2. apply wp_bind, wp_random0_ok; [exact Hr|].
  intros q Hq0 Hq1.
  assert (E : jgt (Fin lo) (Fin hi) = false) by (apply Qltb_ge; exact Hle).
  rewrite E. apply wp_ret. simpl. unfold fin.
  apply HQ; rewrite Qred_correct, Qred_correct, Qred_correct; [nra | nra |].
  intros Hlt. nra.
Qed.

Lemma wp_rInt (b a : Z) Q w :
  rng_ok w -> (Z.min a b < Z.max a b)%Z ->
  (forall k, (Z.min a b <= k < Z.max a b)%Z ->
     Q (Fin (inject_Z k)) (set_rpos (S (rpos w)) w) []) ->
  wp (rInt (Fin (inject_Z b)) (Fin (inject_Z a))) Q w.
Proof.
  intros Hr Hlt HQ. unfold rInt. apply wp_bind.
  assert (E : jmin (Fin (inject_Z a)) (Fin (inject_Z b)) = Fin (inject_Z (Z.min a b))
              /\ jmax (Fin (inject_Z a)) (Fin (inject_Z b))
                 = Fin (inject_Z (Z.max a b))).
  { unfold jmin, jmax. destruct (jle (Fin (inject_Z a)) (Fin (inject_Z b))) eqn:E.
    - apply jle_fin in E. rewrite <- Zle_Qle in E.
      rewrite Z.min_l, Z.max_r by lia. auto.
    - apply not_true_iff_false in E. rewrite jle_fin, <- Zle_Qle in E.
      rewrite Z.min_r, Z.max_l by lia. auto. }
  destruct E as [-> ->].
  apply wp_random2_fin; [exact Hr | rewrite <- Zle_Qle; lia |].
  intros r Hlo Hhi Hstrict. apply wp_ret. simpl. apply HQ. split.
  - rewrite <- (Qfloor_Z (Z.min a b)). apply Qfloor_resp_le, Hlo.
  - rewrite Zlt_Qlt. eapply Qle_lt_trans; [apply Qfloor_le |].
    apply Hstrict. rewrite <- Zlt_Qlt. exact Hlt.
Qed.

(** ** The sort *)

Lemma sort_insert_perm {A} (cmp : A -> A -> num) a l :
  sort_insert cmp a l ≡ₚ a :: l.
Proof.
  induction l as [|b l IH]; cbn [sort_insert]; [reflexivity|].
  destruct (jgt (sortCompare cmp a b) (Fin 0)); [|reflexivity].
  rewrite IH. apply Permutation_swap.
Qed.

Lemma sort_perm {A} (cmp : A -> A -> num) l : sort cmp l ≡ₚ l.
Proof.
  induction l as [|a l IH]; [reflexivity|].
  change (sort cmp (a :: l)) with (sort_insert cmp a (sort cmp l)).
  rewrite sort_insert_perm, IH. reflexivity.
Qed.

Lemma sort_length {A} (cmp : A -> A -> num) l : length (sort cmp l) = length l.
Proof. apply Permutation_length, sort_perm. Qed.

Lemma sort_Forall {A} (P : A -> Prop) (cmp : A -> A -> num) l :
  Forall P l -> Forall P (sort cmp l).
Proof. intros H. rewrite sort_perm. exact H. Qed.

Lemma jge_total (x y : num) :
  x <> NaN -> y <> NaN -> jlt x y = false -> jge x y = true.
Proof.
  intros Hx Hy. destruct x as [p| | |], y as [q| | |]; simpl; try congruence.
  intros H. apply Qltb_ge in H. apply Qle_bool_iff, H.
Qed.

Lemma jge_trans (x y z : num) :
  jge x y = true -> jge y z = true -> jge x z = true.
Proof.
  destruct x as [p| | |], y as [q| | |], z as [r| | |]; simpl; try congruence.
  rewrite !Qle_bool_iff. intros. lra.
Qed.

Lemma jlt_jge (x y : num) : jlt x y = true -> jge y x = true.
Proof.
  destruct x as [p| | |], y as [q| | |]; simpl; try congruence.
  rewrite Qltb_lt, Qle_bool_iff. intros. lra.
Qed.

Lemma by_len_desc_gt a b :
  o_len a <> NaN -> o_len b <> NaN ->
  jgt (sortCompare by_len_desc a b) (Fin 0) = jlt (o_len a) (o_len b).
Proof.
  unfold sortCompare, by_len_desc.
  destruct (o_len a) as [p| | |], (o_len b) as [q| | |];
    simpl; try congruence; try reflexivity.
  intros _ _. unfold Qltb. f_equal.
  apply eq_true_iff_eq. rewrite !Qle_bool_iff, Qred_correct. split; intros; lra.
Qed.

Lemma sort_insert_sorted a l :
  o_len a <> NaN -> Forall (fun o => o_len o <> NaN) l ->
  StronglySorted len_ge l ->
  StronglySorted len_ge (sort_insert by_len_desc a l).
Proof.
  intros Ha Hl Hs. induction Hs as [|b l Hs IH Hb]; cbn [sort_insert].
  - repeat constructor.
  - apply Forall_cons in Hl as [Hbn Hl].
    rewrite by_len_desc_gt by assumption.
    destruct (jlt (o_len a) (o_len b)) eqn:E.
    + apply StronglySorted_cons. split; [|apply IH, Hl].
      rewrite sort_insert_perm. constructor; [apply jlt_jge, E | exact Hb].
    + apply jge_total in E; [|assumption..].
      apply StronglySorted_cons. split; [|apply StronglySorted_cons; auto].
      constructor; [exact E|].
      eapply Forall_impl; [exact Hb|]. intros c Hc. eapply jge_trans; eauto.
Qed.

Lemma sort_sorted l :
  Forall (fun o => o_len o <> NaN) l ->
  StronglySorted len_ge (sort by_len_desc l).
Proof.
  induction 1 as [|a l Ha Hl IH]; [constructor|].
  change (sort by_len_desc (a :: l))
    with (sort_insert by_len_desc a (sort by_len_desc l)).
  apply sort_insert_sorted; [exact Ha | apply sort_Forall, Hl | exact IH].
Qed.

Lemma StronglySorted_lookup {A} (R : A -> A -> Prop) l i j a b :
  StronglySorted R l -> (i < j)%nat ->
  l !! i = Some a -> l !! j = Some b -> R a b.
Proof.
  intros Hs. revert i j. induction Hs as [|c l Hs IH Hc]; intros i j Hij Hi Hj.
  - rewrite lookup_nil in Hi. discriminate.
  - destruct j as [|j]; [lia|]. simpl in Hj. destruct i as [|i]; simpl in Hi.
    + injection Hi as <-. eapply Forall_lookup_1; eauto.
    + apply (IH i j); [lia | assumption..].
Qed.

(** ** The scene generator, one loop turn at a time *)

Ltac wp_bind_gets := apply wp_bind, wp_gets; cbv beta.

(** The same steps, for a goal whose postcondition is an equation. *)
Ltac wq_bind := apply (proj2 (wp_bind _ _ _ _)).
Ltac wq_gets := apply (proj2 (wp_gets _ _ _)); cbv beta.
Ltac wq_modify := apply (proj2 (wp_modify _ _ _)); cbv beta.
Ltac wq_emit := apply (proj2 (wp_emit _ _ _)); cbv beta.
Ltac wq_ret := apply (proj2 (wp_ret _ _ _)); cbv beta.

Lemma half_pi_value :
  jdiv PI (Fin 2) = Fin (884279719003555 # 562949953421312).
Proof. reflexivity. Qed.

Lemma wp_init_arc variance (n : Z) Q w :
  rng_ok w -> numCircles w = Fin (inject_Z n) -> (0 < n)%Z ->
  (forall o p, arc_ok n (arcSize w) o ->
     Q tt (set_arcs (arcs w ++ [o]) (set_rpos p w)) []) ->
  wp (init_arc variance) Q w.
Proof.
  intros Hr Hn Hpos HQ. unfold init_arc.
  wp_bind_gets. rewrite Hn.
  apply wp_bind, (wp_rInt n 0); [exact Hr | lia |]. intros k Hk.
  apply wp_bind, wp_random2_any. intros v.
  unfold colorMap. wp_bind_gets.
  apply wp_bind, wp_random0. cbv beta.
  match goal with |- context [jlt ?s (Fin (1 # 5))] =>
    destruct (jlt s (Fin (1 # 5))) end.
  - apply wp_bind, wp_ret.
    apply wp_bind, wp_random1_any. intros angle.
    wp_bind_gets.
    apply wp_bind, wp_random2_any. intros magnitude.
    apply wp_bind, wp_random0. cbv beta.
    unfold push_arc. apply wp_modify.
    eapply (HQ _ _). exists k. split; [lia|].
    split; [reflexivity|]. split; [eexists; reflexivity|].
    left. reflexivity.
  - apply wp_bind. rewrite half_pi_value.
    apply wp_random1_fin; [exact Hr | discriminate |]. intros r Hr0 _ Hr1.
    apply wp_bind, wp_random1_any. intros angle.
    wp_bind_gets.
    apply wp_bind, wp_random2_any. intros magnitude.
    apply wp_bind, wp_random0. cbv beta.
    unfold push_arc. apply wp_modify.
    eapply (HQ _ _). exists k. split; [lia|].
    split; [reflexivity|]. split; [eexists; reflexivity|].
    right. split; [apply jle_fin, Hr0 |].
    rewrite half_pi_value. apply jlt_fin, Hr1. reflexivity.
Qed.

Lemma array_ref_int {A} (l : list A) (k : Z) :
  (0 <= k < Z.of_nat (length l))%Z ->
  array_ref l (Fin (inject_Z k)) = Some (Z.to_nat k).
Proof.
  intros Hk. unfold array_ref. rewrite Qfloor_Z.
  rewrite (Qeq_bool_true _ _ (Qeq_refl _)).
  assert (E : Qle_bool 0 (inject_Z k) = true).
  { apply Qle_bool_iff. change 0 with (inject_Z 0). rewrite <- Zle_Qle. lia. }
  rewrite E, bool_decide_eq_true_2 by lia. reflexivity.
Qed.

Lemma wp_init_planet numPlanets i Q w :
  rng_ok w ->
  (forall p rp, planet_ok w p ->
     Q tt (set_planets (planets w ++ [p]) (set_rpos rp w)) []) ->
  wp (init_planet numPlanets i) Q w.
Proof.
  intros Hr HQ. unfold init_planet. wp_bind_gets.
  assert (Hcenter : forall w1 : World,
    rng_ok w1 -> center w1 = center w -> planets w1 = planets w ->
    (forall p rp, planet_ok w p ->
       Q tt (set_planets (planets w ++ [p]) (set_rpos rp w1)) []) ->
    wp (target <- ret TCenter ;;
        tlen <- target_len target ;;
        r <- random2 (Fin (1 # 2)) (Fin (7 # 10)) ;;
        hue <- random2 (Fin (-3 # 20)) (Fin (3 # 20)) ;;
        angle <- random1 TAU ;;
        orbit <- (radius <- gets radius ;;
                  r0 <- random1 (jdiv radius numPlanets) ;;
                  ret (jadd r0
                         (jmul radius
                            (jadd (jmul (jdiv (of_nat i) numPlanets) (Fin (7 # 10)))
                                  (Fin (3 # 10)))))) ;;
        s <- random2 (Fin (1 # 5)) (Fin (1 # 2)) ;;
        push_planet (spaceObject None (Some hue) (jmul r tlen) angle orbit
                       (jmul s (Fin (1 # 200))) (Some target) true))
       (fun a w2 o => Q a w2 o) w1).
  { intros w1 Hr1 Hc Hp HQ1. apply wp_bind, wp_ret.
    apply wp_bind. unfold target_len. apply wp_gets. cbv beta.
    apply wp_bind, wp_random2_fin; [exact Hr1 | discriminate |].
    intros r Hlo Hhi _.
    apply wp_bind, wp_random2_any. intros hue.
    apply wp_bind, wp_random1_any. intros angle.
    apply wp_bind, wp_bind, wp_gets. cbv beta.
    apply wp_bind, wp_random1_any. intros r0. apply wp_ret.
    apply wp_bind, wp_random2_any. intros s.
    unfold push_planet. apply wp_modify. cbn [planets set_rpos].
    rewrite Hp. eapply (HQ1 _ _).
    exists TCenter, (c_len (center w)), r.
    repeat split; try assumption; [left; reflexivity |].
    cbn [o_len spaceObject center set_rpos]. rewrite Hc. reflexivity. }
  destruct (jgt (of_nat (length (planets w))) (Fin 0)) eqn:Hlen.
  - apply wp_bind, wp_bind, wp_random0. cbv beta. apply wp_ret.
    match goal with |- context [jlt ?s (Fin (1 # 2))] =>
      destruct (jlt s (Fin (1 # 2))) end.
    + apply jlt_fin in Hlen. change 0 with (inject_Z 0) in Hlen.
      rewrite <- Zlt_Qlt in Hlen.
      apply wp_bind, wp_bind, (wp_rInt 0 (Z.of_nat (length (planets w))));
        [exact Hr | lia |].
      intros k Hk. apply wp_bind, wp_of_option.
      exists (Z.to_nat k). split; [apply array_ref_int; lia |].
      apply wp_ret.
      destruct (lookup_lt_is_Some_2 (planets w) (Z.to_nat k)) as [t Ht]; [lia|].
      apply wp_bind. unfold target_len. wp_bind_gets.
      apply wp_bind, wp_of_option. exists t. split; [exact Ht|]. apply wp_ret.
      apply wp_bind, wp_random2_fin; [exact Hr | discriminate |].
      intros r Hlo Hhi _.
      apply wp_bind, wp_random2_any. intros hue.
      apply wp_bind, wp_random1_any. intros angle.
      apply wp_bind, wp_bind, wp_random1_any. intros r0. apply wp_ret.
      apply wp_bind, wp_random2_any. intros s.
      unfold push_planet. apply wp_modify.
      eapply (HQ _ _).
      exists (TPlanet (Z.to_nat k)), (o_len t), r.
      repeat split; try assumption.
      * right. exists (Z.to_nat k). split; [reflexivity | lia].
      * simpl. rewrite Ht. reflexivity.
    + apply Hcenter; [exact Hr | reflexivity | reflexivity |].
      intros p rp Hp. apply (HQ p). exact Hp.
  - apply wp_bind, wp_ret.
    apply Hcenter; [exact Hr | reflexivity | reflexivity | exact HQ].
Qed.

Lemma wp_init_star Q w :
  (forall s p, Q tt (set_stars (stars w ++ [s]) (set_rpos p w)) []) ->
  wp init_star Q w.
Proof.
  intros HQ. unfold init_star. wp_bind_gets.
  apply wp_bind, wp_random1_any. intros x. wp_bind_gets.
  apply wp_bind, wp_random1_any. intros y.
  apply wp_bind, wp_random2_any. intros size.
  apply wp_bind, wp_random2_any. intros h. wp_bind_gets.
  apply wp_bind, wp_random1_any. intros sat.
  apply wp_bind, wp_random1_any. intros idx.
  apply wp_bind, wp_random2_any. intros speed.
  unfold push_star. apply wp_modify. eapply (HQ _ _).
Qed.

(** ** The scene generator as a whole *)

Lemma sliver_value (k : Z) :
  (0 <= k)%Z ->
  jdiv (Fin 1) (jmul TAU (Fin (inject_Z k))) = PInf /\ k = 0%Z
  \/ (0 < k)%Z /\ exists q, jdiv (Fin 1) (jmul TAU (Fin (inject_Z k))) = Fin q
                            /\ 0 < q /\ q <= 140737488355328 # 884279719003555.
Proof.
  intros Hk. destruct (Z.eq_dec k 0%Z) as [-> | Hne]; [left; split; reflexivity|].
  right. split; [lia|].
  assert (Hq : 1 <= inject_Z k).
  { change 1 with (inject_Z 1). rewrite <- Zle_Qle. lia. }
  unfold TAU, jmul, jdiv, fin.
  set (t := 884279719003555 # 140737488355328).
  assert (Ht : t == 884279719003555 # 140737488355328) by reflexivity.
  assert (Hpos : 0 < Qred (t * inject_Z k)).
  { rewrite Qred_correct, Ht. nra. }
  rewrite Qeq_bool_false by (intros E; rewrite E in Hpos; discriminate).
  eexists. split; [reflexivity|]. rewrite !Qred_correct.
  assert (Hden : 0 < t * inject_Z k) by (rewrite Ht; nra).
  split.
  - apply Qlt_shift_div_l; [exact Hden | lra].
  - apply Qle_shift_div_r; [exact Hden |]. rewrite Ht. nra.
Qed.

Lemma arc_ok_len_not_NaN n asz o : arc_ok n asz o -> o_len o <> NaN.
Proof.
  intros (k & Hk & _ & _ & [E | [H _]]).
  - rewrite E. destruct (sliver_value k) as [[-> _] | (_ & q & -> & _)];
      [lia | discriminate..].
  - intros E. rewrite E in H. discriminate.
Qed.

Lemma targets_ok_snoc ps p :
  targets_ok ps ->
  (o_target p = Some TCenter
   \/ exists j, (j < length ps)%nat /\ o_target p = Some (TPlanet j)) ->
  targets_ok (ps ++ [p]).
Proof.
  intros Hps Hp i q Hi.
  destruct (decide (i < length ps)%nat) as [Hlt | Hge].
  - rewrite lookup_app_l in Hi by exact Hlt. eapply Hps, Hi.
  - rewrite lookup_app_r in Hi by lia.
    destruct (i - length ps)%nat as [|d] eqn:E; [|destruct d; discriminate].
    injection Hi as <-. assert (i = length ps) as -> by lia. exact Hp.
Qed.

Lemma planet_ok_fin w p :
  planet_ok w p ->
  is_fin (c_len (center w)) ->
  Forall (fun p => is_fin (o_len p)) (planets w) ->
  is_fin (o_len p).
Proof.
  intros (t & tl & r & _ & Ht & Htl & _ & _ & ->) Hc Hps.
  assert (Hfin : is_fin tl).
  { destruct Ht as [-> | (j & -> & Hj)]; simpl in Htl.
    - injection Htl as <-. exact Hc.
    - destruct (planets w !! j) as [t|] eqn:E; [|discriminate].
      injection Htl as <-. eapply Forall_lookup_1 in Hps; eauto. }
  destruct Hfin as [q ->]. eexists. reflexivity.
Qed.

Lemma init_spec w0 :
  rng_ok w0 -> wp init (fun _ w _ => scene_inv w0 w) w0.
Proof.
  intros Hr. unfold init.
  apply wp_bind, wp_modify. apply wp_bind, wp_modify. apply wp_bind, wp_modify.
  apply wp_bind, (wp_rInt 70 120); [exact Hr | lia |]. intros n Hn.
  do 4 apply wp_bind, wp_modify.
  apply wp_bind, wp_random0. apply wp_bind, wp_modify.
  apply wp_bind, wp_random2_any. intros m.
  apply wp_bind, wp_random0. cbv beta. apply wp_bind, wp_modify.
  apply wp_bind, wp_random2_any. intros variance.
  match goal with |- wp _ _ ?w => set (w1 := w) end.
  assert (Hlay : layout_ok w0 n w1) by (repeat split).
  assert (Hr1 : rng_ok w1) by exact Hr.
  assert (Hp1 : planets w1 = []) by reflexivity.
  assert (Hs1 : stars w1 = []) by reflexivity.
  assert (Ha1 : arcs w1 = []) by reflexivity.
  clearbody w1.
  (* the arcs *)
  apply wp_bind.
  eapply wp_mono.
  { apply (wp_for_range (fun i w _ =>
      rng_ok w /\ layout_ok w0 n w /\ planets w = [] /\ stars w = [] /\
      length (arcs w) = i /\ Forall (arc_ok n (arcSize w)) (arcs w))).
    - rewrite Ha1. split; [exact Hr1|]. split; [exact Hlay|].
      split; [exact Hp1|]. split; [exact Hs1|]. split; [reflexivity | constructor].
    - intros j w _ _ (Hrw & Hl & Hp & Hs & Hlen & Hall).
      apply (wp_init_arc variance n); [exact Hrw | apply Hl | lia |].
      intros o p Ho. split; [exact Hrw|]. split; [exact Hl|].
      split; [exact Hp|]. split; [exact Hs|]. cbn [arcs set_arcs arcSize set_rpos].
      split; [rewrite length_app, Hlen; simpl; lia |].
      apply Forall_app. split; [exact Hall | repeat constructor; exact Ho]. }
  intros [] w2 _ (Hr2 & Hl2 & Hp2 & Hs2 & Hlen2 & Hall2). cbv beta.
  apply wp_bind, wp_modify.
  (* the planets *)
  apply wp_bind, (wp_rInt 2 7); [exact Hr2 | lia |]. intros k Hk.
  match goal with |- wp _ _ ?w => set (w3 := w) end.
  assert (Hl3 : layout_ok w0 n w3) by exact Hl2.
  assert (Hr3 : rng_ok w3) by exact Hr2.
  assert (Hp3 : planets w3 = []) by exact Hp2.
  assert (Hs3 : stars w3 = []) by exact Hs2.
  assert (Ha3 : arcs w3 = sort by_len_desc (arcs w2)) by reflexivity.
  clearbody w3.
  apply wp_bind.
  eapply wp_mono.
  { apply (wp_for_range (fun i w _ =>
      rng_ok w /\ layout_ok w0 n w /\ arcs w = sort by_len_desc (arcs w2) /\
      stars w = [] /\ targets_ok (planets w) /\
      (is_fin (c_len (center w)) -> Forall (fun p => is_fin (o_len p)) (planets w)))).
    - rewrite Hp3. split; [exact Hr3|]. split; [exact Hl3|].
      split; [exact Ha3|]. split; [exact Hs3|]. split.
      + intros i p Hi. rewrite lookup_nil in Hi. discriminate.
      + intros _. constructor.
    - intros j w _ _ (Hrw & Hl & Ha & Hs & Ht & Hf).
      apply wp_init_planet; [exact Hrw|].
      intros p rp Hp. split; [exact Hrw|]. split; [exact Hl|].
      split; [exact Ha|]. split; [exact Hs|].
      cbn [planets set_planets center set_rpos]. split.
      + apply targets_ok_snoc; [exact Ht|].
        destruct Hp as (t & _ & _ & -> & [-> | (i & -> & Hi)] & _); eauto.
      + intros Hc. apply Forall_app. split; [apply Hf, Hc|].
        repeat constructor. eapply planet_ok_fin; eauto. }
  intros [] w4 _ (Hr4 & Hl4 & Ha4 & Hs4 & Ht4 & Hf4). cbv beta.
  (* the stars *)
  eapply wp_mono.
  { apply (wp_for_range (fun i w _ =>
      layout_ok w0 n w /\ arcs w = arcs w4 /\ planets w = planets w4 /\
      length (stars w) = i)).
    - rewrite Hs4. split; [exact Hl4|]. repeat split.
    - intros j w _ _ (Hl & Ha & Hp & Hlen).
      apply wp_init_star. intros s p. split; [exact Hl|].
      split; [exact Ha|]. split; [exact Hp|].
      cbn [stars set_stars set_rpos]. rewrite length_app, Hlen. simpl. lia. }
  intros [] w5 _ (Hl5 & Ha5 & Hp5 & Hlen5). cbv beta.
  exists n. split; [lia|]. split; [exact Hl5|].
  assert (Hasz : arcSize w5 = arcSize w2).
  { destruct Hl5 as (_ & _ & _ & Hn5 & Hrad5 & -> & _).
    destruct Hl2 as (_ & _ & _ & Hn2 & Hrad2 & -> & _). congruence. }
  assert (Hcen : center w5 = center w4).
  { destruct Hl5 as (_ & _ & _ & _ & Hrad5 & _ & ->).
    destruct Hl4 as (_ & _ & _ & _ & Hrad4 & _ & ->). congruence. }
  rewrite Ha5, Ha4, Hp5, Hasz, Hcen.
  split; [rewrite sort_length; exact Hlen2|].
  split; [apply sort_Forall, Hall2|].
  split.
  { apply sort_sorted. eapply Forall_impl; [exact Hall2|].
    intros o. apply arc_ok_len_not_NaN. }
  split; [exact Ht4|]. split; [exact Hf4 | exact Hlen5].
Qed.

(** ** Descending loops *)

Lemma Qfloor_unique (x : Q) (z : Z) :
  inject_Z z <= x -> x < inject_Z (z + 1) -> Qfloor x = z.
Proof.
  intros Hlo Hhi. apply Z.le_antisymm.
  - apply Z.lt_succ_r. rewrite Zlt_Qlt.
    eapply Qle_lt_trans; [apply Qfloor_le | exact Hhi].
  - rewrite <- (Qfloor_Z z). apply Qfloor_resp_le, Hlo.
Qed.

Lemma Qfloor_step (a s : Q) :
  0 < s -> Qfloor (Qred (a - s) / s) = (Qfloor (a / s) - 1)%Z.
Proof.
  intros Hs. rewrite Qred_correct.
  assert (E : (a - s) / s == a / s - 1) by (field; lra).
  rewrite E. apply Qfloor_unique.
  - unfold Z.sub. rewrite inject_Z_plus.
    pose proof (Qfloor_le (a / s)). change (inject_Z (- (1))) with (- (1)). lra.
  - replace (Qfloor (a / s) - 1 + 1)%Z with (Qfloor (a / s)) by lia.
    pose proof (Qlt_floor (a / s)) as H. rewrite inject_Z_plus in H.
    change (inject_Z 1) with 1 in H. lra.
Qed.

Lemma Qfloor_nonneg (x : Q) : 0 <= x -> (0 <= Qfloor x)%Z.
Proof.
  intros H. rewrite <- (Qfloor_Z 0). apply Qfloor_resp_le, H.
Qed.

Lemma bind_ext {A B} (m : M A) (f g : A -> M B) w :
  (forall a w', f a w' = g a w') -> bind m f w = bind m g w.
Proof.
  intros H. unfold bind. destruct (m w) as [[[a w1] o1]|]; [|reflexivity].
  rewrite H. reflexivity.
Qed.

Lemma bind_assoc_at {A B C} (m : M A) (f : A -> M B) (g : B -> M C) w :
  bind (bind m f) g w = bind m (fun x => bind (f x) g) w.
Proof.
  unfold bind. destruct (m w) as [[[a w1] o1]|]; [|reflexivity].
  destruct (f a w1) as [[[b w2] o2]|]; [|reflexivity].
  destruct (g b w2) as [[[c w3] o3]|]; [|reflexivity].
  rewrite app_assoc. reflexivity.
Qed.

Lemma for_down_values (s : Q) body :
  0 < s ->
  forall fuel a w,
    0 <= a -> (Z.to_nat (Qfloor (a / s)) < fuel)%nat ->
    for_down fuel (Fin a) (Fin s) body w
    = for_list (down_values (S (Z.to_nat (Qfloor (a / s)))) a s) body w.
Proof.
  intros Hs. induction fuel as [|fuel IH]; intros a w Ha Hfuel; [lia|].
  cbn [for_down for_list down_values].
  assert (E : jge (Fin a) (Fin 0) = true) by (apply jle_fin, Ha).
  rewrite E. apply bind_ext. intros _ w'. cbn [jsub]. unfold fin.
  destruct (Qlt_le_dec (a - s) 0) as [Hneg | Hpos].
  - assert (E0 : Qfloor (a / s) = 0%Z).
    { apply Qfloor_unique.
      - change (inject_Z 0) with 0. apply Qle_shift_div_l; [exact Hs | lra].
      - change (inject_Z (0 + 1)) with 1. apply Qlt_shift_div_r; [exact Hs | lra]. }
    rewrite E0. cbn [Z.to_nat down_values for_list].
    assert (E1 : jge (Fin (Qred (a - s))) (Fin 0) = false).
    { apply not_true_iff_false. unfold jge. rewrite jle_fin, Qred_correct. lra. }
    destruct fuel; cbn [for_down]; rewrite E1; reflexivity.
  - pose proof (Qfloor_step a s Hs) as Estep.
    assert (Hge : (0 <= Qfloor (Qred (a - s) / s))%Z).
    { apply Qfloor_nonneg. rewrite Qred_correct.
      apply Qle_shift_div_l; [exact Hs | lra]. }
    rewrite IH; [| rewrite Qred_correct; exact Hpos | lia].
    replace (Z.to_nat (Qfloor (a / s)))
      with (S (Z.to_nat (Qfloor (Qred (a - s) / s)))) by lia.
    reflexivity.
Qed.

(** A loop whose body only issues calls leaves the world as it is. *)
Lemma for_list_emits {A} (l : list A) (body : A -> M unit)
    (f : A -> list Op) w :
  (forall i, body i w = Some (tt, w, f i)) ->
  for_list l body w = Some (tt, w, concat (map f l)).
Proof.
  intros Hbody. induction l as [|i l IH]; [reflexivity|].
  cbn [for_list map concat]. unfold bind. rewrite Hbody, IH. reflexivity.
Qed.

Lemma for_down_to_zero_emits start (s : Q) body (f : num -> list Op) w :
  0 < s -> start <> PInf ->
  (forall i, body i w = Some (tt, w, f i)) ->
  exists ops, for_down_to_zero start (Fin s) body w = Some (tt, w, ops).
Proof.
  intros Hs Hstart Hbody. unfold for_down_to_zero.
  destruct start as [a| | |]; [| congruence | |].
  - destruct (Qlt_le_dec a 0) as [Hneg | Hpos].
    + assert (E : jge (Fin a) (Fin 0) = false).
      { apply not_true_iff_false. unfold jge. rewrite jle_fin. lra. }
      exists []. destruct (down_fuel (Fin a) (Fin s)); cbn [for_down];
        rewrite E; reflexivity.
    + eexists. rewrite for_down_values; [| exact Hs | exact Hpos |].
      * apply for_list_emits, Hbody.
      * unfold down_fuel. rewrite (proj2 (Qltb_lt 0 s) Hs). lia.
  - exists []. reflexivity.
  - exists []. reflexivity.
Qed.

(** ** The frame renderer: what one tick does *)

Section RendererFacts.

Variables cos sin : num -> num.
Variables atan2 hypot : num -> num -> num.
Variable noise_value : list num -> num -> num -> num.

Lemma wp_for_of {A} (arr : World -> list A) body
    (I : nat -> World -> list Op -> Prop) w :
  I O w [] ->
  (forall j w' ops, (j < length (arr w))%nat -> I j w' ops ->
     exists o, arr w' !! j = Some o /\
       wp (body j o) (fun _ w'' o' => I (S j) w'' (ops ++ o')) w') ->
  wp (for_of arr body) (fun _ w' ops => I (length (arr w)) w' ops) w.
Proof.
  intros HI Hbody. unfold for_of. wp_bind_gets.
  apply wp_for_range; [exact HI|].
  intros j w' ops Hj Hinv. destruct (Hbody j w' ops Hj Hinv) as (o & Ho & Hwp).
  wp_bind_gets. apply wp_bind, wp_of_option. exists o. split; [exact Ho|].
  exact Hwp.
Qed.

Lemma wp_draw_rings w (Q : unit -> World -> list Op -> Prop) :
  numCircles w <> PInf -> (forall ops, Q tt w ops) -> wp (draw_rings) Q w.
Proof.
  intros Hn HQ. unfold draw_rings. wp_bind_gets.
  edestruct (for_down_to_zero_emits (numCircles w) 1) as [ops E];
    [reflexivity | exact Hn | | unfold wp; rewrite E; apply HQ].
  intros i. reflexivity.
Qed.

Lemma bind_modify {B} (g : World -> World) (k : unit -> M B) w :
  bind (modify g) k w = k tt (g w).
Proof.
  unfold bind, modify. destruct (k tt (g w)) as [[[b w'] ops]|]; reflexivity.
Qed.

Lemma fill_loop_run (n : nat) w :
  perlin w = Some [] ->
  for_range n (fun _ =>
    r <- random0 ;;
    modify (fun w => set_perlin (Some (default [] (perlin w) ++ [r])) w)) w
  = Some (tt,
          set_perlin (Some ((fun k => fin (rng w (rpos w + k))) <$> seq 0 n))
            (set_rpos (rpos w + n) w), []).
Proof.
  intros Hp. apply wp_eq.
  eapply wp_mono.
  { apply (wp_for_range (fun i w' ops =>
      w' = set_perlin (Some ((fun k => fin (rng w (rpos w + k))) <$> seq 0 i))
             (set_rpos (rpos w + i) w) /\ ops = [])).
    - split; [|reflexivity]. cbn [seq fmap list_fmap].
      rewrite Nat.add_0_r, <- Hp. destruct w; reflexivity.
    - intros i w' ops _ [-> ->]. apply wp_bind, wp_random0. apply wp_modify.
      split; [|reflexivity].
      rewrite seq_S, fmap_app. cbn [fmap list_fmap].
      unfold set_perlin, set_rpos. cbn. rewrite Nat.add_succ_r. reflexivity. }
  intros [] w' ops [-> ->]. reflexivity.
Qed.

Lemma fill_perlin_run w :
  fill_perlin w
  = Some (tt, set_perlin (Some (fresh_table w))
                (set_rpos (rpos w + perlin_size) w), []).
Proof.
  unfold fill_perlin. rewrite bind_modify.
  rewrite fill_loop_run by reflexivity. reflexivity.
Qed.

Lemma noise_ready_idem w : noise_ready (noise_ready w) = noise_ready w.
Proof. unfold noise_ready. destruct (perlin w) eqn:E; [rewrite E|]; reflexivity. Qed.

(** What the first call of [noise] changes is the table and the place
    in the random sequence. *)
Lemma noise_ready_form w :
  noise_ready w
  = set_perlin (perlin (noise_ready w)) (set_rpos (rpos (noise_ready w)) w).
Proof. unfold noise_ready. destruct w as [? ? ? ? ? ? ? ? ? ? ? ? ? ? ? ? ? []]; reflexivity. Qed.

Lemma noise_ready_frameCount w : frameCount (noise_ready w) = frameCount w.
Proof. unfold noise_ready. destruct (perlin w); reflexivity. Qed.

Lemma after_stars_form w :
  after_stars w
  = set_perlin (perlin (after_stars w)) (set_rpos (rpos (after_stars w)) w).
Proof.
  unfold after_stars. destruct (stars w); [destruct w; reflexivity|].
  apply noise_ready_form.
Qed.

Lemma after_stars_scene w :
  arcs (after_stars w) = arcs w /\ planets (after_stars w) = planets w /\
  stars (after_stars w) = stars w.
Proof. rewrite after_stars_form. repeat split. Qed.

Lemma after_stars_globals w :
  numCircles (after_stars w) = numCircles w /\
  mouseDown (after_stars w) = mouseDown w /\
  width (after_stars w) = width w /\ height (after_stars w) = height w /\
  mouseX (after_stars w) = mouseX w /\ mouseY (after_stars w) = mouseY w /\
  arcSize (after_stars w) = arcSize w /\ radius (after_stars w) = radius w /\
  baseHue (after_stars w) = baseHue w /\ hueRange (after_stars w) = hueRange w /\
  center (after_stars w) = center w /\ frameCount (after_stars w) = frameCount w.
Proof. rewrite after_stars_form. repeat split. Qed.

Lemma noise_run x y w :
  noise noise_value x y w
  = Some (noise_value (default [] (perlin (noise_ready w))) x y, noise_ready w, []).
Proof.
  apply wp_eq. unfold noise. wq_bind. wq_gets. unfold noise_ready.
  destruct (perlin w) as [t|] eqn:E.
  - wq_bind. wq_ret. wq_bind. wq_gets. wq_ret. rewrite E. reflexivity.
  - wq_bind. eapply wp_of_eq; [apply fill_perlin_run|].
    wq_bind. wq_gets. wq_ret. reflexivity.
Qed.

Lemma draw_star_run s w :
  draw_star noise_value s w
  = Some (tt, noise_ready w, star_calls noise_value (noise_ready w) s).
Proof.
  apply wp_eq. unfold draw_star. wq_bind. wq_gets.
  wq_bind. eapply wp_of_eq; [apply noise_run|].
  wq_bind. wq_emit. wq_bind. wq_emit. wq_emit.
  unfold star_calls. rewrite noise_ready_frameCount. reflexivity.
Qed.

(** The stars: between a [push] and a [pop], a [stroke] and two [line]
    calls for each; the first star's call of [noise] fills the table. *)
Lemma wp_draw_stars_calls w (Q : unit -> World -> list Op -> Prop) :
  Q tt (after_stars w)
    ([Push;
      Translate (jdiv (jneg (width w)) (Fin 2)) (jdiv (jneg (height w)) (Fin 2));
      BlendModeAdd]
     ++ concat (map (star_calls noise_value (after_stars w)) (stars w)) ++ [Pop]) ->
  wp (draw_stars noise_value) Q w.
Proof.
  intros HQ. unfold draw_stars, pushPop.
  apply wp_bind, wp_emit. apply wp_bind.
  wp_bind_gets. wp_bind_gets. apply wp_bind, wp_emit. apply wp_bind, wp_emit.
  eapply wp_mono.
  { apply (wp_for_of stars (fun _ s => draw_star noise_value s)
             (fun i w' ops =>
                w' = match i with O => w | S _ => noise_ready w end /\
                ops = concat (map (star_calls noise_value (noise_ready w))
                                (take i (stars w)))));
      [split; reflexivity|].
    intros j w' ops Hj [-> ->].
    destruct (lookup_lt_is_Some_2 (stars w) j Hj) as [s Hs].
    exists s. split.
    { destruct j; [exact Hs|]. rewrite (noise_ready_form w). exact Hs. }
    eapply wp_of_eq; [apply draw_star_run|]. split.
    - destruct j; [reflexivity | apply noise_ready_idem].
    - rewrite (take_S_r _ _ _ Hs), map_app, concat_app. cbn [map concat].
      rewrite app_nil_r. destruct j; [reflexivity|].
      rewrite noise_ready_idem. reflexivity. }
  intros [] w' ops [-> ->]. apply wp_emit.
  rewrite firstn_all. cbn [app].
  unfold after_stars in HQ. destruct (stars w) as [|s l]; exact HQ.
Qed.

Lemma wp_draw_stars w (Q : unit -> World -> list Op -> Prop) :
  (forall ops, Q tt (after_stars w) ops) -> wp (draw_stars noise_value) Q w.
Proof. intros HQ. apply wp_draw_stars_calls, HQ. Qed.

Lemma forallb_lookup {A} (f : A -> bool) (l : list A) i x :
  forallb f l = true -> l !! i = Some x -> f x = true.
Proof.
  intros Hall Hx. eapply forallb_forall; [exact Hall|].
  apply list_elem_of_In. eapply list_elem_of_lookup_2, Hx.
Qed.

Lemma set_arcs_same w : set_arcs (arcs w) w = w.
Proof. destruct w; reflexivity. Qed.

Lemma set_planets_same w : set_planets (planets w) w = w.
Proof. destruct w; reflexivity. Qed.

Lemma ticked_advance o : ticked o (advance o).
Proof. repeat split. Qed.

Lemma arc_drawable_col o : arc_drawable o = true -> is_Some (o_col o).
Proof. unfold arc_drawable. destruct (o_col o); [eauto | discriminate]. Qed.

Lemma wp_draw_arc i o w (Q : unit -> World -> list Op -> Prop) :
  arc_drawable o = true ->
  (forall ops, Q tt (set_arcs (<[i := advance o]> (arcs w)) w) ops) ->
  wp (draw_arc i o) Q w.
Proof.
  intros Hcol HQ. unfold draw_arc. cbv zeta.
  apply wp_bind, wp_modify. apply wp_bind, wp_of_option.
  destruct (arc_drawable_col o Hcol) as [[[h s] b] Hc].
  exists (h, s, b). split; [exact Hc|].
  apply wp_bind, wp_emit. apply wp_emit, HQ.
Qed.

Lemma wp_draw_arcs w (Q : unit -> World -> list Op -> Prop) :
  forallb arc_drawable (arcs w) = true ->
  (forall ops, Q tt (set_arcs (advance <$> arcs w) w) ops) ->
  wp (for_of arcs draw_arc) Q w.
Proof.
  intros Hall HQ.
  eapply wp_mono.
  { apply (wp_for_of arcs draw_arc (fun i w' _ =>
      w' = set_arcs (arcs w') w /\
      length (arcs w') = length (arcs w) /\
      (forall j, (j < i)%nat -> arcs w' !! j = advance <$> arcs w !! j) /\
      (forall j, (i <= j)%nat -> arcs w' !! j = arcs w !! j))).
    - split; [symmetry; apply set_arcs_same|]. split; [reflexivity|].
      split; [intros j Hj; lia | reflexivity].
    - intros i w' ops Hi (Hw & Hlen & Hlo & Hhi).
      destruct (lookup_lt_is_Some_2 (arcs w) i Hi) as [o Ho].
      exists o. split; [rewrite Hhi by lia; exact Ho|].
      apply wp_draw_arc; [apply (forallb_lookup _ _ i o Hall Ho)|].
      intros ops'. cbn [arcs set_arcs].
      split; [rewrite Hw at 2; reflexivity|].
      split; [rewrite length_insert; exact Hlen|]. split.
      + intros j Hj. destruct (decide (i = j)) as [<- | Hne].
        * rewrite list_lookup_insert_eq by lia. rewrite Ho. reflexivity.
        * rewrite list_lookup_insert_ne by exact Hne. apply Hlo. lia.
      + intros j Hj. rewrite list_lookup_insert_ne by lia. apply Hhi. lia. }
  intros [] w' ops (Hw & Hlen & Hlo & _). cbv beta.
  assert (E : arcs w' = advance <$> arcs w).
  { apply list_eq. intros j. rewrite list_lookup_fmap.
    destruct (decide (j < length (arcs w))%nat) as [Hj | Hj]; [apply Hlo, Hj|].
    rewrite !lookup_ge_None_2 by lia. reflexivity. }
  rewrite Hw, E. apply HQ.
Qed.

Lemma wp_target_x t w (Q : num -> World -> list Op -> Prop) :
  (forall j, t = TPlanet j -> (j < length (planets w))%nat) ->
  (forall v, Q v w []) -> wp (target_x t) Q w.
Proof.
  intros Ht HQ. destruct t as [|j]; [apply wp_gets, HQ|].
  unfold target_x. wp_bind_gets.
  destruct (lookup_lt_is_Some_2 (planets w) j (Ht j eq_refl)) as [p Hp].
  apply wp_bind, wp_of_option. exists p. split; [exact Hp|]. apply wp_ret, HQ.
Qed.

Lemma wp_target_y t w (Q : num -> World -> list Op -> Prop) :
  (forall j, t = TPlanet j -> (j < length (planets w))%nat) ->
  (forall v, Q v w []) -> wp (target_y t) Q w.
Proof.
  intros Ht HQ. destruct t as [|j]; [apply wp_gets, HQ|].
  unfold target_y. wp_bind_gets.
  destruct (lookup_lt_is_Some_2 (planets w) j (Ht j eq_refl)) as [p Hp].
  apply wp_bind, wp_of_option. exists p. split; [exact Hp|]. apply wp_ret, HQ.
Qed.

Lemma planet_drawable_inv n p :
  planet_drawable n p = true ->
  o_len p <> PInf /\
  exists t, o_target p = Some t /\ forall j, t = TPlanet j -> (j < n)%nat.
Proof.
  unfold planet_drawable. intros H. apply andb_true_iff in H as [Hlen Ht].
  split; [intros E; rewrite E in Hlen; discriminate|].
  destruct (o_target p) as [[|j]|]; [| |discriminate].
  - exists TCenter. split; [reflexivity | discriminate].
  - exists (TPlanet j). split; [reflexivity|].
    intros j' [= <-]. apply bool_decide_eq_true in Ht. exact Ht.
Qed.

Lemma wp_draw_planet i o w (Q : unit -> World -> list Op -> Prop) :
  planet_drawable (length (planets w)) o = true ->
  (forall x y ops,
     Q tt (set_planets (<[i := with_y y (with_x x (advance o))]> (planets w)) w)
       ops) ->
  wp (draw_planet cos sin atan2 hypot i o) Q w.
Proof.
  intros Hd HQ. destruct (planet_drawable_inv _ _ Hd) as (Hlen & t & Ht & Hj).
  unfold draw_planet. cbv zeta.
  apply wp_bind, wp_modify. apply wp_bind, wp_of_option.
  exists t. split; [exact Ht|].
  apply wp_bind, wp_target_x.
  { intros j E. cbn [planets set_planets]. rewrite length_insert. auto. }
  intros tx. apply wp_bind, wp_modify.
  apply wp_bind, wp_target_y.
  { intros j E. cbn [planets set_planets]. rewrite !length_insert. auto. }
  intros ty. apply wp_bind, wp_modify.
  unfold pushPop. apply wp_bind, wp_emit. apply wp_bind.
  apply wp_bind, wp_emit. apply wp_bind, wp_emit. apply wp_bind, wp_emit.
  wp_bind_gets. wp_bind_gets.
  match goal with
  | |- wp (for_down_to_zero ?a ?s ?body) _ ?w1 =>
      assert (Hloop : exists ops, for_down_to_zero a s body w1 = Some (tt, w1, ops))
  end.
  { destruct (mouseDown _).
    - change (jdiv (Fin 2) zoomScale) with (Fin (2 # 3)).
      eapply for_down_to_zero_emits; [reflexivity | exact Hlen |].
      intros k. reflexivity.
    - eapply for_down_to_zero_emits; [reflexivity | exact Hlen |].
      intros k. reflexivity. }
  destruct Hloop as [ops Hloop]. unfold wp at 1. rewrite Hloop.
  apply wp_emit. cbn [planets set_planets].
  rewrite !list_insert_insert_eq. apply HQ.
Qed.

Lemma ticked_placed o x y : ticked o (with_y y (with_x x (advance o))).
Proof. repeat split. Qed.

Lemma wp_draw_planets w (Q : unit -> World -> list Op -> Prop) :
  forallb (planet_drawable (length (planets w))) (planets w) = true ->
  (forall ps ops, Forall2 ticked (planets w) ps -> Q tt (set_planets ps w) ops) ->
  wp (for_of planets (draw_planet cos sin atan2 hypot)) Q w.
Proof.
  intros Hall HQ.
  eapply wp_mono.
  { apply (wp_for_of planets (draw_planet cos sin atan2 hypot) (fun i w' _ =>
      w' = set_planets (planets w') w /\
      length (planets w') = length (planets w) /\
      (forall j p p', (j < i)%nat -> planets w !! j = Some p ->
         planets w' !! j = Some p' -> ticked p p') /\
      (forall j, (i <= j)%nat -> planets w' !! j = planets w !! j))).
    - split; [symmetry; apply set_planets_same|]. split; [reflexivity|].
      split; [intros j p p' Hj; lia | reflexivity].
    - intros i w' ops Hi (Hw & Hlen & Hlo & Hhi).
      destruct (lookup_lt_is_Some_2 (planets w) i Hi) as [o Ho].
      exists o. split; [rewrite Hhi by lia; exact Ho|].
      apply wp_draw_planet.
      { rewrite Hlen. apply (forallb_lookup _ _ i o Hall Ho). }
      intros x y ops'. cbn [planets set_planets].
      split; [rewrite Hw at 2; reflexivity|].
      split; [rewrite length_insert; exact Hlen|]. split.
      + intros j p p' Hj Hp Hp'. destruct (decide (i = j)) as [<- | Hne].
        * rewrite list_lookup_insert_eq in Hp' by lia.
          injection Hp' as <-. rewrite Ho in Hp. injection Hp as <-.
          apply ticked_placed.
        * rewrite list_lookup_insert_ne in Hp' by exact Hne.
          apply (Hlo j); [lia | assumption..].
      + intros j Hj. rewrite list_lookup_insert_ne by lia. apply Hhi. lia. }
  intros [] w' ops (Hw & Hlen & Hlo & _). cbv beta.
  rewrite Hw. apply HQ. apply Forall2_same_length_lookup_2; [symmetry; exact Hlen|].
  intros j p p' Hp Hp'. apply (Hlo j); [|assumption..].
  apply lookup_lt_Some in Hp. exact Hp.
Qed.

Lemma drawable_inv w :
  drawable w = true ->
  numCircles w <> PInf /\
  forallb arc_drawable (arcs w) = true /\
  forallb (planet_drawable (length (planets w))) (planets w) = true.
Proof.
  unfold drawable. intros H.
  apply andb_true_iff in H as [H Hp]. apply andb_true_iff in H as [Hn Ha].
  split; [intros E; rewrite E in Hn; discriminate | auto].
Qed.

(** One call of [draw] on a drawable world completes, and the world it
    leaves is the world one tick later. *)
Lemma draw_tick w :
  drawable w = true ->
  exists w' ops,
    draw cos sin atan2 hypot noise_value w = Some (tt, w', ops) /\ tick_effect w w'.
Proof.
  intros Hd. destruct (drawable_inv w Hd) as (Hn & Ha & Hp).
  cut (wp (draw cos sin atan2 hypot noise_value) (fun _ w' _ => tick_effect w w') w).
  { intros H. apply wp_run in H as ([] & w' & ops & E & Ht). eauto. }
  unfold draw. apply wp_bind, wp_emit. wp_bind_gets.
  apply wp_bind.
  assert (Hzoom : forall Q : unit -> World -> list Op -> Prop,
    (forall ops, Q tt w ops) ->
    wp (if mouseDown w
        then width <- gets width ;; height <- gets height ;;
             emit (Translate (jdiv width (Fin 2)) (jdiv height (Fin 2))) ;;
             emit (Scale zoomScale) ;;
             mouseX <- gets mouseX ;; mouseY <- gets mouseY ;;
             emit (Translate (jneg mouseX) (jneg mouseY))
        else ret tt) Q w).
  { intros Q HQ. destruct (mouseDown w); [|apply wp_ret, HQ].
    wp_bind_gets. wp_bind_gets. apply wp_bind, wp_emit. apply wp_bind, wp_emit.
    wp_bind_gets. wp_bind_gets. apply wp_emit, HQ. }
  apply Hzoom. intros ops0.
  unfold pushPop. apply wp_bind, wp_emit. apply wp_bind.
  wp_bind_gets. wp_bind_gets. apply wp_bind, wp_emit. apply wp_bind, wp_emit.
  apply wp_bind, wp_draw_rings; [exact Hn|]. intros ops1.
  apply wp_bind, wp_draw_stars. intros ops2.
  destruct (after_stars_scene w) as (Ea & Ep & Es).
  apply wp_bind, wp_emit. wp_bind_gets. apply wp_bind, wp_emit.
  apply wp_bind, wp_draw_arcs; [rewrite Ea; exact Ha|]. intros ops3.
  apply wp_draw_planets; [cbn [planets set_arcs]; rewrite Ep; exact Hp|].
  intros ps ops4 Hps.
  apply wp_emit. unfold tick_effect. cbn [arcs planets stars set_arcs set_planets].
  cbn [planets set_arcs] in Hps. rewrite Ep in Hps. rewrite Ea, Es.
  split; [|split; [exact Hps | split; reflexivity]].
  apply Forall2_fmap_r, Forall_Forall2_diag, Forall_forall.
  intros o _. apply ticked_advance.
Qed.

Lemma tick_effect_drawable w w' :
  tick_effect w w' -> drawable w = true -> drawable w' = true.
Proof.
  intros (Harcs & Hplanets & _ & Hw) Hd.
  destruct (drawable_inv w Hd) as (Hn & Ha & Hp).
  unfold drawable. rewrite Hw. cbn [numCircles arcs planets set_arcs set_planets].
  destruct (after_stars_globals w) as (-> & _).
  apply andb_true_iff. split; [apply andb_true_iff; split|].
  - destruct (numCircles w); try reflexivity. congruence.
  - apply forallb_forall. intros o' Ho'.
    apply list_elem_of_In, list_elem_of_lookup in Ho' as [i Hi].
    destruct (Forall2_lookup_r _ _ _ _ _ Harcs Hi) as (o & Ho & Ht).
    pose proof (forallb_lookup _ _ _ _ Ha Ho) as Hc.
    unfold arc_drawable in *. destruct Ht as (_ & -> & _). exact Hc.
  - rewrite <- (Forall2_length _ _ _ Hplanets).
    apply forallb_forall. intros o' Ho'.
    apply list_elem_of_In, list_elem_of_lookup in Ho' as [i Hi].
    destruct (Forall2_lookup_r _ _ _ _ _ Hplanets Hi) as (o & Ho & Ht).
    pose proof (forallb_lookup _ _ _ _ Hp Ho) as Hc.
    unfold planet_drawable in *.
    destruct Ht as (_ & _ & _ & -> & _ & _ & -> & _). exact Hc.
Qed.

End RendererFacts.

(** ** The frame renderer and the random source *)

Lemma same_inputs_set_rng w1 w2 :
  same_inputs w1 w2 /\ perlin w1 = perlin w2
  <-> w2 = set_rng (rng w2) (rpos w2) w1.
Proof.
  unfold same_inputs. split.
  - destruct w1, w2. cbn. intros H. decompose [and] H. subst. reflexivity.
  - intros ->. cbn. repeat split.
Qed.

Lemma rng_blind_ret {A} (a : A) : rng_blind (ret a).
Proof. intros r p w Hp. split; [reflexivity|]. intros a' w' ops [= _ <- _]. exact Hp. Qed.

Lemma rng_blind_bind {A B} (m : M A) (f : A -> M B) :
  rng_blind m -> (forall a, rng_blind (f a)) -> rng_blind (bind m f).
Proof.
  intros Hm Hf r p w Hp. destruct (Hm r p w Hp) as [Em Hm']. unfold bind.
  rewrite Em. destruct (m w) as [[[a w1] o1]|]; [|split; [reflexivity | discriminate]].
  destruct (Hf a r p w1 (Hm' a w1 o1 eq_refl)) as [Ef Hf']. rewrite Ef.
  destruct (f a w1) as [[[b w2] o2]|]; [|split; [reflexivity | discriminate]].
  split; [reflexivity|]. intros b' w' ops [= _ <- _]. apply (Hf' b w2 o2 eq_refl).
Qed.

Lemma rng_blind_gets {A} (f : World -> A) :
  (forall r p w, f (set_rng r p w) = f w) -> rng_blind (gets f).
Proof.
  intros Hf r p w Hp. unfold gets. rewrite Hf. split; [reflexivity|].
  intros a w' ops [= _ <- _]. exact Hp.
Qed.

Lemma rng_blind_modify (g : World -> World) :
  (forall r p w, g (set_rng r p w) = set_rng r p (g w)) ->
  (forall w, perlin (g w) = perlin w) ->
  rng_blind (modify g).
Proof.
  intros Hg Hk r p w Hp. unfold modify. rewrite Hg. split; [reflexivity|].
  intros a w' ops [= _ <- _]. rewrite Hk. exact Hp.
Qed.

Lemma rng_blind_emit (o : Op) : rng_blind (emit o).
Proof.
  intros r p w Hp. split; [reflexivity|]. intros a w' ops [= _ <- _]. exact Hp.
Qed.

Lemma rng_blind_of_option {A} (o : option A) : rng_blind (of_option o).
Proof.
  intros r p w Hp. destruct o; (split; [reflexivity|]); [|discriminate].
  intros a' w' ops [= _ <- _]. exact Hp.
Qed.

Lemma rng_blind_for_from body :
  (forall i, rng_blind (body i)) -> forall n i, rng_blind (for_from i n body).
Proof.
  intros Hbody. induction n as [|n IH]; intros i; cbn [for_from].
  - apply rng_blind_ret.
  - apply rng_blind_bind; [apply Hbody | intros _; apply IH].
Qed.

Lemma rng_blind_for_down body step :
  (forall i, rng_blind (body i)) ->
  forall fuel i, rng_blind (for_down fuel i step body).
Proof.
  intros Hbody. induction fuel as [|fuel IH]; intros i; cbn [for_down];
    destruct (jge i (Fin 0)); try apply rng_blind_ret.
  - intros r p w Hp. split; [reflexivity | discriminate].
  - apply rng_blind_bind; [apply Hbody | intros _; apply IH].
Qed.

Lemma rng_blind_for_of {A} (arr : World -> list A) body :
  (forall r p w, arr (set_rng r p w) = arr w) ->
  (forall i o, rng_blind (body i o)) ->
  rng_blind (for_of arr body).
Proof.
  intros Harr Hbody. unfold for_of.
  apply rng_blind_bind; [apply rng_blind_gets, Harr|]. intros l.
  apply rng_blind_for_from. intros i.
  apply rng_blind_bind; [apply rng_blind_gets, Harr|]. intros l'.
  apply rng_blind_bind; [apply rng_blind_of_option|]. intros o. apply Hbody.
Qed.

Lemma rng_blind_pushPop (f : M unit) : rng_blind f -> rng_blind (pushPop f).
Proof.
  intros Hf. unfold pushPop.
  apply rng_blind_bind; [apply rng_blind_emit|]. intros _.
  apply rng_blind_bind; [exact Hf|]. intros _. apply rng_blind_emit.
Qed.

Create HintDb blind.
#[local] Hint Resolve rng_blind_ret rng_blind_emit rng_blind_of_option
  rng_blind_bind rng_blind_pushPop rng_blind_for_of : blind.
#[local] Hint Extern 1 (rng_blind (gets _)) =>
  apply rng_blind_gets; reflexivity : blind.
#[local] Hint Extern 1 (rng_blind (modify _)) =>
  apply rng_blind_modify; reflexivity : blind.
#[local] Hint Extern 1 (rng_blind (if ?b then _ else _)) => destruct b : blind.
#[local] Hint Extern 1 (rng_blind (for_down_to_zero _ _ _)) =>
  apply rng_blind_for_down : blind.
#[local] Hint Extern 1 (_ = _) => reflexivity : blind.

Section RendererBlind.

Variables cos sin : num -> num.
Variables atan2 hypot : num -> num -> num.
Variable noise_value : list num -> num -> num -> num.

Lemma rng_blind_colorMap amt shift : rng_blind (colorMap amt shift).
Proof. unfold colorMap. auto with blind. Qed.

Lemma rng_blind_target_x t : rng_blind (target_x t).
Proof. destruct t; unfold target_x; auto 10 with blind. Qed.

Lemma rng_blind_target_y t : rng_blind (target_y t).
Proof. destruct t; unfold target_y; auto 10 with blind. Qed.

(** Once the table is there, [noise] only reads it. *)
Lemma rng_blind_noise x y : rng_blind (noise noise_value x y).
Proof.
  intros r p w Hp. rewrite !noise_run. unfold noise_ready.
  destruct Hp as [t Ht]. cbn [perlin set_rng]. rewrite Ht.
  cbn [perlin set_rng]. rewrite Ht. split; [reflexivity|].
  intros a w' ops [= _ <- _]. rewrite Ht. eexists; reflexivity.
Qed.

Hint Resolve rng_blind_colorMap rng_blind_target_x rng_blind_target_y
  rng_blind_noise : blind.

Lemma rng_blind_draw_rings : rng_blind draw_rings.
Proof. unfold draw_rings. auto 20 with blind. Qed.

Lemma rng_blind_draw_stars : rng_blind (draw_stars noise_value).
Proof. unfold draw_stars, draw_star. auto 20 with blind. Qed.

Lemma rng_blind_draw_arc i o : rng_blind (draw_arc i o).
Proof.
  unfold draw_arc. cbv zeta.
  apply rng_blind_bind; [auto with blind|]. intros _.
  apply rng_blind_bind; [auto with blind|]. intros [[h s] b].
  auto with blind.
Qed.

Lemma rng_blind_draw_planet i o :
  rng_blind (draw_planet cos sin atan2 hypot i o).
Proof. unfold draw_planet, draw_planet_disc. cbv zeta. auto 30 with blind. Qed.

Hint Resolve rng_blind_draw_rings rng_blind_draw_stars rng_blind_draw_arc
  rng_blind_draw_planet : blind.

Lemma rng_blind_draw : rng_blind (draw cos sin atan2 hypot noise_value).
Proof. unfold draw. auto 30 with blind. Qed.

End RendererBlind.

(** ** The arcs, draw by draw *)

Lemma rng_ok_cycling : rng_ok blank_cycling.
Proof.
  intros n. cbn [rng blank_cycling blank]. unfold cycling, Qle, Qlt. cbn.
  pose proof (Z.mod_pos_bound (Z.of_nat n) 5 eq_refl). lia.
Qed.

(** [rInt(n)] for a positive whole [n]: the bucket is
    [floor(random() * n)]. *)
Lemma wp_rInt_bucket (n : Z) Q w :
  rng_ok w -> (0 < n)%Z ->
  (forall k, (0 <= k < n)%Z ->
     Fin (inject_Z k) = jfloor (jmul (fin (rng w (rpos w))) (Fin (inject_Z n))) ->
     Q (Fin (inject_Z k)) (set_rpos (S (rpos w)) w) []) ->
  wp (rInt (Fin (inject_Z n)) (Fin 0)) Q w.
Proof.
  intros Hr Hn HQ.
  assert (Hrun : exists k, (0 <= k < n)%Z /\
            rInt (Fin (inject_Z n)) (Fin 0) w
            = Some (Fin (inject_Z k), set_rpos (S (rpos w)) w, [])).
  { pose proof (wp_rInt n 0
        (fun v w' ops => exists k, (0 <= k < n)%Z /\
           Some (v, w', ops) = Some (Fin (inject_Z k), set_rpos (S (rpos w)) w, []))
        w Hr ltac:(lia)) as H.
    change (Fin (inject_Z 0)) with (Fin 0) in H.
    apply wp_run in H as (v & w' & ops & E & k & Hk & Ek).
    - exists k. split; [exact Hk | rewrite E; exact Ek].
    - intros k Hk. exists k. split; [lia | reflexivity]. }
  destruct Hrun as (k & Hk & E).
  apply wp_run. exists (Fin (inject_Z k)), (set_rpos (S (rpos w)) w), [].
  split; [exact E|]. apply HQ; [exact Hk|].
  assert (Emin : jmin (Fin 0) (Fin (inject_Z n)) = Fin 0
                 /\ jmax (Fin 0) (Fin (inject_Z n)) = Fin (inject_Z n)).
  { assert (El : jle (Fin 0) (Fin (inject_Z n)) = true).
    { apply jle_fin. change 0 with (inject_Z 0). rewrite <- Zle_Qle. lia. }
    unfold jmin, jmax. rewrite El. auto. }
  assert (Egt : jgt (Fin 0) (Fin (inject_Z n)) = false).
  { apply not_true_iff_false. unfold jgt. rewrite jlt_fin.
    change 0 with (inject_Z 0). rewrite <- Zlt_Qlt. lia. }
  unfold rInt, random2, random0, bind, ret in E.
  destruct Emin as [E1 E2]. rewrite E1, E2, Egt in E.
  cbn [app] in E. injection E as E.
  rewrite <- E. unfold jfloor, jmul, fin.
  do 2 f_equal. apply Qfloor_comp. rewrite !Qred_correct. ring.
Qed.

Lemma wp_init_arc_drawn variance (n : Z) Q w :
  rng_ok w -> numCircles w = Fin (inject_Z n) -> (0 < n)%Z ->
  (forall o p, arc_drawn (rng w) n (arcSize w) o ->
     Q tt (set_arcs (arcs w ++ [o]) (set_rpos p w)) []) ->
  wp (init_arc variance) Q w.
Proof.
  intros Hr Hn Hpos HQ. unfold init_arc.
  wp_bind_gets. rewrite Hn.
  apply wp_bind, (wp_rInt_bucket n); [exact Hr | exact Hpos |]. intros k Hk Hb.
  apply wp_bind, wp_random2_any. intros v.
  unfold colorMap. wp_bind_gets.
  apply wp_bind, wp_random0. cbv beta. cbn [rng rpos set_rpos].
  destruct (Qlt_le_dec (rng w (S (S (rpos w)))) (1 # 5)) as [Hs | Hs].
  - assert (E : jlt (fin (rng w (S (S (rpos w))))) (Fin (1 # 5)) = true).
    { unfold fin. apply jlt_fin. rewrite Qred_correct. exact Hs. }
    rewrite E. apply wp_bind, wp_ret.
    apply wp_bind, wp_random1_any. intros angle.
    wp_bind_gets.
    apply wp_bind, wp_random2_any. intros magnitude.
    apply wp_bind, wp_random0. cbv beta.
    unfold push_arc. apply wp_modify.
    eapply (HQ _ _). exists (rpos w), k. split; [lia|].
    split; [exact Hb|]. split; [reflexivity|].
    replace (rpos w + 2)%nat with (S (S (rpos w))) by lia.
    split; [intros _; reflexivity |].
    intros Hge. exfalso. exact (Qlt_not_le _ _ Hs Hge).
  - assert (E : jlt (fin (rng w (S (S (rpos w))))) (Fin (1 # 5)) = false).
    { apply not_true_iff_false. unfold fin. rewrite jlt_fin, Qred_correct. lra. }
    rewrite E. apply wp_bind. unfold random1.
    apply wp_bind, wp_random0. apply wp_ret. cbv beta. cbn [rng rpos set_rpos].
    apply wp_bind, wp_random1_any. intros angle.
    wp_bind_gets.
    apply wp_bind, wp_random2_any. intros magnitude.
    apply wp_bind, wp_random0. cbv beta.
    unfold push_arc. apply wp_modify.
    eapply (HQ _ _). exists (rpos w), k. split; [lia|].
    split; [exact Hb|]. split; [reflexivity|].
    replace (rpos w + 2)%nat with (S (S (rpos w))) by lia.
    replace (rpos w + 3)%nat with (S (S (S (rpos w)))) by lia.
    split; [intros Hlt; exfalso; exact (Qlt_not_le _ _ Hlt Hs) | intros _].
    cbn [o_len spaceObject]. split; [reflexivity|].
    destruct (Hr (S (S (S (rpos w))))) as [H0 H1].
    unfold in_quarter_turn. rewrite half_pi_value. unfold fin. cbn [jmul].
    unfold fin.
    split; [apply jle_fin | apply jlt_fin]; rewrite !Qred_correct; nra.
Qed.

Lemma arc_drawn_len_not_NaN r n asz o : arc_drawn r n asz o -> o_len o <> NaN.
Proof.
  intros (p & k & Hk & _ & _ & Hsliver & Hturn).
  destruct (Qlt_le_dec (r (p + 2)%nat) (1 # 5)) as [Hs | Hs].
  - rewrite (Hsliver Hs).
    destruct (sliver_value k) as [[-> _] | (_ & q & -> & _)];
      [lia | discriminate..].
  - destruct (Hturn Hs) as (_ & H & _). intros E. rewrite E in H. discriminate.
Qed.

(** What the loop that fills [arcs] leaves. *)
Lemma init_arcs_spec w0 :
  rng_ok w0 ->
  wp init_arcs (fun _ w ops =>
    ops = [] /\ rng_ok w /\
    exists n : Z,
      (70 <= n < 120)%Z /\ numCircles w = Fin (inject_Z n) /\
      length (arcs w) = 2000%nat /\
      Forall (arc_drawn (rng w0) n (arcSize w)) (arcs w)) w0.
Proof.
  intros Hr. unfold init_arcs. apply wp_bind. unfold init_globals.
  apply wp_bind, wp_modify. apply wp_bind, wp_modify. apply wp_bind, wp_modify.
  apply wp_bind, (wp_rInt 70 120); [exact Hr | lia |]. intros n Hn.
  do 4 apply wp_bind, wp_modify.
  apply wp_bind, wp_random0. apply wp_bind, wp_modify.
  apply wp_bind, wp_random2_any. intros m.
  apply wp_bind, wp_random0. cbv beta. apply wp_bind, wp_modify.
  apply wp_random2_any. intros variance. cbn [app].
  match goal with |- wp _ _ ?w => set (w1 := w) end.
  assert (Hr1 : rng_ok w1) by exact Hr.
  assert (Hg1 : rng w1 = rng w0) by reflexivity.
  assert (Hn1 : numCircles w1 = Fin (inject_Z n)) by reflexivity.
  assert (Ha1 : arcs w1 = []) by reflexivity.
  clearbody w1.
  eapply wp_mono.
  { apply (wp_for_range (fun i w ops =>
      ops = [] /\ rng_ok w /\ rng w = rng w0 /\
      numCircles w = Fin (inject_Z n) /\ arcSize w = arcSize w1 /\
      length (arcs w) = i /\
      Forall (arc_drawn (rng w0) n (arcSize w1)) (arcs w))).
    - rewrite Ha1. split; [reflexivity|]. split; [exact Hr1|].
      split; [exact Hg1|]. split; [exact Hn1|].
      split; [reflexivity|]. split; [reflexivity | constructor].
    - intros j w ops _ (-> & Hrw & Hg & Hnw & Hsz & Hlen & Hall).
      apply (wp_init_arc_drawn variance n); [exact Hrw | exact Hnw | lia |].
      intros o p Ho. split; [reflexivity|]. split; [exact Hrw|].
      split; [exact Hg|]. split; [exact Hnw|]. split; [exact Hsz|].
      cbn [arcs set_arcs set_rpos].
      split; [rewrite length_app, Hlen; simpl; lia |].
      apply Forall_app. split; [exact Hall|].
      rewrite Hg, Hsz in Ho. repeat constructor. exact Ho. }
  intros [] w2 ops (-> & Hr2 & _ & Hn2 & Hsz2 & Hlen2 & Hall2). cbv beta.
  split; [reflexivity|]. split; [exact Hr2|].
  exists n. split; [lia|]. split; [exact Hn2|]. split; [exact Hlen2|].
  rewrite Hsz2. exact Hall2.
Qed.

(** What follows the loop: the sort, then two loops that leave the
    arcs alone. *)
Lemma init_rest_spec w2 :
  rng_ok w2 ->
  wp init_rest (fun _ w ops =>
    arcs w = sort by_len_desc (arcs w2) /\
    numCircles w = numCircles w2 /\ arcSize w = arcSize w2) w2.
Proof.
  intros Hr. unfold init_rest. apply wp_bind, wp_modify.
  apply wp_bind, (wp_rInt 2 7); [exact Hr | lia |]. intros k Hk.
  apply wp_bind.
  eapply wp_mono.
  { apply (wp_for_range (fun i w _ =>
      rng_ok w /\ arcs w = sort by_len_desc (arcs w2) /\
      numCircles w = numCircles w2 /\ arcSize w = arcSize w2)).
    - split; [exact Hr|]. split; [reflexivity|]. split; reflexivity.
    - intros j w _ _ (Hrw & Ha & Hn & Hs).
      apply wp_init_planet; [exact Hrw|].
      intros p rp _. split; [exact Hrw|]. auto. }
  intros [] w3 _ (Hr3 & Ha3 & Hn3 & Hs3). cbv beta.
  eapply wp_mono.
  { apply (wp_for_range (fun i w _ =>
      arcs w = sort by_len_desc (arcs w2) /\
      numCircles w = numCircles w2 /\ arcSize w = arcSize w2)).
    - auto.
    - intros j w _ _ (Ha & Hn & Hs).
      apply wp_init_star. intros s p. auto. }
  intros [] w4 _ H. exact H.
Qed.

Lemma init_split_arcs w : init w = bind init_arcs (fun _ => init_rest) w.
Proof.
  symmetry. unfold init, init_arcs, init_rest, init_globals.
  rewrite bind_assoc_at.
  do 13 (rewrite bind_assoc_at; apply bind_ext; intros ? ?).
  reflexivity.
Qed.

(** The scene is the sort of the arcs the loop pushed, and each of them
    was drawn as [arc_drawn] says. *)
Lemma init_arcs_sorted w0 :
  rng_ok w0 ->
  exists n : Z,
    (70 <= n < 120)%Z /\ numCircles (scene_of w0) = Fin (inject_Z n) /\
    length (arcs_before_sort w0) = 2000%nat /\
    arcs (scene_of w0) = sort by_len_desc (arcs_before_sort w0) /\
    Forall (arc_drawn (rng w0) n (arcSize (scene_of w0))) (arcs_before_sort w0).
Proof.
  intros Hr. pose proof (init_arcs_spec w0 Hr) as H.
  apply wp_run in H as ([] & w2 & ops & E & -> & Hr2 & n & Hn & Hnum & Hlen & Hall).
  pose proof (init_rest_spec w2 Hr2) as H'.
  apply wp_run in H' as ([] & w & ops' & E' & Ha & Hn' & Hs').
  assert (Ei : init w0 = Some (tt, w, ops')).
  { rewrite init_split_arcs. unfold bind. rewrite E, E'. reflexivity. }
  assert (Ew : scene_of w0 = w) by (unfold scene_of; rewrite Ei; reflexivity).
  assert (Eb : arcs_before_sort w0 = arcs w2)
    by (unfold arcs_before_sort; rewrite E; reflexivity).
  rewrite Ew, Eb. exists n. split; [exact Hn|].
  split; [congruence|]. split; [exact Hlen|]. split; [exact Ha|].
  rewrite Hs'. exact Hall.
Qed.

(** ** Runs of the scene generator *)

Lemma init_total w0 :
  rng_ok w0 ->
  exists ops, init w0 = Some (tt, scene_of w0, ops) /\ scene_inv w0 (scene_of w0).
Proof.
  intros Hr. pose proof (init_spec w0 Hr) as H.
  apply wp_run in H as ([] & w & ops & E & Hinv).
  unfold scene_of. rewrite E. eauto.
Qed.

Lemma in_quarter_turn_fin v :
  in_quarter_turn v -> exists q, v = Fin q /\ 0 <= q.
Proof.
  intros [Hlo Hhi]. rewrite half_pi_value in Hhi.
  destruct v as [q| | |]; try discriminate.
  exists q. split; [reflexivity | apply jle_fin, Hlo].
Qed.

(** ** The generated scene *)

Lemma first_arc_infinite_refutes (w0 : World) :
  rng_ok w0 ->
  (o_len <$> arcs (scene_of w0) !! 0%nat) = Some PInf ->
  ~ arc_lengths_finite w0.
Proof.
  intros Hr E Hclaim. destruct (init_total w0 Hr) as (ops & Hinit & _).
  destruct (arcs (scene_of w0) !! 0%nat) as [o|] eqn:Ho; [|discriminate].
  injection E as E.
  destruct (Hclaim (scene_of w0) ops o Hinit) as (q & Hq & _).
  - eapply list_elem_of_lookup_2, Ho.
  - congruence.
Qed.

Lemma rng_ok_blank_hundredth : rng_ok blank_hundredth.
Proof. intros n. split; [discriminate | reflexivity]. Qed.

(** C1, as stated, fails.  When every draw of the random source is
    [1/100], every arc falls in bucket [floor(0.01 * 70) = 0] and takes the
    sliver branch ([0.01 < 0.2]), and [1/(TAU*0)] is [+Infinity]: the first
    arc of the scene has an infinite length. *)
Lemma arc_length_infinite_at_bucket_zero :
  rng_ok blank_hundredth /\
  (o_len <$> arcs (scene_of blank_hundredth) !! 0%nat) = Some PInf /\
  ~ arc_lengths_finite blank_hundredth.
Proof.
  assert (E : (o_len <$> arcs (scene_of blank_hundredth) !! 0%nat) = Some PInf).
  { vm_compute. reflexivity. }
  split; [exact rng_ok_blank_hundredth|]. split; [exact E|].
  exact (first_arc_infinite_refutes blank_hundredth rng_ok_blank_hundredth E).
Qed.

(** C1, amended.  Every arc that [init] generates comes from a turn of
    the generating loop, begun at some place [p] of the random sequence:
    the first draw of the turn gave its bucket
    [k = floor(random() * numCircles)], which is in [[0, numCircles)],
    its stored radius is [k * arcSize], and the third draw of the turn
    chose its length: when that draw is below [0.2] the length is the
    value of [1/(TAU*k)], and otherwise it is the turn's fourth draw times
    [PI/2], which lies in [[0, PI/2)].  Whenever [k >= 1] the length is a
    finite number that is not negative. *)
Theorem arc_length_generated (w0 : World) :
  rng_ok w0 ->
  exists w ops n,
    init w0 = Some (tt, w, ops) /\
    numCircles w = Fin (inject_Z n) /\
    forall o, o ∈ arcs w ->
      exists (p : nat) (k : Z),
        (0 <= k < n)%Z /\
        Fin (inject_Z k)
        = jfloor (jmul (fin (rng w0 p)) (Fin (inject_Z n))) /\
        o_radius o = jmul (Fin (inject_Z k)) (arcSize w) /\
        (rng w0 (p + 2)%nat < 1 # 5 ->
           o_len o = jdiv (Fin 1) (jmul TAU (Fin (inject_Z k)))) /\
        (1 # 5 <= rng w0 (p + 2)%nat ->
           o_len o = jmul (fin (rng w0 (p + 3)%nat)) (jdiv PI (Fin 2)) /\
           in_quarter_turn (o_len o)) /\
        ((1 <= k)%Z -> exists q, o_len o = Fin q /\ 0 <= q).
Proof.
  intros Hr. destruct (init_total w0 Hr) as (ops & Hinit & _).
  destruct (init_arcs_sorted w0 Hr) as (n & Hn & Hnum & _ & Hsort & Hall).
  exists (scene_of w0), ops, n. split; [exact Hinit|]. split; [exact Hnum|].
  apply (sort_Forall _ by_len_desc) in Hall. rewrite <- Hsort in Hall.
  rewrite Forall_forall in Hall.
  intros o Ho.
  destruct (Hall o Ho) as (p & k & Hk & Hb & Hrad & Hsliver & Hturn).
  exists p, k. split; [exact Hk|]. split; [exact Hb|]. split; [exact Hrad|].
  split; [exact Hsliver|]. split; [exact Hturn|].
  intros Hk1. destruct (Qlt_le_dec (rng w0 (p + 2)%nat) (1 # 5)) as [Hs | Hs].
  - destruct (sliver_value k) as [[_ ->] | (_ & q & Eq & Hq & _)]; [lia | lia |].
    exists q. split; [rewrite (Hsliver Hs); exact Eq | lra].
  - apply in_quarter_turn_fin, (Hturn Hs).
Qed.

Lemma arc_length_generated_witness :
  exists w ops n,
    init blank_cycling = Some (tt, w, ops) /\
    numCircles w = Fin (inject_Z n) /\
    forall o, o ∈ arcs w ->
      exists (p : nat) (k : Z),
        (0 <= k < n)%Z /\
        Fin (inject_Z k)
        = jfloor (jmul (fin (rng blank_cycling p)) (Fin (inject_Z n))) /\
        o_radius o = jmul (Fin (inject_Z k)) (arcSize w) /\
        (rng blank_cycling (p + 2)%nat < 1 # 5 ->
           o_len o = jdiv (Fin 1) (jmul TAU (Fin (inject_Z k)))) /\
        (1 # 5 <= rng blank_cycling (p + 2)%nat ->
           o_len o = jmul (fin (rng blank_cycling (p + 3)%nat)) (jdiv PI (Fin 2)) /\
           in_quarter_turn (o_len o)) /\
        ((1 <= k)%Z -> exists q, o_len o = Fin q /\ 0 <= q).
Proof.
  apply (arc_length_generated blank_cycling).
  intros n. cbn [rng blank_cycling blank]. unfold cycling, Qle, Qlt. cbn.
  pose proof (Z.mod_pos_bound (Z.of_nat n) 5 eq_refl). lia.
Defined.

Lemma reaches_center_earlier ps :
  targets_ok ps ->
  forall fuel i p, (i <= fuel)%nat -> ps !! i = Some p ->
    reaches_center ps fuel (o_target p) = true.
Proof.
  intros Hps. induction fuel as [|fuel IH]; intros i p Hi Hp.
  - destruct (Hps i p Hp) as [-> | (j & Hj & _)]; [reflexivity | lia].
  - destruct (Hps i p Hp) as [-> | (j & Hj & ->)]; [reflexivity|].
    cbn [reaches_center].
    destruct (lookup_lt_is_Some_2 ps j) as [t Ht].
    { apply lookup_lt_Some in Hp. lia. }
    rewrite Ht. apply (IH j); [lia | exact Ht].
Qed.

(** C2.  In the scene [init] generates, the target of the planet at index
    [i] is the center or the planet at an index [j < i], and following
    target links from it reaches the center in at most [i] hops. *)
Theorem planet_targets_earlier (w0 : World) :
  rng_ok w0 ->
  exists w ops,
    init w0 = Some (tt, w, ops) /\
    forall i p, planets w !! i = Some p ->
      (o_target p = Some TCenter
       \/ exists j, (j < i)%nat /\ o_target p = Some (TPlanet j)) /\
      reaches_center (planets w) i (o_target p) = true.
Proof.
  intros Hr. destruct (init_total w0 Hr) as (ops & Hinit & Hinv).
  destruct Hinv as (n & _ & _ & _ & _ & _ & Ht & _).
  exists (scene_of w0), ops. split; [exact Hinit|].
  intros i p Hp. split; [apply (Ht i p Hp)|].
  apply (reaches_center_earlier _ Ht i i p); [lia | exact Hp].
Qed.

Lemma planet_targets_earlier_witness :
  exists w ops,
    init blank_tenth = Some (tt, w, ops) /\
    forall i p, planets w !! i = Some p ->
      (o_target p = Some TCenter
       \/ exists j, (j < i)%nat /\ o_target p = Some (TPlanet j)) /\
      reaches_center (planets w) i (o_target p) = true.
Proof.
  apply (planet_targets_earlier blank_tenth).
  intros n. split; [unfold Qle; simpl; lia | reflexivity].
Defined.

(** C4.  In the scene [init] generates, the arcs are the 2000 arcs that
    the generating loop pushed, rearranged in descending order of
    length: for [i < j], the length at [i] is [>=] the length at [j]. *)
Theorem arcs_sorted_descending (w0 : World) :
  rng_ok w0 ->
  exists w ops,
    init w0 = Some (tt, w, ops) /\
    arcs w ≡ₚ arcs_before_sort w0 /\
    length (arcs w) = 2000%nat /\
    forall i j a b, (i < j)%nat ->
      arcs w !! i = Some a -> arcs w !! j = Some b ->
      jge (o_len a) (o_len b) = true.
Proof.
  intros Hr. destruct (init_total w0 Hr) as (ops & Hinit & _).
  destruct (init_arcs_sorted w0 Hr) as (n & _ & _ & Hlen & Hsort & Hall).
  exists (scene_of w0), ops. split; [exact Hinit|].
  rewrite Hsort. split; [apply sort_perm|].
  split; [rewrite sort_length; exact Hlen|].
  intros i j a b Hij Ha Hb.
  assert (Hs : StronglySorted len_ge (sort by_len_desc (arcs_before_sort w0))).
  { apply sort_sorted. eapply Forall_impl; [exact Hall|].
    intros o. apply arc_drawn_len_not_NaN. }
  apply (StronglySorted_lookup len_ge _ i j a b Hs Hij Ha Hb).
Qed.

Lemma arcs_sorted_descending_witness :
  exists w ops,
    init blank_cycling = Some (tt, w, ops) /\
    arcs w ≡ₚ arcs_before_sort blank_cycling /\
    length (arcs w) = 2000%nat /\
    forall i j a b, (i < j)%nat ->
      arcs w !! i = Some a -> arcs w !! j = Some b ->
      jge (o_len a) (o_len b) = true.
Proof.
  apply (arcs_sorted_descending blank_cycling).
  intros n. cbn [rng blank_cycling blank]. unfold cycling, Qle, Qlt. cbn.
  pose proof (Z.mod_pos_bound (Z.of_nat n) 5 eq_refl). lia.
Defined.

(** C8.  Whatever the canvas size is, the scene [init] generates has
    2000 arcs and 1000 stars. *)
Theorem scene_counts (w0 : World) :
  rng_ok w0 ->
  exists w ops,
    init w0 = Some (tt, w, ops) /\
    length (arcs w) = 2000%nat /\ length (stars w) = 1000%nat.
Proof.
  intros Hr. destruct (init_total w0 Hr) as (ops & Hinit & Hinv).
  destruct Hinv as (n & _ & _ & Ha & _ & _ & _ & _ & Hs).
  exists (scene_of w0), ops. split; [exact Hinit|].
  split; [rewrite Ha; reflexivity | exact Hs].
Qed.

Lemma scene_counts_witness :
  exists w ops,
    init (blank NaN (Fin 0) (fun _ => 1 # 10)) = Some (tt, w, ops) /\
    length (arcs w) = 2000%nat /\ length (stars w) = 1000%nat.
Proof.
  apply (scene_counts (blank NaN (Fin 0) (fun _ => 1 # 10))).
  intros n. split; [unfold Qle; simpl; lia | reflexivity].
Defined.

Lemma bucket_radius_bound (k n : Z) :
  (0 <= k < n)%Z ->
  exists r,
    jmul (Fin (inject_Z k)) (jdiv (Fin 270) (Fin (inject_Z n))) = Fin r /\
    0 <= r /\ r <= 270.
Proof.
  intros Hk.
  assert (Hn : 0 < inject_Z n).
  { change 0 with (inject_Z 0). rewrite <- Zlt_Qlt. lia. }
  assert (Hk0 : 0 <= inject_Z k).
  { change 0 with (inject_Z 0). rewrite <- Zle_Qle. lia. }
  assert (Hkn : inject_Z k <= inject_Z n) by (rewrite <- Zle_Qle; lia).
  unfold jdiv, jmul, fin. rewrite Qeq_bool_false by lra.
  eexists. split; [reflexivity|]. rewrite !Qred_correct.
  set (d := 270 / inject_Z n).
  assert (Hd : d * inject_Z n == 270) by (unfold d; field; lra).
  assert (Hd0 : 0 < d) by (unfold d; apply Qlt_shift_div_l; lra).
  split; nra.
Qed.

(** C9.  On a canvas of 800 by 600, [init] sets [radius] to 270 and
    [arcSize] to [270/numCircles], and the stored radius of every arc is a
    number in [[0, 270]]. *)
Theorem canvas_800_600 (w0 : World) :
  rng_ok w0 -> width w0 = Fin 800 -> height w0 = Fin 600 ->
  exists w ops,
    init w0 = Some (tt, w, ops) /\
    radius w = Fin 270 /\
    arcSize w = jdiv (Fin 270) (numCircles w) /\
    forall o, o ∈ arcs w ->
      exists r, o_radius o = Fin r /\ 0 <= r /\ r <= 270.
Proof.
  intros Hr Hw Hh. destruct (init_total w0 Hr) as (ops & Hinit & Hinv).
  destruct Hinv as (n & Hn & Hlay & _ & Harcs & _).
  destruct Hlay as (_ & _ & _ & Hnum & Hrad & Hasz & _).
  rewrite Hw, Hh in Hrad.
  change (jmul (jmin (Fin 800) (Fin 600)) (Fin (9 # 20))) with (Fin 270) in Hrad.
  rewrite Hrad in Hasz.
  exists (scene_of w0), ops. split; [exact Hinit|].
  split; [exact Hrad|]. split; [exact Hasz|].
  intros o Ho. rewrite Forall_forall in Harcs.
  destruct (Harcs o Ho) as (k & Hk & -> & _).
  rewrite Hasz, Hnum. apply bucket_radius_bound. lia.
Qed.

Lemma canvas_800_600_witness :
  exists w ops,
    init blank_tenth = Some (tt, w, ops) /\
    radius w = Fin 270 /\
    arcSize w = jdiv (Fin 270) (numCircles w) /\
    forall o, o ∈ arcs w ->
      exists r, o_radius o = Fin r /\ 0 <= r /\ r <= 270.
Proof.
  apply (canvas_800_600 blank_tenth); [| reflexivity | reflexivity].
  intros n. split; [unfold Qle; simpl; lia | reflexivity].
Defined.

(** ** The palette *)

Lemma Qtrunc_comp (p q : Q) : p == q -> Qtrunc p = Qtrunc q.
Proof.
  intros E. unfold Qtrunc.
  assert (Eb : Qle_bool 0 p = Qle_bool 0 q).
  { apply eq_true_iff_eq. rewrite !Qle_bool_iff, E. reflexivity. }
  rewrite Eb, (Qfloor_comp _ _ E), (Qceiling_comp _ _ E). reflexivity.
Qed.

Lemma hue_value (b r amt sh : Q) :
  hue_of (colorMapAt (Fin b) (Fin r) (Fin amt) (Some (Fin sh)))
  = Fin (Qred (Qred (Qred (b + Qred (amt * r)) + sh)
               - 1 * inject_Z (Qtrunc (Qred (Qred (b + Qred (amt * r)) + sh) / 1)))).
Proof. reflexivity. Qed.

(** The hue [colorMap] returns lies strictly between [-1] and [1], and
    has the sign of [baseHue + amt*hueRange + hueShift]. *)
Lemma colorMap_hue_bounds (b r amt sh : Q) :
  exists h,
    hue_of (colorMapAt (Fin b) (Fin r) (Fin amt) (Some (Fin sh))) = Fin h /\
    -1 < h /\ h < 1 /\
    (0 <= b + amt * r + sh -> 0 <= h) /\
    (b + amt * r + sh <= 0 -> h <= 0).
Proof.
  rewrite hue_value. eexists. split; [reflexivity|].
  rewrite Qred_correct.
  set (x := Qred (Qred (b + Qred (amt * r)) + sh)).
  assert (Ex : x == b + amt * r + sh).
  { unfold x. rewrite !Qred_correct. reflexivity. }
  rewrite (Qtrunc_comp (x / 1) x) by (field).
  unfold Qtrunc. destruct (Qle_bool 0 x) eqn:E.
  - apply Qle_bool_iff in E.
    pose proof (Qfloor_le x). pose proof (Qlt_floor x) as H1.
    rewrite inject_Z_plus in H1. change (inject_Z 1) with 1 in H1.
    split; [lra|]. split; [lra|]. split; [intros; lra|].
    intros Hle. assert (E0 : x == 0) by lra.
    rewrite (Qfloor_comp x 0 E0), E0. discriminate.
  - apply not_true_iff_false in E. rewrite Qle_bool_iff in E.
    pose proof (Qle_ceiling x). pose proof (Qceiling_lt x) as H1.
    unfold Z.sub in H1. rewrite inject_Z_plus in H1.
    change (inject_Z (- (1))) with (- (1)) in H1.
    repeat split; intros; lra.
Qed.

(** C3, checked on the code: with [baseHue = 1/10] and
    [hueRange = -1/4], the hue of [colorMap(9/10)] is [-1/8], which is
    not in [[0, 1)]. *)
Theorem colorMap_hue_negative :
  colorMapAt (Fin (1 # 10)) (Fin (-1 # 4)) (Fin (9 # 10)) None
  = (Fin (-1 # 8), Fin (9 # 10), Fin (1 # 10))
  /\ jle (Fin 0) (Fin (-1 # 8)) = false.
Proof. split; reflexivity. Qed.

(** Were the sums exact, the hues of [colorMap(amt, shift)] and
    [colorMap(amt, shift + 1)] would differ by an integer, [0] or [1]. *)
Lemma colorMap_shift_exact (b r amt sh : Q) :
  exists (h1 h2 : Q) (k : Z),
    hue_of (colorMapAt (Fin b) (Fin r) (Fin amt) (Some (Fin sh))) = Fin h1 /\
    hue_of (colorMapAt (Fin b) (Fin r) (Fin amt)
              (Some (jadd (Fin sh) (Fin 1)))) = Fin h2 /\
    h2 - h1 == inject_Z k /\ (k = 0 \/ k = 1)%Z.
Proof.
  change (jadd (Fin sh) (Fin 1)) with (Fin (Qred (sh + 1))).
  rewrite !hue_value.
  set (x1 := Qred (Qred (b + Qred (amt * r)) + sh)).
  set (x2 := Qred (Qred (b + Qred (amt * r)) + Qred (sh + 1))).
  assert (E2 : x2 == x1 + 1).
  { unfold x1, x2. rewrite !Qred_correct. ring. }
  exists (Qred (x1 - 1 * inject_Z (Qtrunc (x1 / 1)))),
         (Qred (x2 - 1 * inject_Z (Qtrunc (x2 / 1)))),
         (1 + Qtrunc x1 - Qtrunc x2)%Z.
  split; [reflexivity|]. split; [reflexivity|].
  rewrite (Qtrunc_comp (x1 / 1) x1) by field.
  rewrite (Qtrunc_comp (x2 / 1) x2) by field.
  split.
  - rewrite !Qred_correct. unfold Z.sub.
    rewrite !inject_Z_plus, inject_Z_opp. change (inject_Z 1) with 1. lra.
  - rewrite (Qtrunc_comp x2 (x1 + 1)) by exact E2.
    unfold Qtrunc.
    pose proof (Qfloor_le x1) as F1. pose proof (Qlt_floor x1) as F2.
    pose proof (Qle_ceiling x1) as C1. pose proof (Qceiling_lt x1) as C2.
    pose proof (Qfloor_le (x1 + 1)) as G1. pose proof (Qlt_floor (x1 + 1)) as G2.
    pose proof (Qle_ceiling (x1 + 1)) as D1.
    pose proof (Qceiling_lt (x1 + 1)) as D2.
    unfold Z.sub in C2, D2.
    rewrite inject_Z_plus in F2, G2, C2, D2.
    change (inject_Z 1) with 1 in *. change (inject_Z (- (1))) with (- (1)) in *.
    destruct (Qle_bool 0 x1) eqn:E1, (Qle_bool 0 (x1 + 1)) eqn:E3.
    + left. assert (Qfloor (x1 + 1) < Qfloor x1 + 2)%Z
        by (rewrite Zlt_Qlt, inject_Z_plus; change (inject_Z 2) with 2; lra).
      assert (Qfloor x1 < Qfloor (x1 + 1))%Z by (rewrite Zlt_Qlt; lra).
      lia.
    + apply Qle_bool_iff in E1. apply not_true_iff_false in E3.
      rewrite Qle_bool_iff in E3. lra.
    + apply not_true_iff_false in E1. rewrite Qle_bool_iff in E1.
      apply Qle_bool_iff in E3.
      assert (Qceiling x1 < 1)%Z by (rewrite Zlt_Qlt; change (inject_Z 1) with 1; lra).
      assert (-2 < Qceiling x1)%Z
        by (rewrite Zlt_Qlt; change (inject_Z (-2)) with (- (2)); lra).
      assert (Qfloor (x1 + 1) < 1)%Z by (rewrite Zlt_Qlt; change (inject_Z 1) with 1; lra).
      assert (-1 < Qfloor (x1 + 1))%Z
        by (rewrite Zlt_Qlt; change (inject_Z (-1)) with (- (1)); lra).
      lia.
    + left.
      assert (Qceiling (x1 + 1) < Qceiling x1 + 2)%Z
        by (rewrite Zlt_Qlt, inject_Z_plus; change (inject_Z 2) with 2; lra).
      assert (Qceiling x1 < Qceiling (x1 + 1))%Z by (rewrite Zlt_Qlt; lra).
      lia.
Qed.

(** *** The palette in rounded arithmetic *)

(** The exact palette is the rounded one at [Qred], which rounds nothing. *)
Lemma colorMapAt_unrounded (b r amt sh : Q) :
  colorMapAt (Fin b) (Fin r) (Fin amt) (Some (Fin sh))
  = let '(h, s, v) := colorMapR Qred b r amt sh in (fin h, Fin s, Fin v).
Proof. reflexivity. Qed.

Lemma round_half_even_error (x : Q) :
  - (1 # 2) <= inject_Z (round_half_even x) - x <= 1 # 2.
Proof.
  unfold round_half_even.
  pose proof (Qfloor_le x) as Hlo. pose proof (Qlt_floor x) as Hhi.
  rewrite inject_Z_plus in Hhi. change (inject_Z 1) with 1 in Hhi.
  destruct (Qcompare_spec (x - inject_Z (Qfloor x)) (1 # 2)) as [E | E | E].
  - destruct (Z.even (Qfloor x)).
    + lra.
    + rewrite inject_Z_plus. change (inject_Z 1) with 1. lra.
  - lra.
  - rewrite inject_Z_plus. change (inject_Z 1) with 1. lra.
Qed.

Lemma pow2_pos (e : Z) : 0 < 2 ^ e.
Proof. apply Qpower_0_lt. reflexivity. Qed.

Lemma pow2_plus (a b : Z) : 2 ^ (a + b) == 2 ^ a * 2 ^ b.
Proof. apply Qpower_plus. discriminate. Qed.

Lemma ilog2_le (q : Q) : 0 < q -> 2 ^ ilog2 q <= q.
Proof.
  intros Hq. unfold ilog2.
  set (a := Z.log2 (Qnum q)). set (b := Z.log2 (Z.pos (Qden q))).
  destruct (Qle_bool (2 ^ (a - b)) q) eqn:E; [apply Qle_bool_iff, E|].
  assert (Hnum : (0 < Qnum q)%Z).
  { destruct q as [n d]. unfold Qlt in Hq. simpl in *. lia. }
  destruct (Z.log2_spec (Qnum q) Hnum) as [Ha _]. fold a in Ha.
  destruct (Z.log2_spec (Z.pos (Qden q)) eq_refl) as [_ Hb]. fold b in Hb.
  assert (Ha0 : (0 <= a)%Z) by apply Z.log2_nonneg.
  assert (Hb0 : (0 <= b)%Z) by apply Z.log2_nonneg.
  replace (a - b - 1)%Z with (a + - (Z.succ b))%Z by lia.
  rewrite pow2_plus, Qpower_opp.
  change 2 with (inject_Z 2). rewrite <- !Zpower_Qpower by lia.
  assert (Hp : 0 < inject_Z (2 ^ Z.succ b)).
  { change 0 with (inject_Z 0). rewrite <- Zlt_Qlt. lia. }
  apply Qle_shift_div_r; [exact Hp|].
  destruct q as [n d]. unfold Qle, Qmult, inject_Z. cbn in *. nia.
Qed.

Lemma round64_pos_error (q : Q) :
  0 < q ->
  - (unit_roundoff * q) <= round64_pos q - q <= unit_roundoff * q.
Proof.
  intros Hq. unfold round64_pos, unit_roundoff. rewrite Qred_correct.
  change (1 # 2 ^ 53) with (1 # 9007199254740992).
  set (e := ilog2 q).
  pose proof (ilog2_le q Hq) as He. fold e in He.
  pose proof (round_half_even_error (q * 2 ^ (52 - e))) as Hm.
  set (m := inject_Z (round_half_even (q * 2 ^ (52 - e)))) in *.
  pose proof (pow2_pos (e - 52)) as Hp.
  assert (E1 : 2 ^ (52 - e) * 2 ^ (e - 52) == 1).
  { rewrite <- pow2_plus. replace (52 - e + (e - 52))%Z with 0%Z by lia.
    reflexivity. }
  assert (E2 : 2 ^ e == 9007199254740992 * (2 ^ (e - 52) * (1 # 2))).
  { replace e with (53 + (e - 52) + -1)%Z at 1 by lia.
    rewrite !pow2_plus.
    change (2 ^ 53) with 9007199254740992. change (2 ^ (-1)) with (1 # 2).
    ring. }
  set (P := 2 ^ (e - 52)) in *. set (R := 2 ^ (52 - e)) in *.
  rewrite E2 in He.
  assert (E3 : m * P - q == (m - q * R) * P).
  { transitivity (m * P - q * (R * P)); [rewrite E1|]; ring. }
  rewrite E3. split; nra.
Qed.

(** [round64] is within half a unit in the last place, at every
    magnitude. *)
Lemma round64_error (q : Q) :
  Qabs (round64 q - q) <= unit_roundoff * Qabs q.
Proof.
  unfold round64. destruct (Qcompare_spec q 0) as [E | E | E].
  - rewrite E. discriminate.
  - assert (Hq : 0 < - q) by lra.
    pose proof (round64_pos_error (- q) Hq) as H.
    rewrite (Qabs_neg q) by lra. apply Qabs_Qle_condition. lra.
  - pose proof (round64_pos_error q E) as H.
    rewrite (Qabs_pos q) by lra. apply Qabs_Qle_condition. lra.
Qed.

Lemma round64_rounds : rounds_to_nearest round64.
Proof.
  intros x _. pose proof (round64_error x) as H.
  assert (0 <= half_least) by discriminate. lra.
Qed.

Lemma half_least_small : half_least <= unit_roundoff.
Proof. unfold Qle. apply Z.leb_le. vm_compute. reflexivity. Qed.

Lemma largest_power_large : 8 <= largest_power.
Proof. unfold Qle. apply Z.leb_le. vm_compute. reflexivity. Qed.

(** A rounded result whose exact value is at most [B <= 8] in magnitude
    is off by at most [(B + 1) * unit_roundoff]. *)
Lemma rounded_within (rnd : Q -> Q) (x B : Q) :
  rounds_to_nearest rnd ->
  - B <= x <= B -> B <= 8 ->
  - ((B + 1) * unit_roundoff) <= rnd x - x <= (B + 1) * unit_roundoff.
Proof.
  intros Hr Hx HB.
  assert (Hab : Qabs x <= B) by (apply Qabs_Qle_condition; exact Hx).
  pose proof largest_power_large as HL. pose proof half_least_small as Hs.
  assert (Hle : Qabs x <= largest_power) by lra.
  specialize (Hr x Hle). apply Qabs_Qle_condition.
  assert (Hm : unit_roundoff * Qabs x <= unit_roundoff * B)
    by (apply Qmult_le_l; [reflexivity | exact Hab]).
  lra.
Qed.

Lemma hue_minus_trunc (rnd : Q -> Q) (b r amt sh : Q) :
  (colorMapR rnd b r amt sh).1.1
  == rnd (rnd (b + rnd (amt * r)) + sh)
     - inject_Z (Qtrunc (rnd (rnd (b + rnd (amt * r)) + sh))).
Proof.
  unfold colorMapR. cbn [fst].
  set (s := rnd (rnd (b + rnd (amt * r)) + sh)).
  rewrite (Qtrunc_comp (s / 1) s) by field. ring.
Qed.

(** C7, checked on the code's arithmetic: with [baseHue] the binary64
    number nearest [0.1] and [amt = 0], the hue of [colorMap(0, 0)] is
    [baseHue], the hue of [colorMap(0, 0 + 1)] is the binary64 number
    nearest [1.1] less [1], and the two differ by [2^-52 * 3/8], which is
    no integer: they are not equal modulo 1. *)
Lemma colorMap_shift_not_periodic :
  let b := 3602879701896397 # 36028797018963968 in
  let h1 := (colorMapR round64 b (1 # 2) 0 0).1.1 in
  let h2 := (colorMapR round64 b (1 # 2) 0 (round64 (0 + 1))).1.1 in
  round64 (1 # 10) = b /\
  Qred h1 = b /\
  Qred h2 = 225179981368525 # 2251799813685248 /\
  forall k : Z, ~ h2 - h1 == inject_Z k.
Proof.
  cbv zeta.
  split; [vm_compute; reflexivity|].
  split; [vm_compute; reflexivity|].
  split; [vm_compute; reflexivity|].
  intros k Hk.
  assert (E : (colorMapR round64 (3602879701896397 # 36028797018963968)
                 (1 # 2) 0 (round64 (0 + 1))).1.1
              - (colorMapR round64 (3602879701896397 # 36028797018963968)
                   (1 # 2) 0 0).1.1
              == 3 # 36028797018963968).
  { vm_compute. reflexivity. }
  rewrite E in Hk.
  assert (H0 : (0 < k)%Z).
  { rewrite Zlt_Qlt. rewrite <- Hk. reflexivity. }
  assert (H1 : (k < 1)%Z).
  { rewrite Zlt_Qlt. rewrite <- Hk. reflexivity. }
  lia.
Qed.

(** C7.  In arithmetic that rounds to nearest, for [baseHue],
    [amt * hueRange] and [shift] of magnitude at most [1], the hues of
    [colorMap(amt, shift)] and [colorMap(amt, shift + 1)] are equal modulo
    1 up to rounding: they differ by an integer and at most [2^-49]. *)
Theorem colorMap_shift_near_period (rnd : Q -> Q) (b r amt sh : Q) :
  rounds_to_nearest rnd ->
  Qabs b <= 1 -> Qabs (amt * r) <= 1 -> Qabs sh <= 1 ->
  exists k : Z,
    Qabs ((colorMapR rnd b r amt (rnd (sh + 1))).1.1
          - (colorMapR rnd b r amt sh).1.1 - inject_Z k)
    <= 1 # 2 ^ 49.
Proof.
  intros Hr Hb Hp Hs.
  apply Qabs_Qle_condition in Hb, Hp, Hs.
  set (p := rnd (amt * r)).
  set (s0 := rnd (b + p)).
  set (y1 := rnd (s0 + sh)).
  set (sh' := rnd (sh + 1)).
  set (y2 := rnd (s0 + sh')).
  exists (1 - (Qtrunc y2 - Qtrunc y1))%Z.
  rewrite !hue_minus_trunc. fold p s0 y1 sh' y2.
  unfold Z.sub. repeat (rewrite inject_Z_plus || rewrite inject_Z_opp).
  change (inject_Z 1) with 1.
  assert (Ep : - (2 * unit_roundoff) <= p - amt * r <= 2 * unit_roundoff).
  { pose proof (rounded_within rnd (amt * r) 1 Hr Hp) as H.
    fold p in H. lra. }
  assert (Hu : unit_roundoff == 1 # 9007199254740992) by reflexivity.
  assert (E0 : - (4 * unit_roundoff) <= s0 - (b + p) <= 4 * unit_roundoff).
  { assert (Hx : - (3) <= b + p <= 3) by lra.
    pose proof (rounded_within rnd (b + p) 3 Hr Hx) as H.
    fold s0 in H. lra. }
  assert (E1 : - (5 * unit_roundoff) <= y1 - (s0 + sh) <= 5 * unit_roundoff).
  { assert (Hx : - (4) <= s0 + sh <= 4) by lra.
    pose proof (rounded_within rnd (s0 + sh) 4 Hr Hx) as H.
    fold y1 in H. lra. }
  assert (Es : - (3 * unit_roundoff) <= sh' - (sh + 1) <= 3 * unit_roundoff).
  { assert (Hx : - (2) <= sh + 1 <= 2) by lra.
    pose proof (rounded_within rnd (sh + 1) 2 Hr Hx) as H.
    fold sh' in H. lra. }
  assert (E2 : - (6 * unit_roundoff) <= y2 - (s0 + sh') <= 6 * unit_roundoff).
  { assert (Hx : - (5) <= s0 + sh' <= 5) by lra.
    pose proof (rounded_within rnd (s0 + sh') 5 Hr Hx) as H.
    fold y2 in H. lra. }
  apply Qabs_Qle_condition.
  change (1 # 2 ^ 49) with (1 # 562949953421312).
  lra.
Qed.

Lemma colorMap_shift_near_period_witness :
  exists k : Z,
    Qabs ((colorMapR round64 (3602879701896397 # 36028797018963968) (1 # 2) 0
             (round64 (0 + 1))).1.1
          - (colorMapR round64 (3602879701896397 # 36028797018963968) (1 # 2)
               0 0).1.1
          - inject_Z k)
    <= 1 # 2 ^ 49.
Proof.
  apply (colorMap_shift_near_period round64
           (3602879701896397 # 36028797018963968) (1 # 2) 0 0 round64_rounds);
    unfold Qle; vm_compute; discriminate.
Defined.

(** C3 on a generated scene: when every draw of the random source is
    [1/10], [init] sets [baseHue = 1/10] and [hueRange = -1/4], and the
    first disc that [draw] fills has the hue [-1/8]. *)
Lemma negative_hue_in_generated_scene :
  baseHue (scene_of blank_tenth) = Fin (1 # 10) /\
  hueRange (scene_of blank_tenth) = Fin (-1 # 4) /\
  match draw flat1 flat1 flat2 flat2 table_head (scene_of blank_tenth) with
  | Some (_, _, ops) => ops !! 4%nat
  | None => None
  end = Some (Fill (Fin (-1 # 8), Fin (9 # 10), Fin (1 # 10))).
Proof. repeat split; vm_compute; reflexivity. Qed.

(** ** The background discs *)

Lemma down_values_countdown (n : nat) :
  down_values (S n) (inject_Z (Z.of_nat n)) 1 = of_nat <$> countdown n.
Proof.
  induction n as [|n IH]; [reflexivity|].
  cbn [countdown fmap list_fmap]. rewrite <- IH.
  change (down_values (S (S n)) (inject_Z (Z.of_nat (S n))) 1)
    with (Fin (inject_Z (Z.of_nat (S n)))
          :: down_values (S n) (Qred (inject_Z (Z.of_nat (S n)) - 1)) 1).
  rewrite (Qred_complete _ (inject_Z (Z.of_nat n))), inject_Z_Qred; [reflexivity|].
  rewrite Nat2Z.inj_succ. unfold Z.succ. rewrite inject_Z_plus.
  change (inject_Z 1) with 1. ring.
Qed.

Lemma countdown_length (n : nat) : length (countdown n) = S n.
Proof. induction n as [|n IH]; [reflexivity | simpl; rewrite IH; reflexivity]. Qed.

Lemma draw_rings_run (w : World) (n : nat) :
  numCircles w = of_nat n ->
  draw_rings w
  = Some (tt, w, concat (map (fun i => ring_ops w (of_nat i)) (countdown n))).
Proof.
  intros Hn.
  assert (E : draw_rings w
              = Some (tt, w, concat (map (ring_ops w) (of_nat <$> countdown n)))).
  { cut (wp draw_rings (fun a w' ops =>
           Some (a, w', ops)
           = Some (tt, w, concat (map (ring_ops w) (of_nat <$> countdown n)))) w).
    { unfold wp. destruct (draw_rings w) as [[[a w'] ops]|]; [auto | tauto]. }
    unfold draw_rings. wp_bind_gets. rewrite Hn.
    unfold wp, for_down_to_zero, of_nat.
    assert (Hfloor : Qfloor (inject_Z (Z.of_nat n) / 1) = Z.of_nat n).
    { rewrite (Qfloor_comp _ (inject_Z (Z.of_nat n))) by field. apply Qfloor_Z. }
    rewrite for_down_values; [| reflexivity | | ].
    - rewrite Hfloor, Nat2Z.id, down_values_countdown.
      rewrite (for_list_emits _ _ (ring_ops w)); [reflexivity|].
      intros i. reflexivity.
    - change 0 with (inject_Z 0). rewrite <- Zle_Qle. lia.
    - unfold down_fuel. change (Qltb 0 1) with true. cbv iota. lia. }
  rewrite E. do 3 f_equal. clear E.
  induction (countdown n) as [|i l IH]; [reflexivity | simpl; f_equal; exact IH].
Qed.

Lemma ring_ops_count w (l : list nat) :
  length (List.filter is_ellipse
            (concat (map (fun i => ring_ops w (of_nat i)) l)))
  = length l.
Proof. induction l as [|i l IH]; [reflexivity | simpl; rewrite IH; reflexivity]. Qed.

(** When [numCircles] is the whole number [n], the background loop of
    [draw] runs [n + 1] times, for [i = n, n-1, ..., 0], and each turn
    issues a [fill] and an [ellipse]; it changes nothing in the world. *)
Lemma draw_rings_ops (w : World) (n : nat) :
  numCircles w = of_nat n ->
  draw_rings w
  = Some (tt, w, concat (map (fun i => ring_ops w (of_nat i)) (countdown n)))
  /\ length (countdown n) = S n
  /\ rings_drawn w = Some (S n).
Proof.
  intros Hn. pose proof (draw_rings_run w n Hn) as E.
  split; [exact E|]. split; [apply countdown_length|].
  unfold rings_drawn. rewrite E, ring_ops_count, countdown_length. reflexivity.
Qed.

Lemma rev_seq_S (n : nat) : rev (seq 1 (S n)) = S n :: rev (seq 1 n).
Proof. rewrite seq_S, rev_app_distr. reflexivity. Qed.

(** The discs that the background loop paints: every turn but the last,
    whose ellipse has diameter 0. *)
Lemma discs_painted_rings (w : World) (a : Q) :
  arcSize w = Fin a -> 0 < a ->
  forall n,
    discs_painted (concat (map (fun i => ring_ops w (of_nat i)) (countdown n)))
    = map (ring_disc w) (rev (seq 1 n)).
Proof.
  intros Ha Hpos.
  assert (Hzero : is_zero (jmul (jmul (of_nat 0) (arcSize w)) (Fin 2)) = true).
  { rewrite Ha. unfold of_nat, jmul, fin, is_zero. apply Qeq_bool_true.
    rewrite !Qred_correct. change (inject_Z (Z.of_nat 0)) with 0. ring. }
  assert (Hpos' : forall m,
            is_zero (jmul (jmul (of_nat (S m)) (arcSize w)) (Fin 2)) = false).
  { intros m. rewrite Ha. unfold of_nat, jmul, fin, is_zero.
    apply Qeq_bool_false. rewrite !Qred_correct.
    assert (Hm : 1 <= inject_Z (Z.of_nat (S m))).
    { change 1 with (inject_Z 1). rewrite <- Zle_Qle. lia. }
    intros E. nra. }
  induction n as [|n IH].
  - cbn [countdown map concat app seq rev ring_ops discs_painted].
    rewrite Hzero. reflexivity.
  - rewrite rev_seq_S. cbn [countdown map concat app ring_ops discs_painted].
    rewrite Hpos', IH. reflexivity.
Qed.

(** ** One tick, and the next *)


Lemma same_frame_strokes w1 w2 r1 r2 :
  same_frame w1 w2 r1 r2 -> stroke3_calls r1 = stroke3_calls r2.
Proof.
  unfold same_frame, stroke3_calls.
  destruct r1 as [[[[] w1'] ops1]|], r2 as [[[[] w2'] ops2]|]; try tauto.
  intros (-> & _). reflexivity.
Qed.

Section RendererClaims.

Variables cos sin : num -> num.
Variables atan2 hypot : num -> num -> num.
Variable noise_value : list num -> num -> num -> num.

(** The background loop is part of every tick: [draw] issues its calls
    after a prefix that draws no ellipse. *)
Lemma draw_runs_background_pass (w : World) (n : nat) :
  drawable w = true -> numCircles w = of_nat n ->
  exists w' before after,
    draw cos sin atan2 hypot noise_value w
    = Some (tt, w',
            before
            ++ concat (map (fun i => ring_ops w (of_nat i)) (countdown n))
            ++ after)
    /\ Forall (fun o => is_ellipse o = false) before.
Proof.
  intros Hd Hn. destruct (drawable_inv w Hd) as (_ & Ha & Hp).
  pose proof (draw_rings_run w n Hn) as E.
  set (R := concat (map (fun i => ring_ops w (of_nat i)) (countdown n))) in *.
  cut (wp (draw cos sin atan2 hypot noise_value)
         (fun _ _ ops => exists before after,
            ops = before ++ R ++ after
            /\ Forall (fun o => is_ellipse o = false) before) w).
  { intros H. apply wp_run in H as ([] & w' & ops & Ew & before & after & -> & Hb).
    eauto 6. }
  assert (Hrest : forall Q : unit -> World -> list Op -> Prop,
    (forall ops w', Q tt w' (R ++ ops)) ->
    wp (draw_rings ;;
        draw_stars noise_value ;;
        emit NoFill ;;
        arcSize <- gets arcSize ;;
        emit (StrokeWeight arcSize) ;;
        for_of arcs draw_arc ;;
        for_of planets (draw_planet cos sin atan2 hypot)) Q w).
  { intros Q HQ. apply wp_bind. unfold wp at 1. rewrite E.
    apply wp_bind, wp_draw_stars. intros ops2.
    destruct (after_stars_scene w) as (Ea & Ep & _).
    apply wp_bind, wp_emit. wp_bind_gets. apply wp_bind, wp_emit.
    apply wp_bind, wp_draw_arcs; [rewrite Ea; exact Ha|]. intros ops3.
    apply wp_draw_planets; [cbn [planets set_arcs]; rewrite Ep; exact Hp|].
    intros ps ops4 _. apply HQ. }
  unfold draw. apply wp_bind, wp_emit. wp_bind_gets. apply wp_bind.
  destruct (mouseDown w).
  - wp_bind_gets. wp_bind_gets. apply wp_bind, wp_emit. apply wp_bind, wp_emit.
    wp_bind_gets. wp_bind_gets. apply wp_emit.
    unfold pushPop. apply wp_bind, wp_emit. apply wp_bind.
    wp_bind_gets. wp_bind_gets. apply wp_bind, wp_emit. apply wp_bind, wp_emit.
    apply Hrest. intros ops w'. apply wp_emit.
    eexists [_; _; _; _; _; _; _], _. split.
    + cbn [app]. rewrite <- app_assoc. reflexivity.
    + repeat constructor.
  - apply wp_ret.
    unfold pushPop. apply wp_bind, wp_emit. apply wp_bind.
    wp_bind_gets. wp_bind_gets. apply wp_bind, wp_emit. apply wp_bind, wp_emit.
    apply Hrest. intros ops w'. apply wp_emit.
    eexists [_; _; _; _], _. split.
    + cbn [app]. rewrite <- app_assoc. reflexivity.
    + repeat constructor.
Qed.

(** C6.  In every tick, when [numCircles] is the whole number [n] and
    [arcSize] is positive, the background pass paints exactly [n] discs,
    from the outermost inward: for [i = n, n-1, ..., 1], a disc of
    diameter [i * arcSize * 2] filled with the palette color at progress
    [(i/numCircles) * 0.9].  (The loop has one more turn, at [i = 0],
    whose ellipse has diameter 0 and paints nothing.  [n] is taken up to
    [2^52], where the decrement [i--] is exact in binary64; [init] sets
    it to 120 at most.) *)
Theorem draw_paints_rings (w : World) (n : nat) (a : Q) :
  drawable w = true -> numCircles w = of_nat n -> (Z.of_nat n <= 2 ^ 52)%Z ->
  arcSize w = Fin a -> 0 < a ->
  exists w' before rings after,
    draw cos sin atan2 hypot noise_value w
    = Some (tt, w', before ++ rings ++ after) /\
    Forall (fun o => is_ellipse o = false) before /\
    draw_rings w = Some (tt, w, rings) /\
    discs_painted rings = map (ring_disc w) (rev (seq 1 n)) /\
    length (discs_painted rings) = n /\
    length (List.filter is_ellipse rings) = S n.
Proof.
  intros Hd Hn _ Ha Hpos.
  destruct (draw_runs_background_pass w n Hd Hn) as (w' & before & after & E & Hb).
  exists w', before,
    (concat (map (fun i => ring_ops w (of_nat i)) (countdown n))), after.
  split; [exact E|]. split; [exact Hb|].
  split; [apply draw_rings_run, Hn|].
  rewrite (discs_painted_rings w a Ha Hpos n).
  split; [reflexivity|].
  split; [rewrite length_map, length_rev, length_seq; reflexivity|].
  rewrite ring_ops_count. apply countdown_length.
Qed.

(** C5.  On a drawable world, a call of [draw] completes, and so does
    the next one; each adds to the angle of every arc and of every planet
    that object's own speed, leaves their color, hue, length, radius,
    speed and target as they were, and leaves the stars and every other
    global as they were.  (Of the host's state, the first call that draws
    a star makes [noise] fill its table; see [after_stars].) *)
Theorem draw_advances_angles (w : World) :
  drawable w = true ->
  exists w1 ops1 w2 ops2,
    draw cos sin atan2 hypot noise_value w = Some (tt, w1, ops1) /\
    draw cos sin atan2 hypot noise_value w1 = Some (tt, w2, ops2) /\
    tick_effect w w1 /\ tick_effect w1 w2.
Proof.
  intros Hd.
  destruct (draw_tick cos sin atan2 hypot noise_value w Hd) as (w1 & ops1 & E1 & T1).
  pose proof (tick_effect_drawable w w1 T1 Hd) as Hd1.
  destruct (draw_tick cos sin atan2 hypot noise_value w1 Hd1) as (w2 & ops2 & E2 & T2).
  exists w1, ops1, w2, ops2. auto.
Qed.

(** C10, amended.  Once the table of [noise] is there, two calls of
    [draw] from worlds with the same scene, frame counter, pointer,
    canvas and table, whatever their random sources, both complete or
    both do not; when they do they issue the same calls, leave worlds
    that again agree, and leave each random source as it was. *)
Theorem draw_deterministic (w1 w2 : World) :
  same_inputs w1 w2 -> perlin w1 = perlin w2 -> is_Some (perlin w1) ->
  match draw cos sin atan2 hypot noise_value w1,
        draw cos sin atan2 hypot noise_value w2 with
  | Some (_, w1', ops1), Some (_, w2', ops2) =>
      ops1 = ops2 /\ same_inputs w1' w2' /\ perlin w1' = perlin w2' /\
      rng w1' = rng w1 /\ rpos w1' = rpos w1 /\
      rng w2' = rng w2 /\ rpos w2' = rpos w2
  | None, None => True
  | _, _ => False
  end.
Proof.
  intros Hsame Hperlin Hfilled.
  pose proof (proj1 (same_inputs_set_rng w1 w2) (conj Hsame Hperlin)) as E2.
  pose proof (rng_blind_draw cos sin atan2 hypot noise_value) as Hblind.
  assert (Hself : w1 = set_rng (rng w1) (rpos w1) w1) by (destruct w1; reflexivity).
  destruct (Hblind (rng w1) (rpos w1) w1 Hfilled) as [H1 _].
  rewrite <- Hself in H1.
  destruct (Hblind (rng w2) (rpos w2) w1 Hfilled) as [H2 _].
  rewrite E2, H2.
  destruct (draw cos sin atan2 hypot noise_value w1) as [[[[] w1'] ops1]|];
    [|exact I].
  injection H1 as H1.
  split; [reflexivity|].
  destruct (proj2 (same_inputs_set_rng w1' (set_rng (rng w2) (rpos w2) w1'))
              eq_refl) as [Hs Hp].
  split; [exact Hs|]. split; [exact Hp|].
  rewrite H1. cbn. auto.
Qed.

End RendererClaims.

(** The random source is what [rng_blind] is about: [random()] reads it. *)
Lemma random0_not_rng_blind : ~ rng_blind random0.
Proof.
  intros H.
  destruct (H (fun _ => 1 # 2) 0%nat (set_perlin (Some []) blank_hundredth))
    as [E _]; [eexists; reflexivity|].
  discriminate E.
Qed.

Lemma draw_paints_rings_witness :
  exists w' before rings after,
    draw flat1 flat1 flat2 flat2 table_head small_world
    = Some (tt, w', before ++ rings ++ after) /\
    Forall (fun o => is_ellipse o = false) before /\
    draw_rings small_world = Some (tt, small_world, rings) /\
    discs_painted rings = map (ring_disc small_world) (rev (seq 1 4)) /\
    length (discs_painted rings) = 4%nat /\
    length (List.filter is_ellipse rings) = 5%nat.
Proof.
  apply (draw_paints_rings flat1 flat1 flat2 flat2 table_head small_world 4
           (135 # 2));
    [reflexivity | reflexivity | vm_compute; discriminate
    | reflexivity | reflexivity].
Defined.

Lemma draw_advances_angles_witness :
  exists w1 ops1 w2 ops2,
    draw flat1 flat1 flat2 flat2 table_head (scene_of blank_tenth) = Some (tt, w1, ops1) /\
    draw flat1 flat1 flat2 flat2 table_head w1 = Some (tt, w2, ops2) /\
    tick_effect (scene_of blank_tenth) w1 /\ tick_effect w1 w2.
Proof.
  apply (draw_advances_angles flat1 flat1 flat2 flat2 table_head (scene_of blank_tenth)).
  vm_compute. reflexivity.
Defined.

Lemma draw_deterministic_witness :
  match draw flat1 flat1 flat2 flat2 table_head warm_world,
        draw flat1 flat1 flat2 flat2 table_head
          (set_rng (fun _ => 2 # 3) 5 warm_world)
  with
  | Some (_, w1', ops1), Some (_, w2', ops2) =>
      ops1 = ops2 /\ same_inputs w1' w2' /\ perlin w1' = perlin w2' /\
      rng w1' = rng warm_world /\ rpos w1' = rpos warm_world /\
      rng w2' = rng (set_rng (fun _ => 2 # 3) 5 warm_world) /\
      rpos w2' = rpos (set_rng (fun _ => 2 # 3) 5 warm_world)
  | None, None => True
  | _, _ => False
  end.
Proof.
  apply (draw_deterministic flat1 flat1 flat2 flat2 table_head warm_world
           (set_rng (fun _ => 2 # 3) 5 warm_world)).
  - unfold same_inputs. repeat split.
  - reflexivity.
  - eexists. reflexivity.
Defined.

(** C10, as stated, fails.  On a page where [noise] has not been called
    yet, the first star that [draw] draws makes [noise] fill its table
    with 4096 values of [Math.random()]: from two worlds with the same
    scene, frame counter and pointer, the two calls of [draw] give the
    star different strokes, and each leaves its random source 4096
    values further. *)
Lemma draw_reads_random_source :
  same_inputs small_world (set_rng (fun _ => 2 # 3) 5 small_world) /\
  stroke3_calls (draw flat1 flat1 flat2 flat2 table_head small_world)
  = Some [(Fin (1 # 5), Fin (1 # 2), Fin (7 # 100))] /\
  stroke3_calls (draw flat1 flat1 flat2 flat2 table_head
                   (set_rng (fun _ => 2 # 3) 5 small_world))
  = Some [(Fin (1 # 5), Fin (1 # 2), Fin (7 # 15))] /\
  rpos_after (draw flat1 flat1 flat2 flat2 table_head small_world)
  = Some (rpos small_world + 4096)%nat /\
  ~ same_frame small_world (set_rng (fun _ => 2 # 3) 5 small_world)
      (draw flat1 flat1 flat2 flat2 table_head small_world)
      (draw flat1 flat1 flat2 flat2 table_head
         (set_rng (fun _ => 2 # 3) 5 small_world)).
Proof.
  assert (E1 : stroke3_calls (draw flat1 flat1 flat2 flat2 table_head small_world)
               = Some [(Fin (1 # 5), Fin (1 # 2), Fin (7 # 100))])
    by (vm_compute; reflexivity).
  assert (E2 : stroke3_calls (draw flat1 flat1 flat2 flat2 table_head
                                (set_rng (fun _ => 2 # 3) 5 small_world))
               = Some [(Fin (1 # 5), Fin (1 # 2), Fin (7 # 15))])
    by (vm_compute; reflexivity).
  split; [unfold same_inputs; repeat split|].
  split; [exact E1|]. split; [exact E2|].
  split; [vm_compute; reflexivity|].
  intros H. apply same_frame_strokes in H. rewrite E1, E2 in H. discriminate H.
Qed.

(** ** Values of arithmetic on finite numbers *)

Lemma num_is_fin (q : Q) : num_is (Fin q) q.
Proof. exists q. split; reflexivity. Qed.

Lemma num_is_add x y a b : num_is x a -> num_is y b -> num_is (jadd x y) (a + b).
Proof.
  intros (a' & -> & Ea) (b' & -> & Eb). eexists. split; [reflexivity|].
  rewrite Qred_correct, Ea, Eb. reflexivity.
Qed.

Lemma num_is_sub x y a b : num_is x a -> num_is y b -> num_is (jsub x y) (a - b).
Proof.
  intros (a' & -> & Ea) (b' & -> & Eb). eexists. split; [reflexivity|].
  rewrite Qred_correct, Ea, Eb. reflexivity.
Qed.

Lemma num_is_mul x y a b : num_is x a -> num_is y b -> num_is (jmul x y) (a * b).
Proof.
  intros (a' & -> & Ea) (b' & -> & Eb). eexists. split; [reflexivity|].
  rewrite Qred_correct, Ea, Eb. reflexivity.
Qed.

Lemma num_is_neg x a : num_is x a -> num_is (jneg x) (- a).
Proof.
  intros (a' & -> & Ea). eexists. split; [reflexivity|].
  rewrite Qred_correct, Ea. reflexivity.
Qed.

Lemma num_is_div x y a b :
  num_is x a -> num_is y b -> ~ b == 0 -> num_is (jdiv x y) (a / b).
Proof.
  intros (a' & -> & Ea) (b' & -> & Eb) Hb. unfold jdiv.
  rewrite Qeq_bool_false by (rewrite Eb; exact Hb).
  eexists. split; [reflexivity|]. rewrite Qred_correct, Ea, Eb. reflexivity.
Qed.

Lemma num_is_value v q : num_is v q -> exists q', v = Fin q' /\ q' == q.
Proof. auto. Qed.

Lemma constrain_unit (x : Q) :
  exists s, constrain (Fin x) (Fin 0) (Fin 1) = Fin s /\ 0 <= s /\ s <= 1.
Proof.
  unfold constrain, jmin, jmax.
  destruct (jle (Fin x) (Fin 1)) eqn:E1.
  - destruct (jle (Fin x) (Fin 0)) eqn:E0.
    + exists 0. repeat split; lra.
    + exists x. apply jle_fin in E1. apply not_true_iff_false in E0.
      rewrite jle_fin in E0. repeat split; lra.
  - destruct (jle (Fin 1) (Fin 0)) eqn:E0; [discriminate|].
    exists 1. repeat split; lra.
Qed.

(** ** The scene generator: every field of what it stores *)

Lemma wp_random2_swapped (lo hi : Q) Q w :
  rng_ok w -> hi < lo ->
  (forall r, hi <= r -> r < lo -> Q (Fin r) (set_rpos (S (rpos w)) w) []) ->
  wp (random2 (Fin lo) (Fin hi)) Q w.
Proof.
  intros Hr Hlt HQ. unfold random2. apply wp_bind, wp_random0_ok; [exact Hr|].
  intros q Hq0 Hq1.
  assert (E : jgt (Fin lo) (Fin hi) = true) by (apply Qltb_lt; exact Hlt).
  rewrite E. apply wp_ret. simpl. unfold fin.
  apply HQ; rewrite !Qred_correct; nra.
Qed.

Lemma wp_init_arc_full (vq : Q) (n : Z) Q w :
  rng_ok w -> numCircles w = Fin (inject_Z n) -> (0 < n)%Z -> 0 <= vq ->
  (forall o p, arc_fields (baseHue w) (hueRange w) o ->
     Q tt (set_arcs (arcs w ++ [o]) (set_rpos p w)) []) ->
  wp (init_arc (Fin vq)) Q w.
Proof.
  intros Hr Hn Hpos Hv HQ. unfold init_arc.
  wp_bind_gets. rewrite Hn.
  apply wp_bind, (wp_rInt n 0); [exact Hr | lia |]. intros k Hk.
  apply wp_bind. change (jneg (Fin vq)) with (Fin (Qred (- vq))).
  apply wp_random2_fin; [exact Hr | rewrite Qred_correct; lra |].
  intros v _ _ _.
  assert (Hn0 : ~ inject_Z n == 0).
  { change 0 with (inject_Z 0). rewrite inject_Z_injective. lia. }
  destruct (num_is_add _ _ _ _
              (num_is_div _ _ _ _ (num_is_fin (inject_Z k))
                 (num_is_fin (inject_Z n)) Hn0)
              (num_is_fin v)) as (x & Ex & _).
  rewrite Ex. destruct (constrain_unit x) as (s & Es & Hs0 & Hs1). rewrite Es.
  unfold colorMap. wp_bind_gets.
  apply wp_bind, wp_random0. cbv beta.
  assert (Htail : forall (len : num) (w1 : World),
    rng_ok w1 -> baseHue w1 = baseHue w -> hueRange w1 = hueRange w ->
    arcs w1 = arcs w -> arcSize w1 = arcSize w ->
    (forall o p, arc_fields (baseHue w) (hueRange w) o ->
       Q tt (set_arcs (arcs w ++ [o]) (set_rpos p w1)) []) ->
    wp (angle <- random1 TAU ;;
        arcSize <- gets arcSize ;;
        magnitude <- random2 (Fin 0) (Fin (3 # 10)) ;;
        sign <- random0 ;;
        push_arc
          (spaceObject
             (Some (colorMapAt (baseHue w) (hueRange w) (Fin s) None)) None
             len angle (jmul (Fin (inject_Z k)) arcSize)
             (jmul (jmul magnitude
                      (if jlt sign (Fin (1 # 2)) then Fin 1 else Fin (-1)))
                   (Fin (1 # 50)))
             None false)) Q w1).
  { intros len w1 Hr1 Hb Hh Ha Hz HQ1.
    apply wp_bind, wp_random1_fin; [exact Hr1 | discriminate |].
    intros a Ha0 _ Ha1. wp_bind_gets.
    apply wp_bind, wp_random2_fin; [exact Hr1 | discriminate |].
    intros m Hm0 _ Hm1. apply wp_bind, wp_random0. cbv beta.
    specialize (Hm1 eq_refl).
    assert (Hspeed : exists v,
      jmul (jmul (Fin m)
              (if jlt (fin (rng (set_rpos (S (rpos w1)) w1)
                              (rpos (set_rpos (S (rpos (set_rpos (S (rpos w1)) w1)))
                                       (set_rpos (S (rpos w1)) w1)))))
                      (Fin (1 # 2))
               then Fin 1 else Fin (-1)))
           (Fin (1 # 50)) = Fin v /\ - (3 # 500) < v /\ v < (3 # 500)).
    { match goal with |- context [jlt ?sg (Fin (1 # 2))] =>
        destruct (jlt sg (Fin (1 # 2))) end;
        (eexists; split; [reflexivity|]; rewrite !Qred_correct; split; lra). }
    unfold push_arc. apply wp_modify. cbn [arcs set_rpos]. rewrite Ha.
    eapply (HQ1 _ _). unfold arc_fields, spaceObject.
    cbn [o_isPlanet o_hue o_target o_x o_y o_col o_angle o_speed].
    do 5 (split; [reflexivity|]).
    split; [exists s; auto|].
    split; [exists a; split; [reflexivity|]; split;
              [exact Ha0 | apply jlt_fin, Ha1; reflexivity]|].
    exact Hspeed. }
  match goal with |- context [jlt ?sl (Fin (1 # 5))] =>
    destruct (jlt sl (Fin (1 # 5))) end.
  - apply wp_bind, wp_ret.
    apply Htail; try reflexivity; [exact Hr|]. intros o p Ho. apply (HQ o p Ho).
  - apply wp_bind, wp_random1_any. intros len.
    apply Htail; try reflexivity; [exact Hr|]. intros o p Ho. apply (HQ o p Ho).
Qed.

Lemma wp_init_planet_full numPlanets i Q w :
  rng_ok w ->
  (forall p rp, planet_made numPlanets i w p ->
     Q tt (set_planets (planets w ++ [p]) (set_rpos rp w)) []) ->
  wp (init_planet numPlanets i) Q w.
Proof.
  intros Hr HQ. unfold init_planet. wp_bind_gets.
  (* everything after the target and its length are known *)
  assert (Htail : forall (t : Target) (tl : num) (w1 : World),
    rng_ok w1 -> radius w1 = radius w -> planets w1 = planets w ->
    (t = TCenter \/ exists j, t = TPlanet j /\ (j < length (planets w))%nat) ->
    target_len_of w t = Some tl ->
    (forall p rp, planet_made numPlanets i w p ->
       Q tt (set_planets (planets w ++ [p]) (set_rpos rp w1)) []) ->
    wp (r <- random2 (Fin (1 # 2)) (Fin (7 # 10)) ;;
        hue <- random2 (Fin (-3 # 20)) (Fin (3 # 20)) ;;
        angle <- random1 TAU ;;
        orbit <- (if match t with TCenter => false | TPlanet _ => true end
                  then r0 <- random1 (jdiv tl (Fin 4)) ;;
                       ret (jadd r0 (jdiv (jadd (jmul r tl) tl) (Fin 2)))
                  else radius <- gets radius ;;
                       r0 <- random1 (jdiv radius numPlanets) ;;
                       ret (jadd r0
                              (jmul radius
                                 (jadd (jmul (jdiv (of_nat i) numPlanets)
                                          (Fin (7 # 10)))
                                       (Fin (3 # 10)))))) ;;
        s <- random2 (Fin (1 # 5)) (Fin (1 # 2)) ;;
        push_planet (spaceObject None (Some hue) (jmul r tl) angle orbit
                       (jmul s (Fin (1 # 200))) (Some t) true)) Q w1).
  { intros t tl w1 Hr1 Hrad Hps Ht Htl HQ1.
    apply wp_bind, wp_random2_fin; [exact Hr1 | discriminate |].
    intros r Hr0 _ Hr2. specialize (Hr2 eq_refl).
    apply wp_bind, wp_random2_fin; [exact Hr1 | discriminate |].
    intros h Hh0 _ Hh1. specialize (Hh1 eq_refl).
    apply wp_bind, wp_random1_fin; [exact Hr1 | discriminate |].
    intros a Ha0 _ Ha1. specialize (Ha1 eq_refl).
    assert (Hfields : forall orbit sp, 
      (1 # 5) <= sp -> sp < (1 # 2) ->
      planet_fields (spaceObject None (Some (Fin h)) (jmul (Fin r) tl) (Fin a)
                       orbit (jmul (Fin sp) (Fin (1 # 200))) (Some t) true)).
    { intros orbit sp Hs0 Hs1. unfold planet_fields, spaceObject.
      cbn [o_isPlanet o_col o_x o_y o_hue o_angle o_speed].
      do 4 (split; [reflexivity|]).
      split; [exists h; auto|].
      split; [exists a; split; [reflexivity|]; split;
                [exact Ha0 | apply jlt_fin, Ha1]|].
      eexists. split; [reflexivity|]. rewrite Qred_correct. split; lra. }
    destruct t as [|j].
    - apply wp_bind, wp_bind, wp_gets. cbv beta.
      apply wp_bind. unfold random1 at 1. apply wp_bind, wp_random0_ok; [exact Hr1|].
      intros r0 Hr00 Hr01. apply wp_ret, wp_ret.
      apply wp_bind, wp_random2_fin; [exact Hr1 | discriminate |].
      intros sp Hs0 _ Hs1. specialize (Hs1 eq_refl).
      unfold push_planet. apply wp_modify. cbn [planets set_rpos]. rewrite Hps.
      eapply (HQ1 _ _). split; [apply Hfields; assumption|].
      exists TCenter, tl, r, r0. unfold spaceObject, orbit_of.
      cbn [o_target o_len o_radius radius set_rpos]. rewrite Hrad.
      repeat split; auto.
    - apply wp_bind, wp_bind. unfold random1 at 1.
      apply wp_bind, wp_random0_ok; [exact Hr1|].
      intros r0 Hr00 Hr01. apply wp_ret, wp_ret.
      apply wp_bind, wp_random2_fin; [exact Hr1 | discriminate |].
      intros sp Hs0 _ Hs1. specialize (Hs1 eq_refl).
      unfold push_planet. apply wp_modify. cbn [planets set_rpos]. rewrite Hps.
      eapply (HQ1 _ _). split; [apply Hfields; assumption|].
      exists (TPlanet j), tl, r, r0. unfold spaceObject, orbit_of.
      cbn [o_target o_len o_radius].
      repeat split; auto. }
  assert (Hcenter : forall w1 : World,
    rng_ok w1 -> radius w1 = radius w -> planets w1 = planets w ->
    center w1 = center w ->
    (forall p rp, planet_made numPlanets i w p ->
       Q tt (set_planets (planets w ++ [p]) (set_rpos rp w1)) []) ->
    wp (target <- ret TCenter ;;
        tlen <- target_len target ;;
        r <- random2 (Fin (1 # 2)) (Fin (7 # 10)) ;;
        hue <- random2 (Fin (-3 # 20)) (Fin (3 # 20)) ;;
        angle <- random1 TAU ;;
        orbit <- (radius <- gets radius ;;
                  r0 <- random1 (jdiv radius numPlanets) ;;
                  ret (jadd r0
                         (jmul radius
                            (jadd (jmul (jdiv (of_nat i) numPlanets) (Fin (7 # 10)))
                                  (Fin (3 # 10)))))) ;;
        s <- random2 (Fin (1 # 5)) (Fin (1 # 2)) ;;
        push_planet (spaceObject None (Some hue) (jmul r tlen) angle orbit
                       (jmul s (Fin (1 # 200))) (Some target) true)) Q w1).
  { intros w1 Hr1 Hrad Hps Hc HQ1. apply wp_bind, wp_ret.
    apply wp_bind. unfold target_len. apply wp_gets. cbv beta.
    apply (Htail TCenter (c_len (center w1)) w1 Hr1 Hrad Hps);
      [left; reflexivity | rewrite Hc; reflexivity | exact HQ1]. }
  destruct (jgt (of_nat (length (planets w))) (Fin 0)) eqn:Hlen.
  - apply wp_bind, wp_bind, wp_random0. cbv beta. apply wp_ret.
    match goal with |- context [jlt ?s (Fin (1 # 2))] =>
      destruct (jlt s (Fin (1 # 2))) end.
    + apply jlt_fin in Hlen. change 0 with (inject_Z 0) in Hlen.
      rewrite <- Zlt_Qlt in Hlen.
      apply wp_bind, wp_bind, (wp_rInt 0 (Z.of_nat (length (planets w))));
        [exact Hr | lia |].
      intros k Hk. apply wp_bind, wp_of_option.
      exists (Z.to_nat k). split; [apply array_ref_int; lia |].
      apply wp_ret.
      destruct (lookup_lt_is_Some_2 (planets w) (Z.to_nat k)) as [t Ht]; [lia|].
      apply wp_bind. unfold target_len. wp_bind_gets.
      apply wp_bind, wp_of_option. exists t. split; [exact Ht|]. apply wp_ret.
      apply (Htail (TPlanet (Z.to_nat k)) (o_len t)); try reflexivity.
      * exact Hr.
      * right. exists (Z.to_nat k). split; [reflexivity | lia].
      * cbn [target_len_of]. rewrite Ht. reflexivity.
      * intros p rp Hp. apply (HQ p), Hp.
    + apply Hcenter; try reflexivity; [exact Hr|].
      intros p rp Hp. apply (HQ p), Hp.
  - apply wp_bind, wp_ret.
    apply Hcenter; try reflexivity; [exact Hr | exact HQ].
Qed.

Lemma wp_init_star_full Q w :
  rng_ok w ->
  (forall s p,
     (forall b, baseHue w = Fin b -> star_fields b s) ->
     (forall W H, canvas_is w W H -> star_on_canvas W H s) ->
     Q tt (set_stars (stars w ++ [s]) (set_rpos p w)) []) ->
  wp init_star Q w.
Proof.
  intros Hr HQ. unfold init_star. wp_bind_gets.
  apply wp_bind. unfold random1 at 1. apply wp_bind, wp_random0_ok; [exact Hr|].
  intros qx Hx0 Hx1. apply wp_ret. wp_bind_gets.
  apply wp_bind. unfold random1 at 1. apply wp_bind, wp_random0_ok; [exact Hr|].
  intros qy Hy0 Hy1. apply wp_ret.
  apply wp_bind, wp_random2_fin; [exact Hr | discriminate |].
  intros size Hz0 _ Hz1. specialize (Hz1 eq_refl).
  apply wp_bind, wp_random2_fin; [exact Hr | discriminate |].
  intros h Hh0 _ Hh1. specialize (Hh1 eq_refl). wp_bind_gets.
  apply wp_bind, wp_random1_fin; [exact Hr | discriminate |].
  intros sat Hs0 _ Hs1. specialize (Hs1 eq_refl).
  apply wp_bind, wp_random1_fin; [exact Hr | discriminate |].
  intros idx Hi0 _ Hi1. specialize (Hi1 eq_refl).
  apply wp_bind, wp_random2_swapped; [exact Hr | reflexivity |].
  intros speed Hp0 Hp1.
  unfold push_star. apply wp_modify. cbn [stars set_rpos width height baseHue].
  eapply (HQ _ _).
  - intros b Hb. unfold star_fields. cbn [s_size s_hue s_sat s_idx s_speed].
    rewrite Hb.
    split; [exists size; auto|].
    split; [eexists; split; [reflexivity|]; rewrite Qred_correct; split; lra|].
    split; [exists sat; auto|]. split; [exists idx; auto | exists speed; auto].
  - intros W H (HW & HW0 & HH & HH0). unfold star_on_canvas. cbn [s_x s_y].
    rewrite HW, HH.
    split; (eexists; split; [reflexivity|]; rewrite Qred_correct; split; nra).
Qed.

(** The sizes of a planet follow from how [init_planet] computes them. *)
Lemma planet_made_sized (np : Z) (i : nat) (w : World) (R : Q) (p : SpaceObject) :
  planet_made (Fin (inject_Z np)) i w p ->
  (0 < np)%Z -> radius w = Fin R -> 0 < R ->
  c_len (center w) = jdiv (radius w) (Fin 2) ->
  Forall (fun q => exists l, o_len q = Fin l /\ 0 < l) (planets w) ->
  planet_sized w R p.
Proof.
  intros (_ & t & tl & r & r0 & Ht & Hvalid & Htl & Hr0 & Hr1 & Hlen & Hq0 & Hq1 & Horb)
         Hnp HR HR0 Hc Hall.
  assert (Hnpq : 0 < inject_Z np).
  { change 0 with (inject_Z 0). rewrite <- Zlt_Qlt. exact Hnp. }
  assert (Htlq : exists tq, tl = Fin tq /\ 0 < tq).
  { destruct Hvalid as [-> | (j & -> & Hj)]; cbn [target_len_of] in Htl.
    - injection Htl as <-. rewrite Hc, HR.
      eexists. split; [reflexivity|]. rewrite Qred_correct.
      apply Qlt_shift_div_l; lra.
    - destruct (planets w !! j) as [q|] eqn:Eq; [|discriminate].
      injection Htl as <-. eapply Forall_lookup_1 in Hall; eauto. }
  destruct Htlq as (tq & -> & Htq).
  assert (El : o_len p = Fin (Qred (r * tq))) by (rewrite Hlen; reflexivity).
  exists t, tq, (Qred (r * tq)).
  destruct Hvalid as [-> | (j & -> & Hj)]; unfold orbit_of in Horb.
  - rewrite HR in Horb.
    assert (Hi : 0 <= inject_Z (Z.of_nat i)).
    { change 0 with (inject_Z 0). rewrite <- Zle_Qle. lia. }
    destruct (num_is_add _ _ _ _
      (num_is_mul _ _ _ _ (num_is_fin r0)
         (num_is_div _ _ _ _ (num_is_fin R) (num_is_fin (inject_Z np))
            ltac:(lra)))
      (num_is_mul _ _ _ _ (num_is_fin R)
         (num_is_add _ _ _ _
            (num_is_mul _ _ _ _
               (num_is_div _ _ _ _ (num_is_fin (inject_Z (Z.of_nat i)))
                  (num_is_fin (inject_Z np)) ltac:(lra))
               (num_is_fin (7 # 10)))
            (num_is_fin (3 # 10))))) as (rho & Erho & Hrho).
    unfold of_nat in Horb. rewrite Erho in Horb. exists rho.
    set (d := R / inject_Z np) in *.
    set (e := inject_Z (Z.of_nat i) / inject_Z np) in *.
    assert (Hd : 0 < d) by (unfold d; apply Qlt_shift_div_l; lra).
    assert (He : 0 <= e) by (unfold e; apply Qle_shift_div_l; lra).
    split; [exact Ht|]. split; [exact Htl|]. split; [exact Htq|].
    split; [exact El|].
    split; [rewrite Qred_correct; nra|]. split; [rewrite Qred_correct; nra|].
    split; [exact Horb|]. split; [nra|]. intros _. nra.
  - rewrite El in Horb.
    destruct (num_is_add _ _ _ _
      (num_is_mul _ _ _ _ (num_is_fin r0)
         (num_is_div _ _ _ _ (num_is_fin tq) (num_is_fin 4) ltac:(lra)))
      (num_is_div _ _ _ _
         (num_is_add _ _ _ _ (num_is_fin (Qred (r * tq))) (num_is_fin tq))
         (num_is_fin 2) ltac:(lra))) as (rho & Erho & Hrho).
    rewrite Erho in Horb. exists rho.
    rewrite Qred_correct in Hrho.
    assert (E4 : tq / 4 == tq * (1 # 4)) by (field).
    assert (E2 : (r * tq + tq) / 2 == (r * tq + tq) * (1 # 2)) by (field).
    rewrite E4, E2 in Hrho.
    split; [exact Ht|]. split; [exact Htl|]. split; [exact Htq|].
    split; [exact El|].
    split; [rewrite Qred_correct; nra|]. split; [rewrite Qred_correct; nra|].
    split; [exact Horb|]. split; [nra|]. intros [=].
Qed.

Lemma planet_sized_mono w w' R p l :
  planets w' = planets w ++ l -> center w' = center w ->
  planet_sized w R p -> planet_sized w' R p.
Proof.
  intros Hps Hc (t & tl & len & rho & Ht & Htl & H).
  exists t, tl, len, rho. split; [exact Ht|]. split; [|exact H].
  destruct t as [|j]; cbn [target_len_of] in *; [rewrite Hc; exact Htl|].
  rewrite Hps. destruct (planets w !! j) as [q|] eqn:E; [|discriminate].
  rewrite (lookup_app_l_Some _ _ _ _ E). exact Htl.
Qed.

Lemma planet_sized_len w R p :
  planet_sized w R p -> exists l, o_len p = Fin l /\ 0 < l.
Proof.
  intros (t & tl & l & rho & _ & _ & Htl & Hl & Hlo & _).
  exists l. split; [exact Hl | lra].
Qed.

Lemma radius_of_canvas (W H : Q) :
  0 < W -> 0 < H ->
  exists R, jmul (jmin (Fin W) (Fin H)) (Fin (9 # 20)) = Fin R /\ 0 < R /\
    (W <= H /\ R == W * (9 # 20) \/ H <= W /\ R == H * (9 # 20)).
Proof.
  intros HW HH. unfold jmin. destruct (jle (Fin W) (Fin H)) eqn:E.
  - apply jle_fin in E. eexists. split; [reflexivity|].
    rewrite Qred_correct. split; [lra|]. left. split; [exact E | reflexivity].
  - apply not_true_iff_false in E. rewrite jle_fin in E.
    eexists. split; [reflexivity|].
    rewrite Qred_correct. split; [lra|]. right. split; [lra | reflexivity].
Qed.

Lemma to_nat_whole (k : Z) : to_nat (Fin (inject_Z k)) = Z.to_nat k.
Proof. unfold to_nat. rewrite Qceiling_Z. reflexivity. Qed.

Lemma init_spec_full w0 :
  rng_ok w0 -> wp init (fun _ w ops => ops = [] /\ scene_fields w0 w) w0.
Proof.
  intros Hr. unfold init.
  apply wp_bind, wp_modify. apply wp_bind, wp_modify. apply wp_bind, wp_modify.
  apply wp_bind, (wp_rInt 70 120); [exact Hr | lia |]. intros n Hn.
  do 4 apply wp_bind, wp_modify.
  apply wp_bind, wp_random0_ok; [exact Hr|]. intros b Hb0 Hb1.
  apply wp_bind, wp_modify.
  apply wp_bind, wp_random2_fin; [exact Hr | discriminate |].
  intros m Hm0 _ Hm1. specialize (Hm1 eq_refl).
  apply wp_bind, wp_random0. cbv beta. apply wp_bind, wp_modify.
  apply wp_bind, wp_random2_fin; [exact Hr | discriminate |].
  intros vq Hv0 _ _.
  match goal with |- wp _ _ ?w => set (w1 := w) end.
  assert (Hlay : layout_ok w0 n w1) by (repeat split).
  assert (Hhost : host_same w0 w1) by (repeat split).
  assert (Hr1 : rng_ok w1) by exact Hr.
  assert (Hp1 : planets w1 = []) by reflexivity.
  assert (Hs1 : stars w1 = []) by reflexivity.
  assert (Ha1 : arcs w1 = []) by reflexivity.
  assert (Hb : baseHue w1 = Fin b) by reflexivity.
  assert (Hpal : palette_ok w1).
  { split; [exists b; auto|]. unfold w1. cbn [hueRange set_rpos set_hueRange].
    match goal with |- context [jlt ?s (Fin (1 # 2))] =>
      destruct (jlt s (Fin (1 # 2))) end;
      (eexists; split; [reflexivity|]; rewrite Qred_correct; lra). }
  clearbody w1.
  (* the arcs *)
  apply wp_bind.
  eapply wp_mono.
  { apply (wp_for_range (fun _ w ops =>
      ops = [] /\ rng_ok w /\ layout_ok w0 n w /\ host_same w0 w /\
      palette_ok w /\ baseHue w = Fin b /\ hueRange w = hueRange w1 /\
      planets w = [] /\ stars w = [] /\
      Forall (arc_fields (Fin b) (hueRange w1)) (arcs w))).
    - rewrite Ha1. repeat (split; [assumption || reflexivity|]). constructor.
    - intros j w ops _ (-> & Hrw & Hl & Hh & Hpa & Hbw & Hhw & Hp & Hs & Hall).
      apply (wp_init_arc_full vq n); [exact Hrw | apply Hl | lia | lra |].
      intros o p Ho. rewrite Hbw, Hhw in Ho.
      split; [reflexivity|]. split; [exact Hrw|]. split; [exact Hl|].
      split; [exact Hh|]. split; [exact Hpa|]. split; [exact Hbw|].
      split; [exact Hhw|]. split; [exact Hp|]. split; [exact Hs|].
      cbn [arcs set_arcs]. apply Forall_app. split; [exact Hall|].
      constructor; [exact Ho | constructor]. }
  intros [] w2 ops2 (-> & Hr2 & Hl2 & Hh2 & Hpa2 & Hb2 & Hhr2 & Hp2 & Hs2 & Hall2).
  cbv beta. apply wp_bind, wp_modify.
  (* the planets *)
  apply wp_bind, (wp_rInt 2 7); [exact Hr2 | lia |]. intros k Hk.
  match goal with |- wp _ _ ?w => set (w3 := w) end.
  assert (Hl3 : layout_ok w0 n w3) by exact Hl2.
  assert (Hh3 : host_same w0 w3) by exact Hh2.
  assert (Hr3 : rng_ok w3) by exact Hr2.
  assert (Hpa3 : palette_ok w3) by exact Hpa2.
  assert (Hb3 : baseHue w3 = Fin b) by exact Hb2.
  assert (Hhr3 : hueRange w3 = hueRange w1) by exact Hhr2.
  assert (Hp3 : planets w3 = []) by exact Hp2.
  assert (Hs3 : stars w3 = []) by exact Hs2.
  assert (Ha3 : arcs w3 = sort by_len_desc (arcs w2)) by reflexivity.
  clearbody w3.
  apply wp_bind.
  eapply wp_mono.
  { apply (wp_for_range (fun i w ops =>
      ops = [] /\ rng_ok w /\ layout_ok w0 n w /\ host_same w0 w /\
      palette_ok w /\ baseHue w = Fin b /\ hueRange w = hueRange w1 /\
      arcs w = sort by_len_desc (arcs w2) /\ stars w = [] /\
      length (planets w) = i /\ Forall planet_fields (planets w) /\
      (forall W H, canvas_is w0 W H ->
         exists R, radius w = Fin R /\
           (W <= H /\ R == W * (9 # 20) \/ H <= W /\ R == H * (9 # 20)) /\
           Forall (planet_sized w R) (planets w)))).
    - rewrite Hp3. repeat (split; [assumption || reflexivity|]).
      split; [constructor|]. intros W H (HW & HW0 & HH & HH0).
      destruct Hl3 as (_ & _ & _ & _ & Hrad & _). rewrite HW, HH in Hrad.
      destruct (radius_of_canvas W H HW0 HH0) as (R & ER & HR0 & HR).
      exists R. split; [congruence|]. split; [exact HR | constructor].
    - intros j w ops _
        (-> & Hrw & Hl & Hh & Hpa & Hbw & Hhw & Ha & Hs & Hlen & Hpf & Hsz).
      apply wp_init_planet_full; [exact Hrw|].
      intros p rp Hp.
      split; [reflexivity|]. split; [exact Hrw|]. split; [exact Hl|].
      split; [exact Hh|]. split; [exact Hpa|]. split; [exact Hbw|].
      split; [exact Hhw|]. split; [exact Ha|]. split; [exact Hs|].
      cbn [planets set_planets radius set_rpos].
      split; [rewrite length_app, Hlen; simpl; lia|].
      split; [apply Forall_app; split; [exact Hpf|];
              constructor; [apply Hp | constructor]|].
      intros W H Hcan. destruct (Hsz W H Hcan) as (R & ER & HR & Hold).
      exists R. split; [exact ER|]. split; [exact HR|].
      assert (HR0 : 0 < R).
      { destruct Hcan as (_ & HW0 & _ & HH0). destruct HR as [[_ E]|[_ E]]; 
          rewrite E; lra. }
      assert (Hnew : planet_sized w R p).
      { apply (planet_made_sized k j w R p Hp); [lia | exact ER | exact HR0 | |].
        - destruct Hl as (_ & _ & _ & _ & _ & _ & ->). reflexivity.
        - eapply Forall_impl; [exact Hold|]. intros q. apply planet_sized_len. }
      apply Forall_app. split.
      + eapply Forall_impl; [exact Hold|]. intros q.
        apply (planet_sized_mono w _ R q [p]); reflexivity.
      + constructor; [|constructor].
        apply (planet_sized_mono w _ R p [p]); [reflexivity.. | exact Hnew]. }
  intros [] w4 ops4
    (-> & Hr4 & Hl4 & Hh4 & Hpa4 & Hb4 & Hhr4 & Ha4 & Hs4 & Hlen4 & Hpf4 & Hsz4).
  cbv beta.
  (* the stars *)
  eapply wp_mono.
  { apply (wp_for_range (fun _ w ops =>
      ops = [] /\ rng_ok w /\ layout_ok w0 n w /\ host_same w0 w /\
      palette_ok w /\ baseHue w = Fin b /\ hueRange w = hueRange w1 /\
      arcs w = arcs w4 /\ planets w = planets w4 /\
      Forall (star_fields b) (stars w) /\
      (forall W H, canvas_is w0 W H -> Forall (star_on_canvas W H) (stars w)))).
    - rewrite Hs4. repeat (split; [assumption || reflexivity|]).
      split; [constructor|]. intros W H _. constructor.
    - intros j w ops _ (-> & Hrw & Hl & Hh & Hpa & Hbw & Hhw & Ha & Hp & Hsf & Hsc).
      apply wp_init_star_full; [exact Hrw|]. intros s p Hs Hon.
      split; [reflexivity|]. split; [exact Hrw|]. split; [exact Hl|].
      split; [exact Hh|]. split; [exact Hpa|]. split; [exact Hbw|].
      split; [exact Hhw|].
      split; [exact Ha|]. split; [exact Hp|]. cbn [stars set_stars].
      split; [apply Forall_app; split; [exact Hsf|];
              constructor; [apply Hs, Hbw | constructor]|].
      intros W H Hcan. apply Forall_app. split; [apply Hsc, Hcan|].
      constructor; [|constructor]. apply Hon.
      destruct Hh as (Ew & Eh & _). unfold canvas_is. rewrite Ew, Eh. exact Hcan. }
  intros [] w5 ops5
    (-> & Hr5 & Hl5 & Hh5 & Hpa5 & Hb5 & Hhr5 & Ha5 & Hp5 & Hsf5 & Hsc5).
  cbv beta. rewrite app_nil_r. split; [reflexivity|].
  split; [exact Hh5|]. split; [exact Hpa5|].
  split; [rewrite Hb5, Hhr5, Ha5, Ha4; apply sort_Forall, Hall2|].
  split; [rewrite Hp5, Hlen4, to_nat_whole; lia|].
  split; [rewrite Hp5; exact Hpf4|].
  split; [intros b' Eb; rewrite Hb5 in Eb; injection Eb as <-; exact Hsf5|].
  intros W H Hcan. destruct (Hsz4 W H Hcan) as (R & ER & HR & Hsized).
  assert (Erad : radius w5 = radius w4).
  { destruct Hl5 as (_ & _ & _ & _ & -> & _).
    destruct Hl4 as (_ & _ & _ & _ & -> & _). reflexivity. }
  assert (Ecen : center w5 = center w4).
  { destruct Hl5 as (_ & _ & _ & _ & _ & _ & ->).
    destruct Hl4 as (_ & _ & _ & _ & _ & _ & ->). rewrite Erad. reflexivity. }
  exists R. split; [congruence|]. split; [exact HR|].
  split; [|apply Hsc5, Hcan].
  rewrite Hp5. eapply Forall_impl; [exact Hsized|]. intros q.
  apply (planet_sized_mono w4 w5 R q []); [rewrite app_nil_r; exact Hp5 | exact Ecen].
Qed.

Lemma init_total_full w0 :
  rng_ok w0 ->
  init w0 = Some (tt, scene_of w0, []) /\
  scene_inv w0 (scene_of w0) /\ scene_fields w0 (scene_of w0).
Proof.
  intros Hr. pose proof (init_spec_full w0 Hr) as H.
  destruct (init_total w0 Hr) as (ops & E & Hinv).
  apply wp_run in H as ([] & w & ops' & E' & -> & Hf).
  rewrite E in E'. injection E' as <- ->. auto.
Qed.

(** X1.  [init] leaves a whole [numCircles] from [70] to [120], a
    [baseHue] in [[0, 1)] and a [hueRange] whose magnitude is at least
    [1/5] and at most [7/10]. *)
Theorem generated_palette (w0 : World) :
  rng_ok w0 ->
  exists w,
    init w0 = Some (tt, w, []) /\
    (exists n : Z, (70 <= n <= 120)%Z /\ numCircles w = Fin (inject_Z n)) /\
    (exists b, baseHue w = Fin b /\ 0 <= b /\ b < 1) /\
    (exists h, hueRange w = Fin h /\
       ((1 # 5) <= h /\ h <= (7 # 10) \/ - (7 # 10) <= h /\ h <= - (1 # 5))).
Proof.
  intros Hr. destruct (init_total_full w0 Hr) as (E & Hinv & Hf).
  exists (scene_of w0). split; [exact E|].
  destruct Hinv as (n & Hn & Hlay & _).
  destruct Hf as (_ & [Hb (h & Eh & Hh)] & _).
  split; [exists n; split; [lia | apply Hlay]|]. split; [exact Hb|].
  exists h. split; [exact Eh|]. lra.
Qed.

Lemma generated_palette_witness :
  exists w,
    init blank_tenth = Some (tt, w, []) /\
    (exists n : Z, (70 <= n <= 120)%Z /\ numCircles w = Fin (inject_Z n)) /\
    (exists b, baseHue w = Fin b /\ 0 <= b /\ b < 1) /\
    (exists h, hueRange w = Fin h /\
       ((1 # 5) <= h /\ h <= (7 # 10) \/ - (7 # 10) <= h /\ h <= - (1 # 5))).
Proof.
  apply (generated_palette blank_tenth).
  intros n. split; [unfold Qle; simpl; lia | reflexivity].
Defined.

(** X2.  Every arc [init] stores is not a planet and has no hue, target
    or position; its color is the palette color at a progress in
    [[0, 1]]; its angle is in [[0, TAU)]; its speed is strictly between
    [-0.006] and [0.006]. *)
Theorem generated_arc_fields (w0 : World) :
  rng_ok w0 ->
  exists w,
    init w0 = Some (tt, w, []) /\
    forall o, o ∈ arcs w ->
      o_isPlanet o = false /\ o_hue o = None /\ o_target o = None /\
      o_x o = None /\ o_y o = None /\
      (exists s, 0 <= s /\ s <= 1 /\
         o_col o = Some (colorMapAt (baseHue w) (hueRange w) (Fin s) None)) /\
      (exists a, o_angle o = Fin a /\ 0 <= a /\ jlt (Fin a) TAU = true) /\
      (exists v, o_speed o = Fin v /\ - (3 # 500) < v /\ v < (3 # 500)).
Proof.
  intros Hr. destruct (init_total_full w0 Hr) as (E & _ & Hf).
  exists (scene_of w0). split; [exact E|].
  destruct Hf as (_ & _ & Harcs & _). rewrite Forall_forall in Harcs.
  intros o Ho. apply (Harcs o Ho).
Qed.

Lemma generated_arc_fields_witness :
  exists w,
    init blank_tenth = Some (tt, w, []) /\
    forall o, o ∈ arcs w ->
      o_isPlanet o = false /\ o_hue o = None /\ o_target o = None /\
      o_x o = None /\ o_y o = None /\
      (exists s, 0 <= s /\ s <= 1 /\
         o_col o = Some (colorMapAt (baseHue w) (hueRange w) (Fin s) None)) /\
      (exists a, o_angle o = Fin a /\ 0 <= a /\ jlt (Fin a) TAU = true) /\
      (exists v, o_speed o = Fin v /\ - (3 # 500) < v /\ v < (3 # 500)).
Proof.
  apply (generated_arc_fields blank_tenth).
  intros n. split; [unfold Qle; simpl; lia | reflexivity].
Defined.

(** X3.  [init] stores at least 2 and at most 6 planets; the first one
    orbits the center; each is marked as a planet, has no color, a hue
    offset in [[-0.15, 0.15)], an angle in [[0, TAU)] and a speed in
    [[0.001, 0.0025)]. *)
Theorem generated_planets (w0 : World) :
  rng_ok w0 ->
  exists w,
    init w0 = Some (tt, w, []) /\
    (2 <= length (planets w) < 7)%nat /\
    (exists p, planets w !! 0%nat = Some p /\ o_target p = Some TCenter) /\
    forall p, p ∈ planets w ->
      o_isPlanet p = true /\ o_col p = None /\ o_x p = None /\ o_y p = None /\
      (exists h, o_hue p = Some (Fin h) /\ - (3 # 20) <= h /\ h < (3 # 20)) /\
      (exists a, o_angle p = Fin a /\ 0 <= a /\ jlt (Fin a) TAU = true) /\
      (exists v, o_speed p = Fin v /\ (1 # 1000) <= v /\ v < (1 # 400)).
Proof.
  intros Hr. destruct (init_total_full w0 Hr) as (E & Hinv & Hf).
  exists (scene_of w0). split; [exact E|].
  destruct Hf as (_ & _ & _ & Hlen & Hpf & _).
  destruct Hinv as (n & _ & _ & _ & _ & _ & Ht & _).
  split; [exact Hlen|]. split.
  - destruct (lookup_lt_is_Some_2 (planets (scene_of w0)) 0%nat) as [p Hp]; [lia|].
    exists p. split; [exact Hp|].
    destruct (Ht 0%nat p Hp) as [-> | (j & Hj & _)]; [reflexivity | lia].
  - rewrite Forall_forall in Hpf. intros p Hp. apply (Hpf p Hp).
Qed.

Lemma generated_planets_witness :
  exists w,
    init blank_tenth = Some (tt, w, []) /\
    (2 <= length (planets w) < 7)%nat /\
    (exists p, planets w !! 0%nat = Some p /\ o_target p = Some TCenter) /\
    forall p, p ∈ planets w ->
      o_isPlanet p = true /\ o_col p = None /\ o_x p = None /\ o_y p = None /\
      (exists h, o_hue p = Some (Fin h) /\ - (3 # 20) <= h /\ h < (3 # 20)) /\
      (exists a, o_angle p = Fin a /\ 0 <= a /\ jlt (Fin a) TAU = true) /\
      (exists v, o_speed p = Fin v /\ (1 # 1000) <= v /\ v < (1 # 400)).
Proof.
  apply (generated_planets blank_tenth).
  intros n. split; [unfold Qle; simpl; lia | reflexivity].
Defined.

(** X4.  On a canvas with finite sides [W] and [H] of at least one
    pixel, [init] sets [radius] to [min(W, H) * .45]; every planet has a
    target with a positive length [tl]; its own length is at least
    [.5 * tl], at most [.7 * tl], and below [tl]; its orbit radius is
    positive, and at least [radius * .3] when it orbits the center.  The
    products are those the code computes. *)
Theorem generated_planet_sizes (w0 : World) (W H : Q) :
  rng_ok w0 -> width w0 = Fin W -> 1 <= W -> height w0 = Fin H -> 1 <= H ->
  exists w,
    init w0 = Some (tt, w, []) /\
    radius w = jmul (jmin (Fin W) (Fin H)) (Fin (9 # 20)) /\
    forall p, p ∈ planets w ->
      exists t tl l rho,
        o_target p = Some t /\
        target_len_of w t = Some (Fin tl) /\ 0 < tl /\
        o_len p = Fin l /\
        jle (jmul (Fin (1 # 2)) (Fin tl)) (Fin l) = true /\
        jle (Fin l) (jmul (Fin (7 # 10)) (Fin tl)) = true /\
        l < tl /\
        o_radius p = Fin rho /\ 0 < rho /\
        (t = TCenter ->
         jle (jmul (radius w) (Fin (3 # 10))) (Fin rho) = true).
Proof.
  intros Hr HW HW1 HH HH1.
  destruct (init_total_full w0 Hr) as (E & Hinv & Hf).
  destruct Hinv as (n & _ & Hlay & _).
  destruct Hlay as (_ & _ & _ & _ & Hrad & _).
  destruct Hf as (_ & _ & _ & _ & _ & _ & Hcan).
  destruct (Hcan W H) as (R & ER & HR & Hsz & _);
    [repeat split; [assumption | lra | assumption | lra]|].
  exists (scene_of w0). split; [exact E|].
  split; [rewrite Hrad, HW, HH; reflexivity|].
  rewrite Forall_forall in Hsz. intros p Hp.
  destruct (Hsz p Hp) as (t & tl & l & rho & Et & Etl & Htl & El & Hlo & Hhi
                          & Erho & Hrho & Hcen).
  exists t, tl, l, rho.
  split; [exact Et|]. split; [exact Etl|]. split; [exact Htl|].
  split; [exact El|].
  split; [apply Qle_bool_iff; rewrite Qred_correct; lra|].
  split; [apply Qle_bool_iff; rewrite Qred_correct; lra|].
  split; [lra|]. split; [exact Erho|]. split; [exact Hrho|].
  intros Ec. rewrite ER. apply Qle_bool_iff. rewrite Qred_correct.
  apply Hcen, Ec.
Qed.

Lemma generated_planet_sizes_witness :
  exists w,
    init blank_tenth = Some (tt, w, []) /\
    radius w = jmul (jmin (Fin 800) (Fin 600)) (Fin (9 # 20)) /\
    forall p, p ∈ planets w ->
      exists t tl l rho,
        o_target p = Some t /\
        target_len_of w t = Some (Fin tl) /\ 0 < tl /\
        o_len p = Fin l /\
        jle (jmul (Fin (1 # 2)) (Fin tl)) (Fin l) = true /\
        jle (Fin l) (jmul (Fin (7 # 10)) (Fin tl)) = true /\
        l < tl /\
        o_radius p = Fin rho /\ 0 < rho /\
        (t = TCenter ->
         jle (jmul (radius w) (Fin (3 # 10))) (Fin rho) = true).
Proof.
  apply (generated_planet_sizes blank_tenth 800 600);
    [| reflexivity | discriminate | reflexivity | discriminate].
  intros n. split; [unfold Qle; simpl; lia | reflexivity].
Defined.

(** X5.  Every star [init] stores has a size from [2] to [5], a hue
    from [-.2 + baseHue] to [.2 + baseHue] as the code adds them (so
    possibly outside [[0, 1]]), a saturation in [[0, 0.7)], a noise index
    in [[0, 1e7)] and a speed from [0.01] to [0.1] (the bounds of
    [random(.1, .01)] are given in descending order); on a canvas with
    finite sides of at least one pixel it lies on the canvas. *)
Theorem generated_star_fields (w0 : World) (W H : Q) :
  rng_ok w0 -> width w0 = Fin W -> 1 <= W -> height w0 = Fin H -> 1 <= H ->
  exists w,
    init w0 = Some (tt, w, []) /\
    forall s, s ∈ stars w ->
      (exists v, s_x s = Fin v /\ 0 <= v /\ v < W) /\
      (exists v, s_y s = Fin v /\ 0 <= v /\ v < H) /\
      (exists v, s_size s = Fin v /\ 2 <= v /\ v <= 5) /\
      (exists v, s_hue s = Fin v /\
         jle (jadd (Fin (- (1 # 5))) (baseHue w)) (Fin v) = true /\
         jle (Fin v) (jadd (Fin (1 # 5)) (baseHue w)) = true) /\
      (exists v, s_sat s = Fin v /\ 0 <= v /\ v < (7 # 10)) /\
      (exists v, s_idx s = Fin v /\ 0 <= v /\ v < 10000000) /\
      (exists v, s_speed s = Fin v /\ (1 # 100) <= v /\ v <= (1 # 10)).
Proof.
  intros Hr HW HW1 HH HH1.
  destruct (init_total_full w0 Hr) as (E & _ & Hf).
  destruct Hf as (_ & [(b & Hb & _) _] & _ & _ & _ & Hsf & Hcan).
  destruct (Hcan W H) as (R & _ & _ & _ & Hon);
    [repeat split; [assumption | lra | assumption | lra]|].
  exists (scene_of w0). split; [exact E|].
  specialize (Hsf b Hb). rewrite Forall_forall in Hsf, Hon.
  intros s Hs. destruct (Hon s Hs) as [Hx Hy].
  destruct (Hsf s Hs) as ((v1 & E1 & H1) & (v2 & E2 & H2) & Hsat & Hidx
                          & (v5 & E5 & H5)).
  split; [exact Hx|]. split; [exact Hy|].
  split; [exists v1; split; [exact E1 | lra]|].
  split.
  { exists v2. split; [exact E2|]. rewrite Hb.
    split; apply Qle_bool_iff; rewrite Qred_correct; lra. }
  split; [exact Hsat|]. split; [exact Hidx|].
  exists v5. split; [exact E5 | lra].
Qed.

Lemma generated_star_fields_witness :
  exists w,
    init blank_tenth = Some (tt, w, []) /\
    forall s, s ∈ stars w ->
      (exists v, s_x s = Fin v /\ 0 <= v /\ v < 800) /\
      (exists v, s_y s = Fin v /\ 0 <= v /\ v < 600) /\
      (exists v, s_size s = Fin v /\ 2 <= v /\ v <= 5) /\
      (exists v, s_hue s = Fin v /\
         jle (jadd (Fin (- (1 # 5))) (baseHue w)) (Fin v) = true /\
         jle (Fin v) (jadd (Fin (1 # 5)) (baseHue w)) = true) /\
      (exists v, s_sat s = Fin v /\ 0 <= v /\ v < (7 # 10)) /\
      (exists v, s_idx s = Fin v /\ 0 <= v /\ v < 10000000) /\
      (exists v, s_speed s = Fin v /\ (1 # 100) <= v /\ v <= (1 # 10)).
Proof.
  apply (generated_star_fields blank_tenth 800 600);
    [| reflexivity | discriminate | reflexivity | discriminate].
  intros n. split; [unfold Qle; simpl; lia | reflexivity].
Defined.

(** X6.  [init] issues no drawing call and leaves the canvas size, the
    frame counter, the pointer position, the random sequence,
    [mouseDown] and the table of [noise] as they were. *)
Theorem init_keeps_host (w0 : World) :
  rng_ok w0 ->
  exists w,
    init w0 = Some (tt, w, []) /\
    width w = width w0 /\ height w = height w0 /\
    frameCount w = frameCount w0 /\ mouseX w = mouseX w0 /\
    mouseY w = mouseY w0 /\ rng w = rng w0 /\ mouseDown w = mouseDown w0 /\
    perlin w = perlin w0.
Proof.
  intros Hr. destruct (init_total_full w0 Hr) as (E & _ & Hf).
  exists (scene_of w0). split; [exact E | apply Hf].
Qed.

Lemma init_keeps_host_witness :
  exists w,
    init small_world = Some (tt, w, []) /\
    width w = width small_world /\ height w = height small_world /\
    frameCount w = frameCount small_world /\ mouseX w = mouseX small_world /\
    mouseY w = mouseY small_world /\ rng w = rng small_world /\
    mouseDown w = mouseDown small_world /\ perlin w = perlin small_world.
Proof.
  apply (init_keeps_host small_world).
  intros n. split; [unfold Qle; simpl; lia | reflexivity].
Defined.

(** ** Regeneration *)

Lemma init_split w : init w = bind init_globals init_loops w.
Proof.
  symmetry. unfold init, init_globals.
  do 13 (rewrite bind_assoc_at; apply bind_ext; intros ? ?).
  reflexivity.
Qed.

Lemma init_globals_forgets w1 w2 :
  host_same w1 w2 -> rpos w2 = rpos w1 -> init_globals w1 = init_globals w2.
Proof.
  intros (Ew & Eh & Ef & Ex & Ey & Er & Em & Ek) Ep.
  destruct w1, w2. cbn in Ew, Eh, Ef, Ex, Ey, Er, Em, Ek, Ep. subst. reflexivity.
Qed.

(** X7.  Nothing of the old scene survives a regeneration: from two
    worlds with the same canvas, frame counter, pointer, [mouseDown],
    random source and table of [noise], [init] gives the same result,
    whatever their arcs, planets, stars, palette and layout globals
    were. *)
Theorem init_forgets_scene (w1 w2 : World) :
  host_same w1 w2 -> rpos w2 = rpos w1 -> init w1 = init w2.
Proof.
  intros Hh Hp. rewrite !init_split. unfold bind.
  rewrite (init_globals_forgets w1 w2 Hh Hp). reflexivity.
Qed.

Lemma init_forgets_scene_witness :
  init small_world
  = init (set_arcs [] (set_planets [] (set_baseHue (Fin 0) small_world))).
Proof.
  apply (init_forgets_scene small_world
           (set_arcs [] (set_planets [] (set_baseHue (Fin 0) small_world)))).
  - unfold host_same. simpl. repeat split.
  - reflexivity.
Defined.

(** ** The event handlers *)

(** X8.  A press of the secondary button ([evt.button == 2]) runs [init]
    and returns [false]; the new scene replaces the old one and
    [mouseDown] stays as it was, so a zoom in progress goes on. *)
Theorem mousePressed_secondary_regenerates (w0 : World) :
  rng_ok w0 ->
  exists w,
    mousePressed (Fin 2) w0 = Some (false, w, []) /\
    init w0 = Some (tt, w, []) /\
    mouseDown w = mouseDown w0 /\
    length (arcs w) = 2000%nat /\ length (stars w) = 1000%nat.
Proof.
  intros Hr. destruct (init_total_full w0 Hr) as (E & Hinv & Hf).
  exists (scene_of w0).
  destruct Hinv as (n & _ & _ & Ha & _ & _ & _ & _ & Hs).
  split; [|split; [exact E | split; [apply Hf | split; [rewrite Ha; reflexivity | exact Hs]]]].
  unfold mousePressed. change (jeq (Fin 2) (Fin 2)) with true. cbv iota.
  unfold bind. rewrite E. reflexivity.
Qed.

Lemma mousePressed_secondary_regenerates_witness :
  exists w,
    mousePressed (Fin 2) small_world = Some (false, w, []) /\
    init small_world = Some (tt, w, []) /\
    mouseDown w = mouseDown small_world /\
    length (arcs w) = 2000%nat /\ length (stars w) = 1000%nat.
Proof.
  apply (mousePressed_secondary_regenerates small_world).
  intros n. split; [unfold Qle; simpl; lia | reflexivity].
Defined.

(** X9.  A press of any other button only sets [mouseDown] and returns
    [false]; it draws no random number and issues no call.  Followed by
    [mouseReleased] it gives back the world it started from, when that
    world was not pressed. *)
Theorem press_then_release (button : num) (w : World) :
  jeq button (Fin 2) = false -> mouseDown w = false ->
  mousePressed button w = Some (false, set_mouseDown true w, []) /\
  mouseReleased (set_mouseDown true w) = Some (tt, w, []) /\
  (b <- mousePressed button ;; mouseReleased) w = Some (tt, w, []).
Proof.
  intros Hb Hm. unfold mousePressed, mouseReleased, bind, modify, ret.
  rewrite Hb. destruct w. cbn in Hm. subst. repeat split.
Qed.

Lemma press_then_release_witness :
  mousePressed (Fin 0) blank_tenth
  = Some (false, set_mouseDown true blank_tenth, []) /\
  mouseReleased (set_mouseDown true blank_tenth) = Some (tt, blank_tenth, []) /\
  (b <- mousePressed (Fin 0) ;; mouseReleased) blank_tenth
  = Some (tt, blank_tenth, []).
Proof.
  apply (press_then_release (Fin 0) blank_tenth); reflexivity.
Defined.

Section ResizeFacts.

Variable resizeCanvas : num -> num -> M unit.

(** What is taken for granted of p5's [resizeCanvas]: it completes, sets
    [width] and [height], and does not touch the random sequence. *)
Hypothesis resizeCanvas_sets_size :
  forall W H w, exists w' ops,
    resizeCanvas W H w = Some (tt, w', ops) /\
    width w' = W /\ height w' = H /\ rng w' = rng w.

(** X10.  [windowResized] leaves a canvas of the window's size and a
    scene generated for it: [radius] is [0.45 * min(windowWidth,
    windowHeight)], [arcSize] is [radius/numCircles], and there are 2000
    arcs and 1000 stars, whatever the scene and the canvas were. *)
Theorem windowResized_regenerates (W H : num) (w0 : World) :
  rng_ok w0 ->
  exists w ops,
    windowResized resizeCanvas W H w0 = Some (tt, w, ops) /\
    width w = W /\ height w = H /\
    radius w = jmul (jmin W H) (Fin (9 # 20)) /\
    arcSize w = jdiv (radius w) (numCircles w) /\
    length (arcs w) = 2000%nat /\ length (stars w) = 1000%nat.
Proof.
  intros Hr.
  destruct (resizeCanvas_sets_size W H w0) as (w1 & ops & E1 & HW & HH & Hrng).
  assert (Hr1 : rng_ok w1) by (unfold rng_ok; rewrite Hrng; exact Hr).
  destruct (init_total w1 Hr1) as (ops2 & E2 & Hinv).
  destruct Hinv as (n & _ & Hlay & Ha & _ & _ & _ & _ & Hs).
  destruct Hlay as (_ & Ew & Eh & _ & Hrad & Hasz & _).
  exists (scene_of w1), (ops ++ ops2).
  split; [unfold windowResized, bind; rewrite E1, E2; reflexivity|].
  split; [congruence|]. split; [congruence|].
  split; [rewrite Hrad, HW, HH; reflexivity|].
  split; [exact Hasz|]. split; [rewrite Ha; reflexivity | exact Hs].
Qed.

End ResizeFacts.

Lemma windowResized_regenerates_witness :
  exists w ops,
    windowResized resize_only (Fin 1024) (Fin 768) small_world = Some (tt, w, ops) /\
    width w = Fin 1024 /\ height w = Fin 768 /\
    radius w = jmul (jmin (Fin 1024) (Fin 768)) (Fin (9 # 20)) /\
    arcSize w = jdiv (radius w) (numCircles w) /\
    length (arcs w) = 2000%nat /\ length (stars w) = 1000%nat.
Proof.
  apply (windowResized_regenerates resize_only).
  - intros W H w. exists (set_size W H w), []. repeat split.
  - intros n. split; [unfold Qle; simpl; lia | reflexivity].
Defined.

(** ** [rInt] *)

(** X11.  For whole bounds of magnitude at most [2^52], given in either
    order, [rInt] draws one random number and returns a whole number from
    the smaller bound to the larger one.  (The magnitudes are bounded so
    that the difference of the bounds is a binary64 number; the exact
    arithmetic of the proof does not need it.) *)
Theorem rInt_range (a b : Z) (w : World) :
  rng_ok w ->
  (Z.abs a <= 2 ^ 52)%Z -> (Z.abs b <= 2 ^ 52)%Z ->
  exists k : Z,
    rInt (Fin (inject_Z b)) (Fin (inject_Z a)) w
    = Some (Fin (inject_Z k), set_rpos (S (rpos w)) w, []) /\
    (Z.min a b <= k <= Z.max a b)%Z.
Proof.
  intros Hr _ _.
  cut (wp (rInt (Fin (inject_Z b)) (Fin (inject_Z a)))
         (fun v w' ops => exists k : Z,
            Some (v, w', ops) = Some (Fin (inject_Z k), set_rpos (S (rpos w)) w, [])
            /\ (Z.min a b <= k <= Z.max a b)%Z) w).
  { unfold wp. destruct (rInt _ _ w) as [[[v w'] ops]|]; [|tauto].
    intros (k & E & H). exists k. split; [exact E | exact H]. }
  destruct (Z.eq_dec a b) as [<- | Hne].
  - unfold rInt. apply wp_bind.
    assert (E : jmin (Fin (inject_Z a)) (Fin (inject_Z a)) = Fin (inject_Z a)
                /\ jmax (Fin (inject_Z a)) (Fin (inject_Z a)) = Fin (inject_Z a)).
    { unfold jmin, jmax. destruct (jle _ _); auto. }
    destruct E as [-> ->].
    apply wp_random2_fin; [exact Hr | apply Qle_refl |].
    intros r Hlo Hhi _. apply wp_ret. exists a. cbn [jfloor].
    assert (Er : Qfloor r = a).
    { rewrite (Qfloor_comp r (inject_Z a)) by lra. apply Qfloor_Z. }
    rewrite Er. split; [reflexivity|]. lia.
  - apply wp_rInt; [exact Hr | lia |]. intros k Hk.
    exists k. split; [reflexivity|]. lia.
Qed.

Lemma rInt_range_witness :
  exists k : Z,
    rInt (Fin (inject_Z 70)) (Fin (inject_Z 120)) blank_tenth
    = Some (Fin (inject_Z k), set_rpos (S (rpos blank_tenth)) blank_tenth, []) /\
    (Z.min 120 70 <= k <= Z.max 120 70)%Z.
Proof.
  apply (rInt_range 120 70 blank_tenth); [| vm_compute; discriminate ..].
  intros n. split; [unfold Qle; simpl; lia | reflexivity].
Defined.

(** ** The calls of a tick *)

Lemma for_down_to_zero_run start (s : Q) body (f : num -> list Op) w :
  0 < s -> start <> PInf ->
  (forall i, body i w = Some (tt, w, f i)) ->
  for_down_to_zero start (Fin s) body w
  = Some (tt, w, concat (map f (loop_values start (Fin s)))).
Proof.
  intros Hs Hstart Hbody. unfold for_down_to_zero, loop_values.
  destruct start as [a| | |]; [| congruence | reflexivity | reflexivity].
  destruct (Qlt_le_dec a 0) as [Hneg | Hpos].
  - assert (E : jge (Fin a) (Fin 0) = false).
    { apply not_true_iff_false. unfold jge. rewrite jle_fin. lra. }
    assert (E' : Qle_bool 0 a = false).
    { apply not_true_iff_false. rewrite Qle_bool_iff. lra. }
    rewrite E'. destruct (down_fuel (Fin a) (Fin s)); cbn [for_down];
      rewrite E; reflexivity.
  - rewrite (proj2 (Qle_bool_iff 0 a) Hpos).
    rewrite for_down_values; [| exact Hs | exact Hpos |].
    + apply for_list_emits, Hbody.
    + unfold down_fuel. rewrite (proj2 (Qltb_lt 0 s) Hs). lia.
Qed.

Lemma down_values_length (n : nat) : forall a s, length (down_values n a s) = n.
Proof.
  induction n as [|n IH]; intros a s; [reflexivity|].
  cbn [down_values length]. rewrite IH. reflexivity.
Qed.

(** The counter of a descending loop takes [floor(start/step) + 1]
    values when the start is not negative, and none otherwise. *)
Lemma loop_values_length (a s : Q) :
  0 <= a -> length (loop_values (Fin a) (Fin s)) = S (Z.to_nat (Qfloor (a / s))).
Proof.
  intros Ha. unfold loop_values. rewrite (proj2 (Qle_bool_iff 0 a) Ha).
  apply down_values_length.
Qed.

Section FrameFacts.

Variables cos sin : num -> num.
Variables atan2 hypot : num -> num -> num.
Variable noise_value : list num -> num -> num -> num.

Lemma wp_draw_rings_calls w (Q : unit -> World -> list Op -> Prop) :
  numCircles w <> PInf ->
  Q tt w (concat (map (ring_ops w) (loop_values (numCircles w) (Fin 1)))) ->
  wp draw_rings Q w.
Proof.
  intros Hn HQ. unfold draw_rings. wp_bind_gets.
  eapply wp_of_eq; [|exact HQ].
  apply for_down_to_zero_run; [reflexivity | exact Hn |].
  intros i. reflexivity.
Qed.

Lemma wp_draw_arc_calls i o w (Q : unit -> World -> list Op -> Prop) :
  arc_drawable o = true ->
  Q tt (set_arcs (<[i := advance o]> (arcs w)) w) (arc_calls (advance o)) ->
  wp (draw_arc i o) Q w.
Proof.
  intros Hcol HQ. unfold draw_arc. cbv zeta.
  apply wp_bind, wp_modify. apply wp_bind, wp_of_option.
  destruct (arc_drawable_col o Hcol) as [[[h s] b] Hc].
  exists (h, s, b). split; [exact Hc|].
  apply wp_bind, wp_emit. apply wp_emit.
  unfold arc_calls in HQ. change (o_col (advance o)) with (o_col o) in HQ.
  rewrite Hc in HQ. exact HQ.
Qed.

Lemma wp_draw_arcs_calls w (Q : unit -> World -> list Op -> Prop) :
  forallb arc_drawable (arcs w) = true ->
  Q tt (set_arcs (advance <$> arcs w) w)
    (concat (map arc_calls (advance <$> arcs w))) ->
  wp (for_of arcs draw_arc) Q w.
Proof.
  intros Hall HQ.
  eapply wp_mono.
  { apply (wp_for_of arcs draw_arc (fun i w' ops =>
      w' = set_arcs (arcs w') w /\
      length (arcs w') = length (arcs w) /\
      (forall j, (j < i)%nat -> arcs w' !! j = advance <$> arcs w !! j) /\
      (forall j, (i <= j)%nat -> arcs w' !! j = arcs w !! j) /\
      ops = concat (map arc_calls (advance <$> take i (arcs w))))).
    - split; [symmetry; apply set_arcs_same|]. split; [reflexivity|].
      split; [intros j Hj; lia |]. split; reflexivity.
    - intros i w' ops Hi (Hw & Hlen & Hlo & Hhi & Hops).
      destruct (lookup_lt_is_Some_2 (arcs w) i Hi) as [o Ho].
      exists o. split; [rewrite Hhi by lia; exact Ho|].
      apply wp_draw_arc_calls; [apply (forallb_lookup _ _ i o Hall Ho)|].
      cbn [arcs set_arcs].
      split; [rewrite Hw at 2; reflexivity|].
      split; [rewrite length_insert; exact Hlen|]. split; [|split].
      + intros j Hj. destruct (decide (i = j)) as [<- | Hne].
        * rewrite list_lookup_insert_eq by lia. rewrite Ho. reflexivity.
        * rewrite list_lookup_insert_ne by exact Hne. apply Hlo. lia.
      + intros j Hj. rewrite list_lookup_insert_ne by lia. apply Hhi. lia.
      + rewrite Hops, (take_S_r _ _ _ Ho), fmap_app, map_app, concat_app.
        cbn [fmap list_fmap map concat]. rewrite app_nil_r. reflexivity. }
  intros [] w' ops (Hw & Hlen & Hlo & _ & Hops). cbv beta.
  assert (E : arcs w' = advance <$> arcs w).
  { apply list_eq. intros j. rewrite list_lookup_fmap.
    destruct (decide (j < length (arcs w))%nat) as [Hj | Hj]; [apply Hlo, Hj|].
    rewrite !lookup_ge_None_2 by lia. reflexivity. }
  rewrite Hw, E, Hops, firstn_all. exact HQ.
Qed.

Lemma target_pos_some w t :
  (forall j, t = TPlanet j -> (j < length (planets w))%nat) ->
  exists tx ty, target_pos w t = Some (tx, ty).
Proof.
  intros Ht. destruct t as [|j]; [eexists _, _; reflexivity|].
  destruct (lookup_lt_is_Some_2 (planets w) j (Ht j eq_refl)) as [p Hp].
  unfold target_pos. rewrite Hp. eexists _, _; reflexivity.
Qed.

Lemma wp_target_x_pos t w tx ty (Q : num -> World -> list Op -> Prop) :
  target_pos w t = Some (tx, ty) -> Q tx w [] -> wp (target_x t) Q w.
Proof.
  intros Ht HQ. destruct t as [|j].
  - injection Ht as <- <-. apply wp_gets, HQ.
  - unfold target_pos in Ht. unfold target_x. wp_bind_gets.
    destruct (planets w !! j) as [p|]; [|discriminate]. injection Ht as <- <-.
    apply wp_bind, wp_of_option. exists p. split; [reflexivity|].
    apply wp_ret, HQ.
Qed.

Lemma wp_target_y_pos t w tx ty (Q : num -> World -> list Op -> Prop) :
  target_pos w t = Some (tx, ty) -> Q ty w [] -> wp (target_y t) Q w.
Proof.
  intros Ht HQ. destruct t as [|j].
  - injection Ht as <- <-. apply wp_gets, HQ.
  - unfold target_pos in Ht. unfold target_y. wp_bind_gets.
    destruct (planets w !! j) as [p|]; [|discriminate]. injection Ht as <- <-.
    apply wp_bind, wp_of_option. exists p. split; [reflexivity|].
    apply wp_ret, HQ.
Qed.

(** Writing to the planet at [i] does not move a target other than it. *)
Lemma target_pos_insert w t i p :
  t <> TPlanet i ->
  target_pos (set_planets (<[i := p]> (planets w)) w) t = target_pos w t.
Proof.
  intros Ht. destruct t as [|j]; [reflexivity|].
  unfold target_pos. cbn [planets set_planets].
  rewrite list_lookup_insert_ne by congruence. reflexivity.
Qed.

Lemma disc_step_fin w : exists s, disc_step w = Fin s /\ 0 < s.
Proof.
  unfold disc_step. destruct (mouseDown w).
  - exists (2 # 3). split; reflexivity.
  - exists 2. split; reflexivity.
Qed.

Lemma wp_draw_planet_calls i o w t tx ty
    (Q : unit -> World -> list Op -> Prop) :
  planet_drawable (length (planets w)) o = true ->
  o_target o = Some t -> t <> TPlanet i ->
  target_pos w t = Some (tx, ty) ->
  Q tt (set_planets (<[i := put_on_orbit cos sin tx ty o]> (planets w)) w)
    (planet_calls sin atan2 hypot w (put_on_orbit cos sin tx ty o)) ->
  wp (draw_planet cos sin atan2 hypot i o) Q w.
Proof.
  intros Hd Ht Hne Hpos HQ.
  destruct (planet_drawable_inv _ _ Hd) as (Hlen & _).
  unfold draw_planet. cbv zeta.
  apply wp_bind, wp_modify. apply wp_bind, wp_of_option.
  exists t. split; [exact Ht|].
  apply wp_bind. apply (wp_target_x_pos _ _ tx ty).
  { rewrite target_pos_insert by exact Hne. exact Hpos. }
  apply wp_bind, wp_modify.
  apply wp_bind. apply (wp_target_y_pos _ _ tx ty).
  { rewrite <- Hpos. destruct t as [|j]; [reflexivity|].
    unfold target_pos. cbn [planets set_planets].
    rewrite !list_lookup_insert_ne by congruence. reflexivity. }
  apply wp_bind, wp_modify.
  unfold pushPop. apply wp_bind, wp_emit. apply wp_bind.
  apply wp_bind, wp_emit. apply wp_bind, wp_emit. apply wp_bind, wp_emit.
  wp_bind_gets. wp_bind_gets.
  cbn [planets set_planets radius mouseDown].
  rewrite !list_insert_insert_eq.
  destruct (disc_step_fin w) as (s & Es & Hs).
  change (if mouseDown w then jdiv (Fin 2) zoomScale else Fin 2)
    with (disc_step w).
  rewrite Es.
  eapply wp_of_eq.
  { apply for_down_to_zero_run; [exact Hs | exact Hlen |].
    intros k. reflexivity. }
  apply wp_emit. cbn [app].
  unfold planet_calls in HQ. rewrite Es in HQ. exact HQ.
Qed.

Lemma targets_before_lookup ps :
  forall i k p,
    targets_before i ps = true -> ps !! k = Some p ->
    exists t, o_target p = Some t /\ forall j, t = TPlanet j -> (j < i + k)%nat.
Proof.
  induction ps as [|q ps IH]; intros i k p Hall Hp; [discriminate|].
  cbn [targets_before] in Hall. apply andb_true_iff in Hall as [Hq Hrest].
  destruct k as [|k].
  - injection Hp as <-. destruct (o_target q) as [[|j]|]; [| |discriminate].
    + exists TCenter. split; [reflexivity | discriminate].
    + exists (TPlanet j). split; [reflexivity|].
      intros j' [= <-]. apply bool_decide_eq_true in Hq. lia.
  - destruct (IH (S i) k p Hrest Hp) as (t & Ht & Hj).
    exists t. split; [exact Ht|]. intros j E. specialize (Hj j E). lia.
Qed.

Lemma ticked_put_on_orbit o tx ty : ticked o (put_on_orbit cos sin tx ty o).
Proof. repeat split. Qed.

Lemma wp_draw_planets_calls w (Q : unit -> World -> list Op -> Prop) :
  forallb (planet_drawable (length (planets w))) (planets w) = true ->
  targets_earlier w = true ->
  (forall ps,
     Forall2 ticked (planets w) ps ->
     Forall (placed cos sin (set_planets ps w)) ps ->
     Q tt (set_planets ps w)
       (concat (map (planet_calls sin atan2 hypot w) ps))) ->
  wp (for_of planets (draw_planet cos sin atan2 hypot)) Q w.
Proof.
  intros Hall Hearly HQ.
  eapply wp_mono.
  { apply (wp_for_of planets (draw_planet cos sin atan2 hypot) (fun i w' ops =>
      w' = set_planets (planets w') w /\
      length (planets w') = length (planets w) /\
      (forall j p p', (j < i)%nat -> planets w !! j = Some p ->
         planets w' !! j = Some p' -> ticked p p' /\ placed cos sin w' p') /\
      (forall j, (i <= j)%nat -> planets w' !! j = planets w !! j) /\
      ops = concat (map (planet_calls sin atan2 hypot w) (take i (planets w'))))).
    - split; [symmetry; apply set_planets_same|]. split; [reflexivity|].
      split; [intros j p p' Hj; lia |]. split; reflexivity.
    - intros i w' ops Hi (Hw & Hlen & Hlo & Hhi & Hops).
      destruct (lookup_lt_is_Some_2 (planets w) i Hi) as [o Ho].
      exists o. split; [rewrite Hhi by lia; exact Ho|].
      destruct (targets_before_lookup _ 0 i o Hearly Ho) as (t & Ht & Htj).
      assert (Hne : t <> TPlanet i).
      { intros E. specialize (Htj i E). lia. }
      destruct (target_pos_some w' t) as (tx & ty & Hpos).
      { intros j E. specialize (Htj j E). lia. }
      apply (wp_draw_planet_calls i o w' t tx ty);
        [rewrite Hlen; apply (forallb_lookup _ _ i o Hall Ho)
        | exact Ht | exact Hne | exact Hpos |].
      cbn [planets set_planets].
      split; [rewrite Hw at 2; reflexivity|].
      split; [rewrite length_insert; exact Hlen|]. split; [|split].
      + intros j p p' Hj Hp Hp'. destruct (decide (i = j)) as [<- | Hij].
        * rewrite list_lookup_insert_eq in Hp' by lia.
          injection Hp' as <-. rewrite Ho in Hp. injection Hp as <-.
          split; [apply ticked_put_on_orbit|].
          exists t, tx, ty. split; [exact Ht|].
          split; [rewrite target_pos_insert by exact Hne; exact Hpos|].
          split; reflexivity.
        * rewrite list_lookup_insert_ne in Hp' by exact Hij.
          destruct (Hlo j p p' ltac:(lia) Hp Hp') as (Htick & Hpl).
          split; [exact Htick|].
          destruct Hpl as (t' & tx' & ty' & Ht' & Hpos' & Hx & Hy).
          exists t', tx', ty'. split; [exact Ht'|].
          split; [|split; assumption].
          rewrite target_pos_insert; [exact Hpos'|].
          destruct (targets_before_lookup _ 0 j p Hearly Hp) as (t2 & Ht2 & Ht2j).
          destruct Htick as (_ & _ & _ & _ & _ & _ & Etarget & _).
          rewrite Etarget, Ht2 in Ht'. injection Ht' as <-.
          intros E. specialize (Ht2j i E). lia.
      + intros j Hj. rewrite list_lookup_insert_ne by lia. apply Hhi. lia.
      + rewrite (take_S_r _ _ (put_on_orbit cos sin tx ty o))
          by (apply list_lookup_insert_eq; lia).
        rewrite take_insert_ge by lia.
        rewrite Hops, map_app, concat_app. cbn [map concat].
        rewrite app_nil_r. f_equal. rewrite Hw. reflexivity. }
  intros [] w' ops (Hw & Hlen & Hlo & _ & Hops). cbv beta.
  rewrite Hops, take_ge by lia. clear Hops.
  remember (planets w') as ps eqn:Eps. subst w'. apply HQ.
  - apply Forall2_same_length_lookup_2; [symmetry; exact Hlen|].
    intros j p p' Hp Hp'. apply (Hlo j); [|assumption..].
    apply lookup_lt_Some in Hp. exact Hp.
  - apply Forall_lookup_2. intros j p' Hp'.
    pose proof (lookup_lt_Some _ _ _ Hp') as Hj. rewrite Hlen in Hj.
    destruct (lookup_lt_is_Some_2 (planets w) j Hj) as [p Hp].
    exact (proj2 (Hlo j p p' Hj Hp Hp')).
Qed.

Lemma wp_zoom w (Q : unit -> World -> list Op -> Prop) :
  Q tt w (zoom_calls w) ->
  wp (if mouseDown w
      then width <- gets width ;; height <- gets height ;;
           emit (Translate (jdiv width (Fin 2)) (jdiv height (Fin 2))) ;;
           emit (Scale zoomScale) ;;
           mouseX <- gets mouseX ;; mouseY <- gets mouseY ;;
           emit (Translate (jneg mouseX) (jneg mouseY))
      else ret tt) Q w.
Proof.
  unfold zoom_calls. intros HQ. destruct (mouseDown w); [|apply wp_ret, HQ].
  wp_bind_gets. wp_bind_gets. apply wp_bind, wp_emit. apply wp_bind, wp_emit.
  wp_bind_gets. wp_bind_gets. apply wp_emit, HQ.
Qed.

(** One tick on a drawable world whose planets orbit objects stored
    before them: the calls are those of [frame_calls] on the world the
    tick leaves, in which every planet is on its orbit around the place
    its target has then. *)
Lemma draw_frame w :
  drawable w = true -> targets_earlier w = true ->
  exists w',
    draw cos sin atan2 hypot noise_value w
    = Some (tt, w', frame_calls sin atan2 hypot noise_value w') /\
    tick_effect w w' /\ Forall (placed cos sin w') (planets w').
Proof.
  intros Hd Hearly. destruct (drawable_inv w Hd) as (Hn & Ha & Hp).
  cut (wp (draw cos sin atan2 hypot noise_value)
         (fun _ w' ops =>
            ops = frame_calls sin atan2 hypot noise_value w' /\
            tick_effect w w' /\ Forall (placed cos sin w') (planets w')) w).
  { intros H. apply wp_run in H as ([] & w' & ops & E & -> & Ht & Hpl). eauto. }
  unfold draw. apply wp_bind, wp_emit. wp_bind_gets.
  apply wp_bind, wp_zoom.
  unfold pushPop. apply wp_bind, wp_emit. apply wp_bind.
  wp_bind_gets. wp_bind_gets. apply wp_bind, wp_emit. apply wp_bind, wp_emit.
  apply wp_bind, wp_draw_rings_calls; [exact Hn|].
  apply wp_bind, wp_draw_stars_calls.
  destruct (after_stars_scene w) as (Ea & Ep & Es).
  destruct (after_stars_globals w)
    as (En & Em & Ewd & Eht & Emx & Emy & Eas & Erad & Ebh & Ehr & Ec & Efc).
  apply wp_bind, wp_emit. wp_bind_gets. apply wp_bind, wp_emit.
  apply wp_bind, wp_draw_arcs_calls; [rewrite Ea; exact Ha|].
  apply wp_draw_planets_calls;
    [cbn [planets set_arcs]; rewrite Ep; exact Hp
    | unfold targets_earlier; cbn [planets set_arcs]; rewrite Ep; exact Hearly |].
  intros ps Hps Hpl.
  apply wp_emit. cbn [planets set_planets]. split; [|split].
  - unfold frame_calls, zoom_calls, ring_ops, star_calls, planet_calls,
      disc_calls, disc_step.
    cbn [arcs planets stars set_arcs set_planets width height numCircles
         arcSize mouseDown mouseX mouseY radius baseHue hueRange perlin
         frameCount].
    rewrite ?Es, ?En, ?Em, ?Ewd, ?Eht, ?Emx, ?Emy, ?Eas, ?Erad, ?Ebh, ?Ehr, ?Efc.
    repeat (progress (cbn [app]; rewrite <- ?app_assoc)). reflexivity.
  - unfold tick_effect. cbn [arcs planets stars set_arcs set_planets].
    cbn [planets set_arcs] in Hps. rewrite Ep in Hps. rewrite Ea, Es.
    split; [|split; [exact Hps | split; reflexivity]].
    apply Forall2_fmap_r, Forall_Forall2_diag, Forall_forall.
    intros o _. apply ticked_advance.
  - exact Hpl.
Qed.

End FrameFacts.

(** *** The transform stack *)

Lemma stack_depth_app (a b : list Op) :
  forall d,
    stack_depth d (a ++ b)
    = match stack_depth d a with
      | Some d' => stack_depth d' b
      | None => None
      end.
Proof.
  induction a as [|o a IH]; intros d; [reflexivity|].
  destruct o; cbn [app stack_depth]; try apply IH.
  destruct d; [reflexivity | apply IH].
Qed.

Lemma stack_depth_flat {A} (f : A -> list Op) (l : list A) :
  (forall x d, stack_depth d (f x) = Some d) ->
  forall d, stack_depth d (concat (map f l)) = Some d.
Proof.
  intros Hf. induction l as [|x l IH]; intros d; [reflexivity|].
  cbn [map concat]. rewrite stack_depth_app, Hf. apply IH.
Qed.

(** *** Counting ellipses *)

Lemma count_ellipses_app (a b : list Op) :
  count_ellipses (a ++ b) = (count_ellipses a + count_ellipses b)%nat.
Proof. unfold count_ellipses. rewrite List.filter_app, length_app. reflexivity. Qed.

Lemma count_ellipses_none {A} (f : A -> list Op) (l : list A) :
  (forall x, count_ellipses (f x) = O) -> count_ellipses (concat (map f l)) = O.
Proof.
  intros Hf. induction l as [|x l IH]; [reflexivity|].
  cbn [map concat]. rewrite count_ellipses_app, Hf, IH. reflexivity.
Qed.

Lemma count_ellipses_one {A} (f : A -> list Op) (l : list A) :
  (forall x, count_ellipses (f x) = 1%nat) ->
  count_ellipses (concat (map f l)) = length l.
Proof.
  intros Hf. induction l as [|x l IH]; [reflexivity|].
  cbn [map concat length]. rewrite count_ellipses_app, Hf, IH. reflexivity.
Qed.

Lemma count_ellipses_sum {A} (f : A -> list Op) (g : A -> nat) (l : list A) :
  (forall x, count_ellipses (f x) = g x) ->
  count_ellipses (concat (map f l)) = sum_list (g <$> l).
Proof.
  intros Hf. induction l as [|x l IH]; [reflexivity|].
  cbn [map concat fmap list_fmap sum_list sum_list_with].
  rewrite count_ellipses_app, Hf, IH. reflexivity.
Qed.

Lemma loop_values_turns (start step : num) :
  length (loop_values start step) = turns start step.
Proof.
  unfold loop_values, turns.
  destruct start as [a| | |], step as [s| | |]; try reflexivity.
  destruct (Qle_bool 0 a); [apply down_values_length | reflexivity].
Qed.

Section FrameCounts.

Variables sin : num -> num.
Variables atan2 hypot : num -> num -> num.
Variable noise_value : list num -> num -> num -> num.

Lemma planet_calls_depth w p d :
  stack_depth d (planet_calls sin atan2 hypot w p) = Some d.
Proof.
  unfold planet_calls. cbn [app stack_depth].
  rewrite stack_depth_app, stack_depth_flat; [reflexivity|].
  intros x d'. reflexivity.
Qed.

Lemma frame_calls_depth w :
  stack_depth 0 (frame_calls sin atan2 hypot noise_value w) = Some 0%nat.
Proof.
  unfold frame_calls. cbn [stack_depth].
  rewrite stack_depth_app.
  assert (Ez : stack_depth 0 (zoom_calls w) = Some 0%nat).
  { unfold zoom_calls. destruct (mouseDown w); reflexivity. }
  rewrite Ez. cbn [app stack_depth].
  rewrite stack_depth_app, stack_depth_flat by (intros x d; reflexivity).
  cbn [app stack_depth].
  rewrite stack_depth_app, stack_depth_flat by (intros x d; reflexivity).
  cbn [app stack_depth].
  rewrite stack_depth_app, stack_depth_flat.
  - rewrite stack_depth_app, stack_depth_flat; [reflexivity|].
    intros p d. apply planet_calls_depth.
  - intros o d. unfold arc_calls. destruct (o_col o) as [[[h s] b]|]; reflexivity.
Qed.

Lemma planet_calls_count w p :
  count_ellipses (planet_calls sin atan2 hypot w p)
  = turns (o_len p) (disc_step w).
Proof.
  unfold planet_calls.
  change (count_ellipses
            (concat (map (disc_calls sin w p
                            (jsub (Fin 1)
                               (jmul (jdiv (hypot (to_num (o_x p)) (to_num (o_y p)))
                                        (radius w)) (Fin (2 # 5)))))
                       (loop_values (o_len p) (disc_step w))) ++ [Pop])
          = turns (o_len p) (disc_step w)).
  rewrite count_ellipses_app, count_ellipses_one by (intros x; reflexivity).
  rewrite loop_values_turns. change (count_ellipses [Pop]) with O. lia.
Qed.

Lemma frame_calls_count w :
  count_ellipses (frame_calls sin atan2 hypot noise_value w)
  = (turns (numCircles w) (Fin 1)
     + sum_list ((fun p => turns (o_len p) (disc_step w)) <$> planets w))%nat.
Proof.
  unfold frame_calls.
  change (count_ellipses (Background (Fin 0) :: ?l)) with (count_ellipses l).
  rewrite count_ellipses_app.
  assert (Ez : count_ellipses (zoom_calls w) = O).
  { unfold zoom_calls. destruct (mouseDown w); reflexivity. }
  rewrite Ez. rewrite !count_ellipses_app.
  rewrite (count_ellipses_one (ring_ops w)) by (intros x; reflexivity).
  rewrite (count_ellipses_none (star_calls noise_value w)) by (intros x; reflexivity).
  rewrite (count_ellipses_none arc_calls).
  - rewrite (count_ellipses_sum _ _ _ (planet_calls_count w)).
    rewrite loop_values_turns.
    change (count_ellipses [Pop]) with O.
    change (count_ellipses [Pop; NoFill; StrokeWeight (arcSize w)]) with O.
    match goal with |- context [count_ellipses [Push; ?a; NoStroke]] =>
      change (count_ellipses [Push; a; NoStroke]) with O end.
    match goal with |- context [count_ellipses [Push; ?a; BlendModeAdd]] =>
      change (count_ellipses [Push; a; BlendModeAdd]) with O end.
    lia.
  - intros o. unfold arc_calls. destruct (o_col o) as [[[h s] b]|]; reflexivity.
Qed.

End FrameCounts.

Lemma tick_effect_globals w w' :
  tick_effect w w' ->
  numCircles w' = numCircles w /\ disc_step w' = disc_step w /\
  mouseDown w' = mouseDown w /\ width w' = width w /\ height w' = height w /\
  mouseX w' = mouseX w /\ mouseY w' = mouseY w.
Proof.
  intros (_ & _ & _ & Hw). rewrite Hw. unfold disc_step.
  cbn [numCircles mouseDown width height mouseX mouseY set_planets set_arcs].
  destruct (after_stars_globals w) as (-> & -> & -> & -> & -> & -> & _).
  repeat split.
Qed.

Lemma ticked_turns (s : num) (ps ps' : list SpaceObject) :
  Forall2 ticked ps ps' ->
  (fun p => turns (o_len p) s) <$> ps' = (fun p => turns (o_len p) s) <$> ps.
Proof.
  induction 1 as [|p p' ps ps' Hp _ IH]; [reflexivity|].
  cbn [fmap list_fmap].
  destruct Hp as (_ & _ & _ & -> & _). f_equal. exact IH.
Qed.

Lemma targets_before_ticked (ps ps' : list SpaceObject) :
  Forall2 ticked ps ps' ->
  forall i, targets_before i ps' = targets_before i ps.
Proof.
  induction 1 as [|p p' ps ps' Hp _ IH]; intros i; [reflexivity|].
  cbn [targets_before].
  destruct Hp as (_ & _ & _ & _ & _ & _ & -> & _). rewrite IH. reflexivity.
Qed.


Lemma angles_after_step n o o1 o' :
  ticked o o1 -> angles_after n o1 o' -> angles_after (S n) o o'.
Proof.
  intros (Ea & _ & _ & _ & _ & Es & _) (Es' & Hn).
  split; [congruence|].
  rewrite Hn, Ea, Es. symmetry.
  exact (Nat.iter_succ_r n (fun a => jadd a (o_speed o)) (o_angle o)).
Qed.

Lemma angles_after_chain n (l l1 l' : list SpaceObject) :
  Forall2 ticked l l1 -> Forall2 (angles_after n) l1 l' ->
  Forall2 (angles_after (S n)) l l'.
Proof.
  intros H1. revert l'.
  induction H1 as [|o o1 l l1 Ho _ IH]; intros l' H2.
  - inversion H2; subst. constructor.
  - inversion H2 as [|? o' ? l2 Ho' Hl2]; subst.
    constructor; [exact (angles_after_step n o o1 o' Ho Ho') | apply IH, Hl2].
Qed.

Lemma angles_after_zero (l : list SpaceObject) : Forall2 (angles_after 0) l l.
Proof.
  apply Forall_Forall2_diag, Forall_forall. intros o _. split; reflexivity.
Qed.

(** The closed form of the counter values agrees with the loop's own
    test and decrement, in exact arithmetic. *)
Lemma down_values_counts (s : Q) :
  0 < s ->
  forall k a,
    0 <= a -> Z.to_nat (Qfloor (a / s)) = k ->
    counts_down (Fin s) (Fin a) (down_values (S k) a s).
Proof.
  intros Hs. induction k as [|k IH]; intros a Ha Hk.
  - cbn [down_values]. apply counts_turn; [apply jle_fin, Ha|].
    apply counts_done. apply not_true_iff_false. unfold jge, jsub, fin.
    rewrite jle_fin, Qred_correct.
    pose proof (Qlt_floor (a / s)) as Hlt.
    assert (H0 : (Qfloor (a / s) <= 0)%Z) by lia.
    assert (H1 : a / s < 1).
    { eapply Qlt_le_trans; [exact Hlt|].
      change 1 with (inject_Z 1). rewrite <- Zle_Qle. lia. }
    intros Hge. apply (Qlt_not_le _ _ H1).
    apply Qle_shift_div_l; [exact Hs | lra].
  - cbn [down_values]. apply counts_turn; [apply jle_fin, Ha|].
    change (jsub (Fin a) (Fin s)) with (Fin (Qred (a - s))).
    pose proof (Qfloor_step a s Hs) as Estep.
    assert (Hpos : 0 <= a - s).
    { pose proof (Qfloor_le (a / s)) as Hle.
      assert (H1 : 1 <= a / s).
      { eapply Qle_trans; [|exact Hle].
        change 1 with (inject_Z 1). rewrite <- Zle_Qle. lia. }
      assert (Ea : a / s * s == a) by (field; lra).
      assert (H2 : 1 * s <= a / s * s)
        by (apply Qmult_le_compat_r; [exact H1 | lra]).
      lra. }
    apply IH; [rewrite Qred_correct; exact Hpos|].
    assert (Hge : (0 <= Qfloor (Qred (a - s) / s))%Z).
    { apply Qfloor_nonneg. rewrite Qred_correct.
      apply Qle_shift_div_l; [exact Hs | lra]. }
    lia.
Qed.

Lemma loop_values_counts (start : num) (s : Q) :
  0 < s -> start <> PInf ->
  counts_down (Fin s) start (loop_values start (Fin s)).
Proof.
  intros Hs Hstart. unfold loop_values.
  destruct start as [a| | |]; [| congruence | | ];
    [| apply counts_done; reflexivity ..].
  destruct (Qle_bool 0 a) eqn:E.
  - apply down_values_counts; [exact Hs | apply Qle_bool_iff, E | reflexivity].
  - apply counts_done. exact E.
Qed.

(** The hue of a computed sum that is not negative is its fractional
    part, whatever the rounding. *)
Lemma hue_of_nonneg (rnd : Q -> Q) (b r amt sh : Q) :
  0 <= rnd (rnd (b + rnd (amt * r)) + sh) ->
  0 <= (colorMapR rnd b r amt sh).1.1 /\
  (colorMapR rnd b r amt sh).1.1 < 1 /\
  (colorMapR rnd b r amt sh).1.1
  == rnd (rnd (b + rnd (amt * r)) + sh)
     - inject_Z (Qfloor (rnd (rnd (b + rnd (amt * r)) + sh))).
Proof.
  intros Hpos. rewrite hue_minus_trunc.
  set (x := rnd (rnd (b + rnd (amt * r)) + sh)) in *.
  unfold Qtrunc. rewrite (proj2 (Qle_bool_iff 0 x)) by exact Hpos.
  pose proof (Qfloor_le x). pose proof (Qlt_floor x) as H1.
  rewrite inject_Z_plus in H1. change (inject_Z 1) with 1 in H1.
  split; [lra|]. split; [lra|]. reflexivity.
Qed.

Lemma zip_with_values {A B C} (f : A -> B -> C) (h : A -> B) (l : list A) :
  zip_with f l (h <$> l) = (fun a => f a (h a)) <$> l.
Proof.
  induction l as [|a l IH]; [reflexivity|].
  cbn [fmap list_fmap zip_with]. f_equal. exact IH.
Qed.

Lemma disc_step_value (w : World) :
  disc_step w = Fin (if mouseDown w then 2 # 3 else 2)
  /\ 0 < (if mouseDown w then 2 # 3 else 2).
Proof. unfold disc_step. destruct (mouseDown w); split; reflexivity. Qed.

Section FrameTheorems.

Variables cos sin : num -> num.
Variables atan2 hypot : num -> num -> num.
Variable noise_value : list num -> num -> num -> num.

(** The calls of a tick, with the counter values of its loops set apart. *)
Lemma frame_calls_split (w : World) :
  frame_calls sin atan2 hypot noise_value w
  = frame_calls_at sin atan2 hypot noise_value w
      (loop_values (numCircles w) (Fin 1))
      ((fun p => loop_values (o_len p) (disc_step w)) <$> planets w).
Proof.
  unfold frame_calls, frame_calls_at. rewrite zip_with_values. reflexivity.
Qed.

Lemma planet_loops_count (w : World) (ps : list SpaceObject) (n : nat) :
  forallb (planet_drawable n) ps = true ->
  Forall2 (fun p ds => counts_down (disc_step w) (o_len p) ds) ps
    ((fun p => loop_values (o_len p) (disc_step w)) <$> ps).
Proof.
  intros H. destruct (disc_step_value w) as [-> Hs].
  induction ps as [|p ps IH]; [constructor|].
  cbn [forallb] in H. apply andb_true_iff in H as [Hp Hps].
  cbn [fmap list_fmap]. constructor; [|apply IH, Hps].
  apply loop_values_counts; [exact Hs|].
  unfold planet_drawable in Hp. apply andb_true_iff in Hp as [Hp _].
  intros E. rewrite E in Hp. discriminate.
Qed.

(** X12.  One call of [draw] on a world on which it completes, in
    which every planet orbits the center or a planet stored before it,
    and whose loops start at [2^52] at most, issues exactly the calls of
    [frame_calls_at], read off the world the call leaves:
    [background(0)], the zoom transform when the pointer is pressed, then
    between a [push] and a [pop] one disc per value of the counter of
    the background loop, the stars between their own [push] and [pop],
    the arcs, and the planets, each between its own [push] and [pop] with
    one disc per value of the counter of its shading loop.  The counter
    values are those the test [i >= 0] and the decrement of each loop
    give; how many they are is not said. *)
Theorem draw_issues_frame_calls (w : World) :
  drawable w = true -> targets_earlier w = true -> loops_modest w = true ->
  exists w' rs dss,
    draw cos sin atan2 hypot noise_value w
    = Some (tt, w', frame_calls_at sin atan2 hypot noise_value w' rs dss) /\
    counts_down (Fin 1) (numCircles w') rs /\
    Forall2 (fun p ds => counts_down (disc_step w') (o_len p) ds)
      (planets w') dss /\
    tick_effect w w'.
Proof.
  intros Hd He _.
  destruct (draw_frame cos sin atan2 hypot noise_value w Hd He) as (w' & E & Ht & _).
  pose proof (tick_effect_drawable w w' Ht Hd) as Hd'.
  destruct (drawable_inv w' Hd') as (Hn & _ & Hp).
  exists w', (loop_values (numCircles w') (Fin 1)),
    ((fun p => loop_values (o_len p) (disc_step w')) <$> planets w').
  split; [rewrite <- frame_calls_split; exact E|].
  split; [apply loop_values_counts; [reflexivity | exact Hn]|].
  split; [exact (planet_loops_count w' _ _ Hp) | exact Ht].
Qed.

(** X13.  After a call of [draw], every planet is at
    [cos(angle)*radius + target.x, sin(angle)*radius + target.y] for
    the angle it has then and the place its target has then: a planet
    is drawn around the place its target has in the same frame. *)
Theorem draw_places_planets (w : World) :
  drawable w = true -> targets_earlier w = true ->
  exists w' ops,
    draw cos sin atan2 hypot noise_value w = Some (tt, w', ops) /\
    Forall (placed cos sin w') (planets w').
Proof.
  intros Hd He.
  destruct (draw_frame cos sin atan2 hypot noise_value w Hd He) as (w' & E & _ & Hp).
  exists w', (frame_calls sin atan2 hypot noise_value w'). split; [exact E | exact Hp].
Qed.

(** X14.  The calls of one [draw] leave the transform stack as deep as
    they found it, and no [pop] of theirs finds it empty. *)
Theorem draw_balances_stack (w : World) :
  drawable w = true -> targets_earlier w = true ->
  exists w' ops,
    draw cos sin atan2 hypot noise_value w = Some (tt, w', ops) /\
    stack_depth 0 ops = Some 0%nat.
Proof.
  intros Hd He.
  destruct (draw_frame cos sin atan2 hypot noise_value w Hd He) as (w' & E & _).
  exists w', (frame_calls sin atan2 hypot noise_value w').
  split; [exact E | apply frame_calls_depth].
Qed.

(** X15.  How many ellipses one [draw] draws while the pointer is not
    pressed, on a world whose loops start at [2^52] at most: one per
    turn of the background loop, which counts down from [numCircles] in
    steps of 1, and for each planet one per turn of its shading loop,
    which counts down from the planet's [len] in steps of 2.  Up to
    [2^52] these decrements are exact in binary64 as long as the counter
    is not negative. *)
Theorem draw_ellipse_count (w : World) :
  drawable w = true -> targets_earlier w = true -> loops_modest w = true ->
  mouseDown w = false ->
  exists w' ops,
    draw cos sin atan2 hypot noise_value w = Some (tt, w', ops) /\
    count_ellipses ops
    = (turns (numCircles w) (Fin 1)
       + sum_list ((fun p => turns (o_len p) (Fin 2)) <$> planets w))%nat.
Proof.
  intros Hd He _ Hm.
  destruct (draw_frame cos sin atan2 hypot noise_value w Hd He) as (w' & E & Ht & _).
  exists w', (frame_calls sin atan2 hypot noise_value w'). split; [exact E|].
  rewrite frame_calls_count.
  destruct (tick_effect_globals w w' Ht) as (-> & -> & _).
  destruct Ht as (_ & Hps & _).
  rewrite (ticked_turns _ _ _ Hps). unfold disc_step. rewrite Hm. reflexivity.
Qed.

(** X16.  On a world on which [draw] completes, any number [n] of calls
    of [draw] in a row complete; they leave such a world again, with
    the same targets, and every arc and planet keeps its speed and has
    had it added to its angle [n] times, one addition after the other
    (which in binary64 is not the angle plus [n] times the speed). *)
Theorem ticks_advance (n : nat) :
  forall w : World,
    drawable w = true ->
    exists w',
      repeat_step (tick cos sin atan2 hypot noise_value) n w = Some w' /\
      drawable w' = true /\
      targets_earlier w' = targets_earlier w /\
      Forall2 (angles_after n) (arcs w) (arcs w') /\
      Forall2 (angles_after n) (planets w) (planets w').
Proof.
  induction n as [|n IH]; intros w Hd.
  - exists w. split; [reflexivity|]. split; [exact Hd|].
    split; [reflexivity|]. split; apply angles_after_zero.
  - destruct (draw_tick cos sin atan2 hypot noise_value w Hd) as (w1 & ops & E & Ht).
    pose proof (tick_effect_drawable w w1 Ht Hd) as Hd1.
    destruct (IH w1 Hd1) as (w' & Erun & Hd' & He' & Ha & Hp).
    exists w'. cbn [repeat_step]. unfold tick at 1. rewrite E.
    split; [exact Erun|]. split; [exact Hd'|].
    destruct Ht as (Harcs & Hplanets & _).
    split; [|split].
    + rewrite He'. apply (targets_before_ticked _ _ Hplanets).
    + exact (angles_after_chain n _ _ _ Harcs Ha).
    + exact (angles_after_chain n _ _ _ Hplanets Hp).
Qed.


End FrameTheorems.

Lemma draw_issues_frame_calls_witness :
  exists w' rs dss,
    draw flat1 flat1 flat2 flat2 table_head small_world
    = Some (tt, w', frame_calls_at flat1 flat2 flat2 table_head w' rs dss) /\
    counts_down (Fin 1) (numCircles w') rs /\
    Forall2 (fun p ds => counts_down (disc_step w') (o_len p) ds)
      (planets w') dss /\
    tick_effect small_world w'.
Proof.
  apply (draw_issues_frame_calls flat1 flat1 flat2 flat2 table_head small_world);
    reflexivity.
Defined.

Lemma draw_places_planets_witness :
  exists w' ops,
    draw flat1 flat1 flat2 flat2 table_head small_world = Some (tt, w', ops) /\
    Forall (placed flat1 flat1 w') (planets w').
Proof.
  apply (draw_places_planets flat1 flat1 flat2 flat2 table_head small_world);
    reflexivity.
Defined.

Lemma draw_balances_stack_witness :
  exists w' ops,
    draw flat1 flat1 flat2 flat2 table_head small_world = Some (tt, w', ops) /\
    stack_depth 0 ops = Some 0%nat.
Proof.
  apply (draw_balances_stack flat1 flat1 flat2 flat2 table_head small_world);
    reflexivity.
Defined.

Lemma draw_ellipse_count_witness :
  exists w' ops,
    draw flat1 flat1 flat2 flat2 table_head (set_mouseDown false small_world)
    = Some (tt, w', ops) /\
    count_ellipses ops = 10%nat.
Proof.
  apply (draw_ellipse_count flat1 flat1 flat2 flat2 table_head
           (set_mouseDown false small_world));
    reflexivity.
Defined.

Lemma ticks_advance_witness :
  exists w',
    repeat_step (tick flat1 flat1 flat2 flat2 table_head) 3 small_world = Some w' /\
    drawable w' = true /\
    targets_earlier w' = targets_earlier small_world /\
    Forall2 (angles_after 3) (arcs small_world) (arcs w') /\
    Forall2 (angles_after 3) (planets small_world) (planets w').
Proof.
  apply (ticks_advance flat1 flat1 flat2 flat2 table_head 3 small_world). reflexivity.
Defined.


(** X18.  [colorMap] in rounded arithmetic, whatever the rounding: when
    the sum [baseHue + amt*hueRange + hueShift] as the code computes it,
    each operation rounded, is not negative, the hue is the fractional
    part of that computed sum and lies in [[0, 1)]. *)
Theorem colorMap_hue_wraps (rnd : Q -> Q) (b r amt sh : Q) :
  0 <= rnd (rnd (b + rnd (amt * r)) + sh) ->
  0 <= (colorMapR rnd b r amt sh).1.1 /\
  (colorMapR rnd b r amt sh).1.1 < 1 /\
  (colorMapR rnd b r amt sh).1.1
  == rnd (rnd (b + rnd (amt * r)) + sh)
     - inject_Z (Qfloor (rnd (rnd (b + rnd (amt * r)) + sh))).
Proof. apply hue_of_nonneg. Qed.

Lemma colorMap_hue_wraps_witness :
  0 <= (colorMapR round64 (7 # 8) (1 # 2) (1 # 2) 0).1.1 /\
  (colorMapR round64 (7 # 8) (1 # 2) (1 # 2) 0).1.1 < 1 /\
  (colorMapR round64 (7 # 8) (1 # 2) (1 # 2) 0).1.1
  == round64 (round64 ((7 # 8) + round64 ((1 # 2) * (1 # 2))) + 0)
     - inject_Z (Qfloor (round64 (round64 ((7 # 8)
                                           + round64 ((1 # 2) * (1 # 2))) + 0))).
Proof.
  apply (colorMap_hue_wraps round64 (7 # 8) (1 # 2) (1 # 2) 0).
  vm_compute. discriminate.
Defined.

(** ** The pointer and the frame *)

Section PointerFrames.

Variables cos sin : num -> num.
Variables atan2 hypot : num -> num -> num.
Variable noise_value : list num -> num -> num -> num.

(** X19.  The frame drawn after a press of a button other than the
    secondary one starts with [background(0)] and the zoom transform
    [translate(width/2, height/2)], [scale(3)],
    [translate(-mouseX, -mouseY)], and shades the planets in steps of
    2/3. *)
Theorem pressed_frame_zooms (button : num) (w : World) :
  jeq button (Fin 2) = false ->
  drawable w = true -> targets_earlier w = true ->
  exists w' rest,
    (mousePressed button ;; draw cos sin atan2 hypot noise_value) w
    = Some (tt, w',
            Background (Fin 0)
            :: Translate (jdiv (width w) (Fin 2)) (jdiv (height w) (Fin 2))
            :: Scale (Fin 3)
            :: Translate (jneg (mouseX w)) (jneg (mouseY w))
            :: Push :: rest) /\
    disc_step w' = Fin (2 # 3).
Proof.
  intros Hb Hd He.
  destruct (draw_frame cos sin atan2 hypot noise_value (set_mouseDown true w) Hd He)
    as (w' & E & Ht & _).
  destruct (tick_effect_globals _ _ Ht) as (_ & Hstep & Em & Ewd & Eht & Emx & Emy).
  cbn [mouseDown width height mouseX mouseY set_mouseDown] in Em, Ewd, Eht, Emx, Emy.
  exists w', (drop 5 (frame_calls sin atan2 hypot noise_value w')).
  split; [|rewrite Hstep; reflexivity].
  unfold mousePressed, bind, modify, ret. rewrite Hb, E.
  unfold frame_calls, zoom_calls. rewrite Em, Ewd, Eht, Emx, Emy.
  cbn [app drop]. reflexivity.
Qed.

(** X20.  The frame drawn after [mouseReleased] has no zoom transform:
    [background(0)] is followed by the [push] of the scene, and the
    planets are shaded in steps of 2. *)
Theorem released_frame_plain (w : World) :
  drawable w = true -> targets_earlier w = true ->
  exists w' rest,
    (mouseReleased ;; draw cos sin atan2 hypot noise_value) w
    = Some (tt, w',
            Background (Fin 0) :: Push
            :: Translate (jdiv (width w) (Fin 2)) (jdiv (height w) (Fin 2))
            :: NoStroke :: rest) /\
    disc_step w' = Fin 2.
Proof.
  intros Hd He.
  destruct (draw_frame cos sin atan2 hypot noise_value (set_mouseDown false w) Hd He)
    as (w' & E & Ht & _).
  destruct (tick_effect_globals _ _ Ht) as (_ & Hstep & Em & Ewd & Eht & Emx & Emy).
  cbn [mouseDown width height set_mouseDown] in Em, Ewd, Eht.
  exists w', (drop 4 (frame_calls sin atan2 hypot noise_value w')).
  split; [|rewrite Hstep; reflexivity].
  unfold mouseReleased, bind, modify. rewrite E.
  unfold frame_calls, zoom_calls. rewrite Em, Ewd, Eht.
  cbn [app drop]. reflexivity.
Qed.


End PointerFrames.

Lemma pressed_frame_zooms_witness :
  exists w' rest,
    (mousePressed (Fin 0) ;; draw flat1 flat1 flat2 flat2 table_head) small_world
    = Some (tt, w',
            Background (Fin 0)
            :: Translate (jdiv (width small_world) (Fin 2))
                 (jdiv (height small_world) (Fin 2))
            :: Scale (Fin 3)
            :: Translate (jneg (mouseX small_world)) (jneg (mouseY small_world))
            :: Push :: rest) /\
    disc_step w' = Fin (2 # 3).
Proof.
  apply (pressed_frame_zooms flat1 flat1 flat2 flat2 table_head (Fin 0) small_world);
    reflexivity.
Defined.

Lemma released_frame_plain_witness :
  exists w' rest,
    (mouseReleased ;; draw flat1 flat1 flat2 flat2 table_head) small_world
    = Some (tt, w',
            Background (Fin 0) :: Push
            :: Translate (jdiv (width small_world) (Fin 2))
                 (jdiv (height small_world) (Fin 2))
            :: NoStroke :: rest) /\
    disc_step w' = Fin 2.
Proof.
  apply (released_frame_plain flat1 flat1 flat2 flat2 table_head small_world);
    reflexivity.
Defined.


(** ** From [setup] to the first frame *)

Section SetupFacts.

Variable resizeCanvas : num -> num -> M unit.
Variables createCanvas colorMode : M unit.

(** What is taken for granted of the three p5 calls of [setup]: they
    complete and leave [Math.random] a source of numbers in [[0, 1)], and
    [resizeCanvas] sets [width] and [height]. *)
Hypothesis createCanvas_completes :
  forall w, rng_ok w ->
    exists w' ops, createCanvas w = Some (tt, w', ops) /\ rng_ok w'.
Hypothesis colorMode_completes :
  forall w, rng_ok w ->
    exists w' ops, colorMode w = Some (tt, w', ops) /\ rng_ok w'.
Hypothesis resizeCanvas_completes :
  forall W H w, rng_ok w ->
    exists w' ops,
      resizeCanvas W H w = Some (tt, w', ops) /\
      width w' = W /\ height w' = H /\ rng_ok w'.


End SetupFacts.

